(** * A shallow embedding of [advanced-vector/vector.h]

    [RawMemory<T>] owns a block of raw, uninitialised slots; [Vector<T>]
    owns one [RawMemory<T>] and keeps the objects of the slots
    [0, size_) alive.  The embedding keeps that split:

    - a block is a list of slots, a slot being raw ([None]) or holding a
      live object ([Some x]);
    - a size is a [nat], the length of a block or an index into one;
      the products the code computes in [size_t], the byte count
      [n * sizeof(T)] of an allocation and the doubled capacity, wrap as
      the [Layout] of [T] says, so that a block asked for [n] objects
      has the slots its wrapped byte count has room for;
    - a statement that names no layout is on [unbounded_layout], whose
      [size_t] never wraps: it is about sizes that are the size of a
      block a vector already has, or twice that.  The statements on a
      size the caller chooses ([Reserve], [Resize], [Vector(n)]) are on
      every layout, for the sizes whose byte count is representable;
      within those the code runs as on [unbounded_layout]
      ([Reserve_representable] and the lemmas next to it);
    - an iterator is the index it has from [begin()];
    - every operation of [T] that may throw, and every allocation, asks
      the schedule of the world whether it throws now; an operation that
      throws has not touched the objects it was given; the empty
      schedule is the run in which nothing throws;
    - the methods are written in a state monad whose state is the object
      [this] points to, with an outcome that tells a normal return from a
      propagating exception, a failed [assert] and undefined behaviour;
    - the algorithms of the standard library are given by their
      contract: the [uninitialized_] ones destroy what they constructed
      when a construction throws, the assigning ones do not undo. *)

From stdpp Require Import base option list gmap.

(** ** The element type *)

(** What the code asks of [T]: the two type traits tested by
    [if constexpr], the state a moved-from object is left in, and the
    value produced by value-initialisation. *)
Class Element (T : Type) : Type := {
  is_nothrow_move_constructible : bool;
  is_copy_constructible : bool;
  moved_from : T -> T;
  value_initialized : T
}.

(** ** Worlds, outcomes and the monad *)

(** [sched]: the answers still to be given at the coming throw points
    ([true]: throw); when the list is exhausted nothing throws any more.
    [released_live]: how many blocks were handed to [operator delete]
    while a [RawMemory] still pointed to them. *)
Record World : Type := mkWorld {
  sched : list bool;
  released_live : nat
}.

Inductive outcome (A : Type) : Type :=
| Returns (a : A)
| Throws
| AssertFails
| Undefined.
Arguments Returns {A} a.
Arguments Throws {A}.
Arguments AssertFails {A}.
Arguments Undefined {A}.

Definition M (S A : Type) : Type := S -> World -> outcome A * S * World.

Definition ret {S A} (a : A) : M S A := fun s w => (Returns a, s, w).

Definition bind {S A B} (m : M S A) (k : A -> M S B) : M S B :=
  fun s w =>
    match m s w with
    | (Returns a, s', w') => k a s' w'
    | (Throws, s', w') => (Throws, s', w')
    | (AssertFails, s', w') => (AssertFails, s', w')
    | (Undefined, s', w') => (Undefined, s', w')
    end.

Declare Scope vec_scope.
Delimit Scope vec_scope with vec.
Notation "'let*' x ':=' m 'in' k" := (bind m (fun x => k))
  (at level 10, x name, m at level 100, k at level 200) : vec_scope.
Notation "m ';;' k" := (bind m (fun _ => k))
  (at level 100, k at level 200, right associativity) : vec_scope.
Local Open Scope vec_scope.

Definition get {S} : M S S := fun s w => (Returns s, s, w).
Definition put {S} (s : S) : M S unit := fun _ w => (Returns tt, s, w).
Definition modify {S} (f : S -> S) : M S unit := fun s w => (Returns tt, f s, w).

(** [throw;] and a failed [assert]. *)
Definition throw {S A} : M S A := fun s w => (Throws, s, w).
Definition assert {S} (b : bool) : M S unit :=
  fun s w => (if b then Returns tt else AssertFails, s, w).
Definition undefined {S A} : M S A := fun s w => (Undefined, s, w).

(** A point at which an operation of [T] (or the allocator) may throw. *)
Definition throw_point {S} : M S unit :=
  fun s w =>
    match sched w with
    | [] => (Returns tt, s, w)
    | b :: rest =>
        (if b then Throws else Returns tt, s,
         mkWorld rest (released_live w))
    end.

(** [try { m } catch (...) { h }] *)
Definition try_catch {S A} (m : M S A) (h : M S A) : M S A :=
  fun s w =>
    match m s w with
    | (Throws, s', w') => h s' w'
    | r => r
    end.

(** Running a computation on a part of the state. *)
Record lens (S V : Type) : Type := Lens {
  view : S -> V;
  update : V -> S -> S
}.
Arguments Lens {S V} view update.
Arguments view {S V} l s.
Arguments update {S V} l v s.

Definition zoom {S V A} (l : lens S V) (m : M V A) : M S A :=
  fun s w =>
    match m (view l s) w with
    | (r, v', w') => (r, update l v' s, w')
    end.

Definition lens_comp {S U V} (l1 : lens S U) (l2 : lens U V) : lens S V :=
  Lens (fun s => view l2 (view l1 s))
       (fun v s => update l1 (update l2 v (view l1 s)) s).

Definition lens_pair {S U V} (l1 : lens S U) (l2 : lens S V) : lens S (U * V) :=
  Lens (fun s => (view l1 s, view l2 s))
       (fun uv s => update l2 (snd uv) (update l1 (fst uv) s)).

Definition lens_fst {A B} : lens (A * B) A :=
  Lens fst (fun a p => (a, snd p)).
Definition lens_snd {A B} : lens (A * B) B :=
  Lens snd (fun b p => (fst p, b)).

(** A local object: [m] runs with the local [init] next to the state,
    and the local's destructor [dtor] runs when the scope is left, on a
    normal return as on an exception. *)
Definition with_local {S L A} (init : L) (dtor : M L unit) (m : M (S * L) A) : M S A :=
  fun s w =>
    match m (s, init) w with
    | (Returns a, (s', l), w') =>
        match dtor l w' with
        | (Returns _, _, w'') => (Returns a, s', w'')
        | (Throws, _, w'') => (Throws, s', w'')
        | (AssertFails, _, w'') => (AssertFails, s', w'')
        | (Undefined, _, w'') => (Undefined, s', w'')
        end
    | (Throws, (s', l), w') =>
        match dtor l w' with
        | (Returns _, _, w'') => (Throws, s', w'')
        | (Throws, _, w'') => (Undefined, s', w'')
        | (AssertFails, _, w'') => (AssertFails, s', w'')
        | (Undefined, _, w'') => (Undefined, s', w'')
        end
    | (AssertFails, (s', _), w') => (AssertFails, s', w')
    | (Undefined, (s', _), w') => (Undefined, s', w')
    end.

(** ** Blocks of slots and the operations of [T] on them *)

(** A slot is raw memory ([None]) or a live object ([Some x]). *)
Abbreviation buffer T := (list (option T)) (only parsing).

Section Slots.
Context {T : Type} `{Element T}.

(** The live object of slot [i]; reading a raw slot or past the block
    is undefined. *)
Definition load (i : nat) : M (buffer T) T :=
  let* b := get in
  match b !! i with
  | Some (Some x) => ret x
  | _ => undefined
  end.

(** Writing slot [i]; past the block it is undefined. *)
Definition store (i : nat) (s : option T) : M (buffer T) unit :=
  let* b := get in
  if decide (i < length b) then put (<[i := s]> b) else undefined.

(** [new (p + i) T(x)]: the constructor may throw; the slot holds [x]
    afterwards. *)
Definition construct_at (i : nat) (x : T) : M (buffer T) unit :=
  let* b := get in
  if decide (i < length b)
  then throw_point;; put (<[i := Some x]> b)
  else undefined.

(** [std::destroy_at(p + i)]: the slot must hold a live object;
    destructors do not throw. *)
Definition destroy_at (i : nat) : M (buffer T) unit :=
  let* _ := load i in store i None.

(** [new (dst + i) T(src[j])], copy construction from another block. *)
Definition copy_construct (src : buffer T) (j i : nat) : M (buffer T) unit :=
  match src !! j with
  | Some (Some x) => construct_at i x
  | _ => undefined
  end.

(** [dst[i] = src[j]], copy assignment from another block: both
    objects must be alive. *)
Definition copy_assign (src : buffer T) (j i : nat) : M (buffer T) unit :=
  match src !! j with
  | Some (Some x) => let* _ := load i in throw_point;; store i (Some x)
  | _ => undefined
  end.

(** [new (dst + i) T(std::move(src[j]))] between two blocks, the state
    being the pair (source, destination).  A move constructor that is
    [noexcept] has no throw point. *)
Definition move_construct (j i : nat) : M (buffer T * buffer T) unit :=
  let* x := zoom lens_fst (load j) in
  let* d := zoom lens_snd get in
  if decide (i < length d)
  then
    (if is_nothrow_move_constructible then ret tt else throw_point);;
    zoom lens_snd (store i (Some x));;
    zoom lens_fst (store j (Some (moved_from x)))
  else undefined.

(** [new (p + i) T(std::move(p[j]))] inside one block. *)
Definition move_construct_within (j i : nat) : M (buffer T) unit :=
  let* x := load j in
  let* b := get in
  if decide (i < length b)
  then
    (if is_nothrow_move_constructible then ret tt else throw_point);;
    store i (Some x);;
    store j (Some (moved_from x))
  else undefined.

(** [p[i] = std::move(p[j])] inside one block. *)
Definition move_assign (j i : nat) : M (buffer T) unit :=
  let* x := load j in
  let* _ := load i in
  throw_point;;
  store i (Some x);;
  store j (Some (moved_from x)).

(** [p[i] = std::move(tmp)] from a temporary holding [x]. *)
Definition move_assign_from (x : T) (i : nat) : M (buffer T) unit :=
  let* _ := load i in
  throw_point;;
  store i (Some x).

(** *** The algorithms of <memory> and <algorithm> the code calls *)

(** [std::destroy_n(p + first, n)] *)
Fixpoint destroy_n (first n : nat) : M (buffer T) unit :=
  match n with
  | 0 => ret tt
  | S n' => destroy_at first;; destroy_n (S first) n'
  end.

(** [std::uninitialized_copy_n(src + first, n, dst + d_first)]: when a
    construction throws, the objects already constructed in the
    destination are destroyed and the exception is rethrown. *)
Fixpoint uninitialized_copy_n (src : buffer T) (first n d_first : nat) : M (buffer T) unit :=
  match n with
  | 0 => ret tt
  | S n' =>
      copy_construct src first d_first;;
      try_catch (uninitialized_copy_n src (S first) n' (S d_first))
                (destroy_at d_first;; throw)
  end.

(** [std::uninitialized_move_n(src + first, n, dst + d_first)], on the
    pair (source, destination); same clean-up of the destination. *)
Fixpoint uninitialized_move_n (first n d_first : nat) : M (buffer T * buffer T) unit :=
  match n with
  | 0 => ret tt
  | S n' =>
      move_construct first d_first;;
      try_catch (uninitialized_move_n (S first) n' (S d_first))
                (zoom lens_snd (destroy_at d_first);; throw)
  end.

(** [std::uninitialized_value_construct_n(p + first, n)] *)
Fixpoint uninitialized_value_construct_n (first n : nat) : M (buffer T) unit :=
  match n with
  | 0 => ret tt
  | S n' =>
      construct_at first value_initialized;;
      try_catch (uninitialized_value_construct_n (S first) n')
                (destroy_at first;; throw)
  end.

(** [std::copy(src + first, src + first + n, dst + d_first)] *)
Fixpoint std_copy (src : buffer T) (first n d_first : nat) : M (buffer T) unit :=
  match n with
  | 0 => ret tt
  | S n' => copy_assign src first d_first;; std_copy src (S first) n' (S d_first)
  end.

(** [std::move(p + first, p + first + n, p + d_first)] *)
Fixpoint std_move (first n d_first : nat) : M (buffer T) unit :=
  match n with
  | 0 => ret tt
  | S n' => move_assign first d_first;; std_move (S first) n' (S d_first)
  end.

(** [std::move_backward(p + first, p + first + n, p + d_last)]: the
    last element is moved first. *)
Fixpoint std_move_backward (first n d_last : nat) : M (buffer T) unit :=
  match n with
  | 0 => ret tt
  | S n' =>
      move_assign (first + n') (d_last - 1);;
      std_move_backward first n' (d_last - 1)
  end.
End Slots.

(** [std::swap(a, b)] on two parts of the state, in the three moves of
    the library: when [a] and [b] are the same object, the writes land on
    that one object. *)
Definition std_swap {S X} (a b : lens S X) : M S unit :=
  let* s := get in
  let tmp := view a s in
  modify (fun s => update a (view b s) s);;
  modify (update b tmp).

(** [std::exchange(obj, new_value)] *)
Definition std_exchange {S X} (obj : lens S X) (new_value : X) : M S X :=
  let* s := get in
  let old := view obj s in
  modify (update obj new_value);;
  ret old.

(** The object under construction is [init] after its member
    initialisers; when the constructor body throws the object never
    comes to exist. *)
Definition construct {S V} (init : V) (body : M V unit) : M S V :=
  fun s w =>
    match body init w with
    | (Returns _, v, w') => (Returns v, s, w')
    | (Throws, _, w') => (Throws, s, w')
    | (AssertFails, _, w') => (AssertFails, s, w')
    | (Undefined, _, w') => (Undefined, s, w')
    end.

(** ** [size_t] and [sizeof(T)]

    The byte count of an allocation, [n * sizeof(T)], is computed in
    [size_t] and wraps there.  [size_t_bits] is the width of [size_t],
    [None] standing for a [size_t] wide enough for every byte count. *)
Class Layout (T : Type) : Type := {
  sizeof : positive;
  size_t_bits : option N
}.

(** [n * sizeof(T)] as the code computes it. *)
Definition byte_count {T : Type} {L : Layout T} (n : nat) : N :=
  match size_t_bits with
  | Some b => ((N.of_nat n * N.pos sizeof) mod 2 ^ b)%N
  | None => (N.of_nat n * N.pos sizeof)%N
  end.

(** A product computed in [size_t]. *)
Definition size_t_wrap {T : Type} {L : Layout T} (n : nat) : nat :=
  match size_t_bits with
  | Some b => N.to_nat (N.of_nat n mod 2 ^ b)
  | None => n
  end.

(** The objects of [T] a block of [bytes] bytes has room for. *)
Definition slots {T : Type} {L : Layout T} (bytes : N) : nat :=
  N.to_nat (bytes / N.pos sizeof).

(** The byte count of [n] objects does not wrap. *)
Definition representable {T : Type} {L : Layout T} (n : nat) : Prop :=
  match size_t_bits with
  | Some b => (N.of_nat n * N.pos sizeof < 2 ^ b)%N
  | None => True
  end.

(** The layout of the properties in which every size is the size of a
    block a vector already has, or twice that: no byte count wraps. *)
Global Instance unbounded_layout (T : Type) : Layout T :=
  {| sizeof := 1; size_t_bits := None |}.

(** A 64-bit [size_t] and objects of [s] bytes. *)
Definition size_t_64 (s : positive) (T : Type) : Layout T :=
  {| sizeof := s; size_t_bits := Some 64%N |}.

(** ** RawMemory *)

Module RawMemory.
Section RawMemory.
Context {T : Type} `{Element T} {L : Layout T}.

(** [buffer_] is the block the pointer refers to, [[]] for [nullptr]. *)
Record t : Type := mk {
  buffer_ : buffer T;
  capacity_ : nat
}.

Definition buffer_l : lens t (buffer T) :=
  Lens buffer_ (fun b r => mk b (capacity_ r)).
Definition capacity_l : lens t nat :=
  Lens capacity_ (fun c r => mk (buffer_ r) c).

(** [n != 0 ? operator new(n * sizeof(T)) : nullptr]; [operator new]
    may throw, and the block it returns has the bytes asked for, which
    are fewer than [n] objects need when the product has wrapped. *)
Definition Allocate {S} (n : nat) : M S (buffer T) :=
  if negb (n =? 0)
  then throw_point;; ret (replicate (slots (byte_count n)) None)
  else ret [].

(** [RawMemory() = default] *)
Definition default : t := mk [] 0.

(** [explicit RawMemory(size_t capacity)] *)
Definition ctor {S} (capacity : nat) : M S t :=
  let* b := Allocate capacity in
  ret (mk b capacity).

(** [~RawMemory()]: the block is released, no object in it is
    touched. *)
Definition dtor : M t unit := ret tt.

(** [RawMemory(RawMemory&& other)] *)
Definition move_ctor {S} (other : lens S t) : M S t :=
  let* b := std_exchange (lens_comp other buffer_l) [] in
  let* c := std_exchange (lens_comp other capacity_l) 0 in
  ret (mk b c).

Definition Swap {S} (this other : lens S t) : M S unit :=
  std_swap (lens_comp this buffer_l) (lens_comp other buffer_l);;
  std_swap (lens_comp this capacity_l) (lens_comp other capacity_l).

Definition Capacity (r : t) : nat := capacity_ r.

(** [T& operator[](size_t index)]: the reference is the index, once
    the [assert] has passed. *)
Definition index {S} (this : lens S t) (i : nat) : M S nat :=
  let* s := get in
  assert (i <? capacity_ (view this s));;
  ret i.

(** The [RawMemory] objects of a program, by address; an address
    nothing was stored at holds a default-constructed object. *)
Definition obj (a : nat) : lens (gmap nat t) t :=
  Lens (fun s => from_option id default (s !! a)) (fun r s => <[a := r]> s).

(** [RawMemory& operator=(RawMemory&& rhs)] called on the object at
    [this] with the object at [rhs]. *)
Definition op_assign_move (this rhs : nat) : M (gmap nat t) unit :=
  if decide (this <> rhs)
  then
    let* s := get in
    zoom (lens_comp (obj this) buffer_l) (put (buffer_ (view (obj rhs) s)));;
    let* s := get in
    zoom (lens_comp (obj this) capacity_l) (put (capacity_ (view (obj rhs) s)));;
    zoom (lens_comp (obj rhs) buffer_l) (put []);;
    zoom (lens_comp (obj rhs) capacity_l) (put 0)
  else ret tt.
End RawMemory.
Arguments t : clear implicits.
End RawMemory.

(** ** Vector *)

Module Vector.
Section Vector.
Context {T : Type} `{Element T} {L : Layout T}.

Record t : Type := mk {
  data_ : RawMemory.t T;
  size_ : nat
}.

Definition data_l : lens t (RawMemory.t T) :=
  Lens data_ (fun d v => mk d (size_ v)).
Definition size_l : lens t nat :=
  Lens size_ (fun n v => mk (data_ v) n).
(** [data_.GetAddress()]: the block of [this]. *)
Definition block : lens t (buffer T) := lens_comp data_l RawMemory.buffer_l.

(** [Vector() = default] *)
Definition default : t := mk RawMemory.default 0.

Definition Size (v : t) : nat := size_ v.
Definition Capacity (v : t) : nat := RawMemory.Capacity (data_ v).

(** [explicit Vector(size_t size)] *)
Definition ctor {S} (size : nat) : M S t :=
  let* data := RawMemory.ctor size in
  construct (mk data size)
    (zoom block (uninitialized_value_construct_n 0 size)).

(** [Vector(const Vector& other)] *)
Definition copy_ctor {S} (other : t) : M S t :=
  let* data := RawMemory.ctor (size_ other) in
  construct (mk data (size_ other))
    (zoom block
       (uninitialized_copy_n (RawMemory.buffer_ (data_ other)) 0 (size_ other) 0)).

(** [Vector(Vector&& other)] *)
Definition move_ctor {S} (other : lens S t) : M S t :=
  let* d := RawMemory.move_ctor (lens_comp other data_l) in
  let* n := std_exchange (lens_comp other size_l) 0 in
  ret (mk d n).

(** [~Vector()] *)
Definition dtor : M t unit :=
  let* v := get in
  zoom block (destroy_n 0 (size_ v));;
  zoom data_l RawMemory.dtor.

(** The transfer of the first [n] objects of [this] to offset
    [d_first] of the local [new_data], by move when the move
    constructor cannot throw or [T] cannot be copied, by copy
    otherwise.  The state is [this] with the local. *)
Definition transfer (first n d_first : nat) : M (t * RawMemory.t T) unit :=
  if is_nothrow_move_constructible || negb is_copy_constructible
  then
    zoom (lens_pair (lens_comp lens_fst block)
                    (lens_comp lens_snd RawMemory.buffer_l))
         (uninitialized_move_n first n d_first)
  else
    let* s := get in
    zoom (lens_comp lens_snd RawMemory.buffer_l)
         (uninitialized_copy_n (view block (fst s)) first n d_first).

Definition Reserve (new_capacity : nat) : M t unit :=
  let* v := get in
  if new_capacity <=? Capacity v then ret tt
  else
    let* new_data := RawMemory.ctor new_capacity in
    with_local new_data RawMemory.dtor
      (transfer 0 (size_ v) 0;;
       zoom (lens_comp lens_fst block) (destroy_n 0 (size_ v));;
       RawMemory.Swap (lens_comp lens_fst data_l) lens_snd).

Definition Resize (new_size : nat) : M t unit :=
  let* v := get in
  (if new_size <? size_ v
   then zoom block (destroy_n new_size (size_ v - new_size))
   else
     (if Capacity v <? new_size
      then Reserve (Nat.max (size_t_wrap (Capacity v * 2)) new_size)
      else ret tt);;
     zoom block (uninitialized_value_construct_n (size_ v) (new_size - size_ v)));;
  zoom size_l (put new_size).

Definition Swap {S} (this other : lens S t) : M S unit :=
  RawMemory.Swap (lens_comp this data_l) (lens_comp other data_l);;
  std_swap (lens_comp this size_l) (lens_comp other size_l).

(** An iterator is its index from [begin()], so [pos >= begin()] holds
    of every position that can be written. *)
Definition Erase (pos : nat) : M t nat :=
  let* v := get in
  assert (pos <? size_ v);;
  let indx := pos in
  zoom block (std_move (indx + 1) (size_ v - (indx + 1)) indx);;
  zoom block (destroy_at (size_ v - 1));;
  zoom size_l (put (size_ v - 1));;
  ret indx.

Definition PopBack : M t unit :=
  let* v := get in
  assert (negb (size_ v =? 0));;
  zoom block (destroy_at (size_ v - 1));;
  zoom size_l (put (size_ v - 1)).

Definition PushBack (value : T) : M t unit :=
  let* v := get in
  (if Capacity v <=? size_ v
   then
     let* new_data := RawMemory.ctor (if size_ v =? 0 then 1 else size_t_wrap (size_ v * 2)) in
     with_local new_data RawMemory.dtor
       (zoom (lens_comp lens_snd RawMemory.buffer_l) (construct_at (size_ v) value);;
        transfer 0 (size_ v) 0;;
        zoom (lens_comp lens_fst block) (destroy_n 0 (size_ v));;
        RawMemory.Swap (lens_comp lens_fst data_l) lens_snd)
   else zoom block (construct_at (size_ v) value));;
  zoom size_l (put (size_ v + 1)).

(** The reference returned is the index of the slot it refers to. *)
Definition EmplaceBack (args : T) : M t nat :=
  let* v := get in
  (if Capacity v <=? size_ v
   then
     let* new_data := RawMemory.ctor (if size_ v =? 0 then 1 else size_t_wrap (size_ v * 2)) in
     with_local new_data RawMemory.dtor
       (zoom (lens_comp lens_snd RawMemory.buffer_l) (construct_at (size_ v) args);;
        transfer 0 (size_ v) 0;;
        zoom (lens_comp lens_fst block) (destroy_n 0 (size_ v));;
        RawMemory.Swap (lens_comp lens_fst data_l) lens_snd)
   else zoom block (construct_at (size_ v) args));;
  zoom size_l (put (size_ v + 1));;
  RawMemory.index data_l (size_ v).

(** [operator delete(data_.GetAddress() + offset)]: deleting a null
    pointer does nothing; the start of the block releases it although
    [data_] still points to it; any other address was never returned
    by [operator new]. *)
Definition operator_delete (offset : nat) : M t unit :=
  let* v := get in
  if offset =? 0
  then
    match RawMemory.buffer_ (data_ v) with
    | [] => ret tt
    | _ :: _ => fun s w => (Returns tt, s, mkWorld (sched w) (S (released_live w)))
    end
  else undefined.

Definition Emplace (pos : nat) (args : T) : M t nat :=
  let* v := get in
  assert (pos <=? size_ v);;
  let indx := pos in
  (if Capacity v <=? size_ v
   then
     let* new_data := RawMemory.ctor (if size_ v =? 0 then 1 else size_t_wrap (size_ v * 2)) in
     with_local new_data RawMemory.dtor
       (zoom (lens_comp lens_snd RawMemory.buffer_l) (construct_at indx args);;
        transfer 0 indx 0;;
        transfer indx (size_ v - indx) (indx + 1);;
        zoom (lens_comp lens_fst block) (destroy_n 0 (size_ v));;
        RawMemory.Swap (lens_comp lens_fst data_l) lens_snd)
   else
     try_catch
       (if negb (pos =? size_ v)
        then
          throw_point;;
          let new_s := args in
          let* last := RawMemory.index data_l (size_ v - 1) in
          zoom block (move_construct_within last (size_ v));;
          zoom block (std_move_backward indx (size_ v - 1 - indx) (size_ v));;
          zoom block (move_assign_from new_s indx)
        else zoom block (construct_at (size_ v) args))
       (operator_delete (size_ v);; throw));;
  zoom size_l (put (size_ v + 1));;
  ret indx.

(** [Insert(pos, const T&)] and [Insert(pos, T&&)] *)
Definition Insert (pos : nat) (item : T) : M t nat := Emplace pos item.

(** [T& operator[](size_t index)], read: the value of the element. *)
Definition at_index (i : nat) : M t T :=
  let* v := get in
  assert (i <? size_ v);;
  let* r := RawMemory.index data_l i in
  zoom block (load r).

(** *** Objects at addresses

    The operations on two vectors are written over a store of vector
    objects, so that both arguments can be the same object; an address
    nothing was stored at holds a default-constructed vector. *)
Definition obj (a : nat) : lens (gmap nat t) t :=
  Lens (fun s => from_option id default (s !! a)) (fun v s => <[a := v]> s).

(** [Vector& operator=(const Vector& other)] called on the object at
    [this] with the object at [other]. *)
Definition op_assign (this other : nat) : M (gmap nat t) unit :=
  if decide (this <> other)
  then
    let* s := get in
    let o := view (obj other) s in
    let v := view (obj this) s in
    if size_ o <=? Capacity v
    then
      (if size_ v <=? size_ o
       then
         zoom (lens_comp (obj this) block)
              (std_copy (view block o) 0 (size_ v) 0);;
         zoom (lens_comp (obj this) block)
              (uninitialized_copy_n (view block o) (size_ v) (size_ o - size_ v) (size_ v))
       else
         zoom (lens_comp (obj this) block)
              (std_copy (view block o) 0 (size_ o) 0);;
         zoom (lens_comp (obj this) block)
              (destroy_n (size_ o) (size_ v - size_ o)));;
      zoom (lens_comp (obj this) size_l) (put (size_ o))
    else
      let* other_copy := copy_ctor o in
      with_local other_copy dtor
        (Swap (lens_comp lens_fst (obj this)) lens_snd)
  else ret tt.

(** [Vector& operator=(Vector&& other)] *)
Definition op_assign_move (this other : nat) : M (gmap nat t) unit :=
  Swap (obj this) (obj other).

(** *** What can be observed of a vector, and its invariant *)

(** The values of the live range [0, size_), in order. *)
Definition elements (v : t) : list T :=
  omap id (take (size_ v) (RawMemory.buffer_ (data_ v))).

(** The block has [capacity_] slots, [size_ <= capacity_], the slots
    [0, size_) hold live objects and the slots [size_, capacity_) are
    raw memory. *)
Record wf (v : t) : Prop := {
  wf_block : length (RawMemory.buffer_ (data_ v)) = RawMemory.capacity_ (data_ v);
  wf_size : size_ v <= RawMemory.capacity_ (data_ v);
  wf_live : Forall is_Some (take (size_ v) (RawMemory.buffer_ (data_ v)));
  wf_raw : Forall (fun s => s = None) (drop (size_ v) (RawMemory.buffer_ (data_ v)))
}.

(** The vector holding the values [l] with [k] spare slots. *)
Definition of_list (l : list T) (k : nat) : t :=
  mk (RawMemory.mk ((Some <$> l) ++ replicate k None) (length l + k)) (length l).
End Vector.
Arguments t : clear implicits.
Abbreviation store T := (gmap nat (t T)).
End Vector.

(** ** Client programs *)

Section Programs.
Context {T : Type} `{Element T} {L : Layout T}.

(** [for (x : xs) v.PushBack(x);] *)
Fixpoint push_all (xs : list T) : M (Vector.t T) unit :=
  match xs with
  | [] => ret tt
  | x :: xs' => Vector.PushBack x;; push_all xs'
  end.

(** One call of the public interface on the vector objects of a
    program; [a] and [b] are the addresses of the objects. *)
Inductive call : Type :=
| PushBack (a : nat) (x : T)
| EmplaceBack (a : nat) (x : T)
| Insert (a pos : nat) (x : T)
| Emplace (a pos : nat) (x : T)
| Erase (a pos : nat)
| PopBack (a : nat)
| Reserve (a n : nat)
| Resize (a n : nat)
| CopyConstruct (a b : nat)
| MoveConstruct (a b : nat)
| CopyAssign (a b : nat)
| MoveAssign (a b : nat)
| Swap (a b : nat).

Definition exec (c : call) : M (Vector.store T) unit :=
  match c with
  | PushBack a x => zoom (Vector.obj a) (Vector.PushBack x)
  | EmplaceBack a x => let* _ := zoom (Vector.obj a) (Vector.EmplaceBack x) in ret tt
  | Insert a pos x => let* _ := zoom (Vector.obj a) (Vector.Insert pos x) in ret tt
  | Emplace a pos x => let* _ := zoom (Vector.obj a) (Vector.Emplace pos x) in ret tt
  | Erase a pos => let* _ := zoom (Vector.obj a) (Vector.Erase pos) in ret tt
  | PopBack a => zoom (Vector.obj a) Vector.PopBack
  | Reserve a n => zoom (Vector.obj a) (Vector.Reserve n)
  | Resize a n => zoom (Vector.obj a) (Vector.Resize n)
  | CopyConstruct a b =>
      let* s := get in
      let* v := Vector.copy_ctor (view (Vector.obj b) s) in
      zoom (Vector.obj a) (put v)
  | MoveConstruct a b =>
      let* v := Vector.move_ctor (Vector.obj b) in
      zoom (Vector.obj a) (put v)
  | CopyAssign a b => Vector.op_assign a b
  | MoveAssign a b => Vector.op_assign_move a b
  | Swap a b => Vector.Swap (Vector.obj a) (Vector.obj b)
  end.

Fixpoint run (cs : list call) : M (Vector.store T) unit :=
  match cs with
  | [] => ret tt
  | c :: cs' => exec c;; run cs'
  end.

(** The sequence of values each object is expected to hold. *)
Definition contents : Type := nat -> list T.

Definition set_contents (a : nat) (l : list T) (m : contents) : contents :=
  fun x => if decide (x = a) then l else m x.

(** The expected effect of a call on sequences; [None] when the call
    breaks its precondition. *)
Definition expect (c : call) (m : contents) : option contents :=
  match c with
  | PushBack a x | EmplaceBack a x => Some (set_contents a (m a ++ [x]) m)
  | Insert a pos x | Emplace a pos x =>
      if pos <=? length (m a)
      then Some (set_contents a (take pos (m a) ++ x :: drop pos (m a)) m)
      else None
  | Erase a pos =>
      if pos <? length (m a)
      then Some (set_contents a (take pos (m a) ++ drop (S pos) (m a)) m)
      else None
  | PopBack a =>
      if length (m a) =? 0 then None
      else Some (set_contents a (take (length (m a) - 1) (m a)) m)
  | Reserve a n => Some m
  | Resize a n =>
      Some (set_contents a
              (take n (m a) ++ replicate (n - length (m a)) value_initialized) m)
  | CopyConstruct a b | CopyAssign a b => Some (set_contents a (m b) m)
  | MoveConstruct a b => Some (set_contents a (m b) (set_contents b [] m))
  | MoveAssign a b | Swap a b => Some (set_contents b (m a) (set_contents a (m b) m))
  end.

Fixpoint expect_all (cs : list call) (m : contents) : option contents :=
  match cs with
  | [] => Some m
  | c :: cs' =>
      match expect c m with
      | Some m' => expect_all cs' m'
      | None => None
      end
  end.

(** The calls that work on the block of the object they are made on:
    they neither construct an object nor exchange two. *)
Definition keeps_block (c : call) : bool :=
  match c with
  | CopyConstruct _ _ | MoveConstruct _ _ | MoveAssign _ _ | Swap _ _ => false
  | _ => true
  end.
End Programs.
Arguments call : clear implicits.
Arguments contents : clear implicits.

(** The run in which no operation of [T] and no allocation throws. *)
Definition quiet (w : World) : Prop := sched w = [].

(** The world of such a run, and the world whose [n]-th coming throw
    point (from 0) throws. *)
Definition calm : World := mkWorld [] 0.
Definition throwing_at (n : nat) : World := mkWorld (replicate n false ++ [true]) 0.

(** The objects of the store [s] are well formed and hold the sequences
    [m]. *)
Definition represents {T : Type} (s : Vector.store T) (m : contents T) : Prop :=
  forall a,
    Vector.wf (view (Vector.obj a) s)
    /\ Vector.elements (view (Vector.obj a) s) = m a.

(** No exception leaves [m], whatever the state and the schedule. *)
Definition never_throws {S A} (m : M S A) : Prop :=
  forall s w s' w', m s w <> (Throws, s', w').

(** [m] never returns normally. *)
Definition never_returns {S A} (m : M S A) : Prop :=
  forall s w a s' w', m s w <> (Returns a, s', w').

(** The world [w] once every pending answer of its schedule is dropped. *)
Definition hush (w : World) : World := mkWorld [] (released_live w).

(** A run of [m] that returns has met no throw: it is the run of [m] in
    the quiet world. *)
Definition steady {S A} (m : M S A) : Prop :=
  forall s w a s' w',
    m s w = (Returns a, s', w') -> m s (hush w) = (Returns a, s', hush w').

(** ** Two element types

    [int]-like values whose copy and move constructors may throw, and a
    move-only type whose move constructor may throw and leaves [0]
    behind. *)
Definition throwing_copyable : Element nat :=
  {| is_nothrow_move_constructible := false;
     is_copy_constructible := true;
     moved_from := fun x => x;
     value_initialized := 0 |}.

Definition throwing_move_only : Element nat :=
  {| is_nothrow_move_constructible := false;
     is_copy_constructible := false;
     moved_from := fun _ => 0;
     value_initialized := 0 |}.

(** [2^62 + 1] objects: with objects of 4 bytes and a 64-bit [size_t]
    their byte count wraps to 4. *)
Definition wrapping_count : nat := N.to_nat 4611686018427387905.

(** ** The slots that hold an object

    Which slots of a block hold a live object, whatever its value: what
    an assignment that throws half-way leaves as it was. *)
Definition live_slots {T : Type} (b : buffer T) : list bool :=
  (fun o => match o with Some _ => true | None => false end) <$> b.

(** [b'] has its live objects in the slots where [b] has them, and its
    slots before [d] are those of [b]. *)
Definition same_live_from {T : Type} (d : nat) (b b' : buffer T) : Prop :=
  live_slots b' = live_slots b /\ take d b' = take d b.

(** Whatever the outcome of [m], the state it leaves is related by [R]
    to the state it started from. *)
Definition keeps {S A} (R : S -> S -> Prop) (m : M S A) : Prop :=
  forall s w r s' w', m s w = (r, s', w') -> R s s'.

(** The outcomes the language defines for a call within its
    precondition: a normal return or an exception. *)
Definition defined {A} (r : outcome A) : Prop :=
  match r with
  | Returns _ | Throws => True
  | AssertFails | Undefined => False
  end.

(** * Properties *)

Local Open Scope vec_scope.

Section Monad_facts.
Context {S : Type}.

Lemma throw_point_quiet (s : S) (w : World) :
  quiet w -> throw_point s w = (Returns tt, s, w).
Proof. unfold quiet, throw_point. by intros ->. Qed.

Lemma bind_returns {A B} (m : M S A) (k : A -> M S B) s w a s' w' :
  m s w = (Returns a, s', w') -> bind m k s w = k a s' w'.
Proof. unfold bind. by intros ->. Qed.

Lemma bind_returns_at {A B} (m : M S A) (k : A -> M S B) s s0 w a s' w' :
  m s0 w = (Returns a, s', w') -> s = s0 -> bind m k s w = k a s' w'.
Proof. intros Hm ->. by apply bind_returns. Qed.

Lemma try_catch_returns {A} (m h : M S A) s w a s' w' :
  m s w = (Returns a, s', w') -> try_catch m h s w = (Returns a, s', w').
Proof. unfold try_catch. by intros ->. Qed.

Lemma zoom_run {V A} (l : lens S V) (m : M V A) s w r v' w' :
  m (view l s) w = (r, v', w') -> zoom l m s w = (r, update l v' s, w').
Proof. unfold zoom. by intros ->. Qed.

Lemma zoom_at {V A} (l : lens S V) (m : M V A) s v0 w r v' w' :
  m v0 w = (r, v', w') -> view l s = v0 ->
  zoom l m s w = (r, update l v' s, w').
Proof. intros Hm <-. by apply zoom_run. Qed.

Lemma bind_zoom_at {V A B} (l : lens S V) (m : M V A) (k : A -> M S B)
    s v0 w a v' w' :
  m v0 w = (Returns a, v', w') -> view l s = v0 ->
  bind (zoom l m) k s w = k a (update l v' s) w'.
Proof. intros Hm Hv. apply bind_returns. by apply (zoom_at _ _ _ v0). Qed.

Lemma put_run (s s' : S) w : put s' s w = (Returns tt, s', w).
Proof. done. Qed.

Lemma bind_bind {A B C} (m : M S A) (k1 : A -> M S B) (k2 : B -> M S C) s w :
  bind (bind m k1) k2 s w = bind m (fun a => bind (k1 a) k2) s w.
Proof. unfold bind. by destruct (m s w) as [[[a| | |] s'] w']. Qed.

Lemma bind_get {B} (k : S -> M S B) s w : bind get k s w = k s s w.
Proof. done. Qed.

Lemma with_local_returns {L A} (init : L) (dtor : M L unit)
    (m : M (S * L) A) s w a s' l l' w' w'' :
  m (s, init) w = (Returns a, (s', l), w') ->
  dtor l w' = (Returns tt, l', w'') ->
  with_local init dtor m s w = (Returns a, s', w'').
Proof. unfold with_local. by intros -> ->. Qed.

Lemma bind_assert {B} (b : bool) (k : unit -> M S B) s w :
  b = true -> bind (assert b) k s w = k tt s w.
Proof. by intros ->. Qed.
End Monad_facts.

(** [step L] runs the first computation of a sequence by the equation
    [L]; [len] settles the side conditions on lengths. *)
Ltac step L := rewrite (bind_returns _ _ _ _ _ _ _ L).
Ltac step_at L := rewrite (bind_returns_at _ _ _ _ _ _ _ _ L).
Ltac zstep L := rewrite (bind_zoom_at _ _ _ _ _ _ _ _ _ L).
Ltac zlast L := rewrite (zoom_at _ _ _ _ _ _ _ _ L).
Ltac lens_simpl :=
  cbn [view update lens_comp lens_pair lens_fst lens_snd fst snd
       Vector.block Vector.data_l Vector.size_l Vector.data_ Vector.size_
       RawMemory.buffer_l RawMemory.capacity_l
       RawMemory.buffer_ RawMemory.capacity_].
Ltac len :=
  repeat (rewrite ?length_app, ?length_fmap, ?length_replicate,
            ?length_insert, ?length_take, ?length_drop in *; simpl in *);
  repeat match goal with
         | |- context [Nat.min ?a ?b] =>
             destruct (Nat.min_spec a b) as [[? ->]|[? ->]]
         end;
  lia.

Section Slot_facts.
Context {T : Type} `{Element T}.
Implicit Types (b pre post old : buffer T) (l : list T) (w : World).

Lemma load_middle i pre post x w :
  i = length pre ->
  load i (pre ++ Some x :: post) w = (Returns x, pre ++ Some x :: post, w).
Proof.
  intros ->. unfold load, bind, get, ret.
  by rewrite list_lookup_middle.
Qed.

Lemma store_middle i pre post (o o' : option T) w :
  i = length pre ->
  store i o' (pre ++ o :: post) w = (Returns tt, pre ++ o' :: post, w).
Proof.
  intros ->. unfold store, bind, get, put.
  rewrite decide_True by len.
  by rewrite insert_app_r_alt, Nat.sub_diag by lia.
Qed.

Lemma destroy_at_middle i pre post x w :
  i = length pre ->
  destroy_at i (pre ++ Some x :: post) w = (Returns tt, pre ++ None :: post, w).
Proof.
  intros Hi. unfold destroy_at.
  step (load_middle i pre post x w Hi).
  by apply store_middle.
Qed.

Lemma destroy_n_live i n l pre post w :
  n = length l -> i = length pre ->
  destroy_n i n (pre ++ (Some <$> l) ++ post) w
  = (Returns tt, pre ++ replicate n None ++ post, w).
Proof.
  intros ->. revert i pre. induction l as [|x l IH]; intros i pre Hi; simpl; [done|].
  step (destroy_at_middle i pre ((Some <$> l) ++ post) x w Hi).
  specialize (IH (S i) (pre ++ [None])).
  rewrite <- !app_assoc in IH. apply IH. len.
Qed.

Lemma construct_at_middle i x pre post (o : option T) w :
  i = length pre -> quiet w ->
  construct_at i x (pre ++ o :: post) w = (Returns tt, pre ++ Some x :: post, w).
Proof.
  intros -> Hw. unfold construct_at, bind, get, put.
  rewrite decide_True by len.
  rewrite throw_point_quiet by done.
  by rewrite insert_app_r_alt, Nat.sub_diag by lia.
Qed.

Lemma copy_construct_middle j i x spre spost pre post (o : option T) w :
  j = length spre -> i = length pre -> quiet w ->
  copy_construct (spre ++ Some x :: spost) j i (pre ++ o :: post) w
  = (Returns tt, pre ++ Some x :: post, w).
Proof.
  intros -> Hi Hw. unfold copy_construct.
  rewrite list_lookup_middle by done.
  by apply construct_at_middle.
Qed.

Lemma copy_assign_middle j i x y spre spost pre post w :
  j = length spre -> i = length pre -> quiet w ->
  copy_assign (spre ++ Some x :: spost) j i (pre ++ Some y :: post) w
  = (Returns tt, pre ++ Some x :: post, w).
Proof.
  intros -> Hi Hw. unfold copy_assign.
  rewrite list_lookup_middle by done.
  step (load_middle i pre post y w Hi).
  step (throw_point_quiet (pre ++ Some y :: post) w Hw).
  by apply store_middle.
Qed.

Lemma move_assign_from_middle i x y pre post w :
  i = length pre -> quiet w ->
  move_assign_from x i (pre ++ Some y :: post) w
  = (Returns tt, pre ++ Some x :: post, w).
Proof.
  intros Hi Hw. unfold move_assign_from.
  step (load_middle i pre post y w Hi).
  step (throw_point_quiet (pre ++ Some y :: post) w Hw).
  by apply store_middle.
Qed.
(** Moving the object of slot [|pre| + 1] onto slot [|pre|] and the
    other way round. *)
Lemma move_assign_down j i x y pre post w :
  i = length pre -> j = S (length pre) -> quiet w ->
  move_assign j i (pre ++ Some y :: Some x :: post) w
  = (Returns tt, pre ++ Some x :: Some (moved_from x) :: post, w).
Proof.
  intros Hi Hj Hw. unfold move_assign.
  assert (Hj' : j = length (pre ++ [Some y])) by len.
  rewrite (cons_middle (Some y)), app_assoc.
  step (load_middle j _ post x w Hj').
  rewrite <- app_assoc. simpl.
  step (load_middle i pre (Some x :: post) y w Hi).
  step (throw_point_quiet (pre ++ Some y :: Some x :: post) w Hw).
  step (store_middle i pre (Some x :: post) (Some y) (Some x) w Hi).
  assert (Hj'' : j = length (pre ++ [Some x])) by len.
  rewrite (cons_middle (Some x)), app_assoc.
  rewrite (store_middle j _ post (Some x) (Some (moved_from x)) w Hj'').
  by rewrite <- app_assoc.
Qed.

Lemma move_assign_up j i x y pre post w :
  j = length pre -> i = S (length pre) -> quiet w ->
  move_assign j i (pre ++ Some x :: Some y :: post) w
  = (Returns tt, pre ++ Some (moved_from x) :: Some x :: post, w).
Proof.
  intros Hj Hi Hw. unfold move_assign.
  step (load_middle j pre (Some y :: post) x w Hj).
  assert (Hi' : i = length (pre ++ [Some x])) by len.
  rewrite (cons_middle (Some x)), app_assoc.
  step (load_middle i _ post y w Hi').
  step (throw_point_quiet ((pre ++ [Some x]) ++ Some y :: post) w Hw).
  step (store_middle i _ post (Some y) (Some x) w Hi').
  rewrite <- app_assoc. simpl.
  by rewrite (store_middle j pre (Some x :: post) (Some x) (Some (moved_from x)) w Hj).
Qed.

Lemma move_construct_within_up j i x (o : option T) pre post w :
  j = length pre -> i = S (length pre) -> quiet w ->
  move_construct_within j i (pre ++ Some x :: o :: post) w
  = (Returns tt, pre ++ Some (moved_from x) :: Some x :: post, w).
Proof.
  intros Hj Hi Hw. unfold move_construct_within.
  step (load_middle j pre (o :: post) x w Hj).
  unfold bind at 1, get. rewrite decide_True by len.
  assert ((if is_nothrow_move_constructible then ret tt else throw_point)
            (pre ++ Some x :: o :: post) w
          = (Returns tt, pre ++ Some x :: o :: post, w)) as Hthrow.
  { destruct is_nothrow_move_constructible; [done|by apply throw_point_quiet]. }
  step Hthrow.
  assert (Hi' : i = length (pre ++ [Some x])) by len.
  rewrite (cons_middle (Some x)), app_assoc.
  step (store_middle i _ post o (Some x) w Hi').
  rewrite <- app_assoc. simpl.
  by rewrite (store_middle j pre (Some x :: post) (Some x) (Some (moved_from x)) w Hj).
Qed.

(** Move construction between two blocks: with a [noexcept] move
    constructor the schedule is not consulted. *)
Lemma move_construct_middle j i x (o : option T) spre spost pre post w :
  j = length spre -> i = length pre ->
  is_nothrow_move_constructible = true \/ quiet w ->
  move_construct j i (spre ++ Some x :: spost, pre ++ o :: post) w
  = (Returns tt, (spre ++ Some (moved_from x) :: spost, pre ++ Some x :: post), w).
Proof.
  intros Hj Hi Hw. unfold move_construct.
  step (zoom_run lens_fst _ (spre ++ Some x :: spost, pre ++ o :: post) _ _ _ _
          (load_middle j spre spost x w Hj)).
  simpl. unfold bind at 1, zoom at 1, get. simpl.
  rewrite decide_True by len.
  assert ((if is_nothrow_move_constructible then ret tt else throw_point)
            (spre ++ Some x :: spost, pre ++ o :: post) w
          = (Returns tt, (spre ++ Some x :: spost, pre ++ o :: post), w)) as Hthrow.
  { destruct Hw as [->|Hw]; [done|].
    destruct is_nothrow_move_constructible; [done|by apply throw_point_quiet]. }
  step Hthrow.
  step (zoom_run lens_snd _ (spre ++ Some x :: spost, pre ++ o :: post) _ _ _ _
          (store_middle i pre post o (Some x) w Hi)).
  simpl.
  by rewrite (zoom_run lens_fst _ (spre ++ Some x :: spost, pre ++ Some x :: post) _ _ _ _
          (store_middle j spre spost (Some x) (Some (moved_from x)) w Hj)).
Qed.

(** *** The algorithms, when nothing throws *)

Lemma uninitialized_copy_n_quiet l j n i spre spost pre old post w :
  n = length l ->
  j = length spre -> i = length pre -> length old = length l -> quiet w ->
  uninitialized_copy_n (spre ++ (Some <$> l) ++ spost) j n i
    (pre ++ old ++ post) w
  = (Returns tt, pre ++ (Some <$> l) ++ post, w).
Proof.
  intros ->. revert j i spre pre old.
  induction l as [|x l IH]; intros j i spre pre old Hj Hi Hold Hw.
  - destruct old; [done|discriminate].
  - destruct old as [|o old]; [discriminate|]. simpl.
    step (copy_construct_middle j i x spre ((Some <$> l) ++ spost) pre (old ++ post) o w Hj Hi Hw).
    apply try_catch_returns.
    specialize (IH (S j) (S i) (spre ++ [Some x]) (pre ++ [Some x]) old).
    rewrite <- !app_assoc in IH. apply IH; [len|len|by injection Hold|done].
Qed.

Lemma uninitialized_move_n_run l j n i spre spost pre old post w :
  n = length l ->
  j = length spre -> i = length pre -> length old = length l ->
  is_nothrow_move_constructible = true \/ quiet w ->
  uninitialized_move_n j n i
    (spre ++ (Some <$> l) ++ spost, pre ++ old ++ post) w
  = (Returns tt,
     (spre ++ (Some <$> (moved_from <$> l)) ++ spost, pre ++ (Some <$> l) ++ post), w).
Proof.
  intros ->. revert j i spre pre old.
  induction l as [|x l IH]; intros j i spre pre old Hj Hi Hold Hw.
  - destruct old; [done|discriminate].
  - destruct old as [|o old]; [discriminate|]. simpl.
    step (move_construct_middle j i x o spre ((Some <$> l) ++ spost) pre (old ++ post) w Hj Hi Hw).
    apply try_catch_returns.
    specialize (IH (S j) (S i) (spre ++ [Some (moved_from x)]) (pre ++ [Some x]) old).
    rewrite <- !app_assoc in IH. apply IH; [len|len|by injection Hold|done].
Qed.

Lemma uninitialized_value_construct_n_quiet n i pre old post w :
  i = length pre -> length old = n -> quiet w ->
  uninitialized_value_construct_n i n (pre ++ old ++ post) w
  = (Returns tt, pre ++ replicate n (Some value_initialized) ++ post, w).
Proof.
  revert i pre old.
  induction n as [|n IH]; intros i pre old Hi Hold Hw.
  - destruct old; [done|discriminate].
  - destruct old as [|o old]; [discriminate|]. simpl.
    step (construct_at_middle i value_initialized pre (old ++ post) o w Hi Hw).
    apply try_catch_returns.
    specialize (IH (S i) (pre ++ [Some value_initialized]) old).
    rewrite <- !app_assoc in IH. apply IH; [len|by injection Hold|done].
Qed.

Lemma std_copy_quiet l j n i spre spost pre (old : list T) post w :
  n = length l ->
  j = length spre -> i = length pre -> length old = length l -> quiet w ->
  std_copy (spre ++ (Some <$> l) ++ spost) j n i
    (pre ++ (Some <$> old) ++ post) w
  = (Returns tt, pre ++ (Some <$> l) ++ post, w).
Proof.
  intros ->. revert j i spre pre old.
  induction l as [|x l IH]; intros j i spre pre old Hj Hi Hold Hw.
  - destruct old; [done|discriminate].
  - destruct old as [|y old]; [discriminate|]. simpl.
    step (copy_assign_middle j i x y spre ((Some <$> l) ++ spost) pre ((Some <$> old) ++ post) w Hj Hi Hw).
    specialize (IH (S j) (S i) (spre ++ [Some x]) (pre ++ [Some x]) old).
    rewrite <- !app_assoc in IH. apply IH; [len|len|by injection Hold|done].
Qed.

(** [std::move] to the left by one slot: the objects of [l] end one
    slot lower and the last slot of the range keeps a live, moved-from
    (or, for an empty range, untouched) object. *)
Lemma std_move_quiet l j n i x pre post w :
  n = length l ->
  i = length pre -> j = S (length pre) -> quiet w ->
  exists z,
    std_move j n i (pre ++ Some x :: (Some <$> l) ++ post) w
    = (Returns tt, pre ++ (Some <$> l) ++ Some z :: post, w).
Proof.
  intros ->. revert j i x pre.
  induction l as [|y l IH]; intros j i x pre Hi Hj Hw.
  - by exists x.
  - simpl.
    destruct (IH (S j) (S i) (moved_from y) (pre ++ [Some y])) as [z Hz]; [len|len|done|].
    exists z.
    step (move_assign_down j i y x pre ((Some <$> l) ++ post) w Hi Hj Hw).
    rewrite <- !app_assoc in Hz. exact Hz.
Qed.

(** [std::move_backward] to the right by one slot. *)
Lemma std_move_backward_quiet l j n i x pre post w :
  n = length l ->
  j = length pre -> i = length pre + length l + 1 -> quiet w ->
  exists z,
    std_move_backward j n i (pre ++ (Some <$> l) ++ Some x :: post) w
    = (Returns tt, pre ++ Some z :: (Some <$> l) ++ post, w).
Proof.
  intros ->. revert i x post.
  induction l as [|y l IH] using rev_ind; intros i x post Hj Hi Hw.
  - by exists x.
  - rewrite length_app in *. simpl in *. rewrite Nat.add_1_r in *. simpl.
    destruct (IH (i - 1) (moved_from y) (Some y :: post)) as [z Hz]; [done|lia|done|].
    exists z.
    rewrite fmap_app. simpl. rewrite <- !app_assoc. simpl.
    rewrite (app_assoc pre (Some <$> l)).
    step (move_assign_up (j + length l) (i - 1) y x (pre ++ (Some <$> l)) post w
            ltac:(len) ltac:(len) Hw).
    rewrite <- !app_assoc. by rewrite Hz.
Qed.
End Slot_facts.

Section Vector_facts.
Context {T : Type} `{Element T}.
Implicit Types (v : Vector.t T) (l : list T) (w : World).

Lemma omap_id_fmap_Some l : omap id (Some <$> l) = l.
Proof. induction l as [|x l IH]; simpl; [done|]. f_equal. apply IH. Qed.

Lemma elements_of_list l k : Vector.elements (Vector.of_list l k) = l.
Proof.
  unfold Vector.elements, Vector.of_list. simpl.
  rewrite take_app_length' by len. apply omap_id_fmap_Some.
Qed.

Lemma wf_of_list l k : Vector.wf (Vector.of_list l k).
Proof.
  split; simpl.
  - len.
  - lia.
  - rewrite take_app_length' by len.
    apply Forall_fmap, Forall_forall. intros x _. by exists x.
  - rewrite drop_app_length' by len.
    apply Forall_forall. by intros x [-> _]%elem_of_replicate.
Qed.

Lemma Forall_is_Some_fmap (b : buffer T) :
  Forall is_Some b -> b = Some <$> omap id b.
Proof.
  induction 1 as [|o b [x ->] _ IH]; simpl; [done|]. f_equal. apply IH.
Qed.

Lemma Forall_None_replicate (b : buffer T) :
  Forall (fun s => s = None) b -> b = replicate (length b) None.
Proof. induction 1 as [|o b -> _ IH]; simpl; [done|]. f_equal. apply IH. Qed.

(** A well-formed vector is its live values followed by raw slots. *)
Lemma wf_canonical v :
  Vector.wf v ->
  v = Vector.of_list (Vector.elements v) (Vector.Capacity v - Vector.Size v)
  /\ length (Vector.elements v) = Vector.Size v.
Proof.
  intros [Hb Hs Hl Hr]. destruct v as [[b c] n]. simpl in *.
  unfold Vector.elements, Vector.of_list, Vector.Capacity, Vector.Size. simpl.
  assert (length (omap id (take n b)) = n) as Hlen.
  { rewrite <- (length_fmap Some), <- Forall_is_Some_fmap by done.
    rewrite length_take. lia. }
  split; [|done]. rewrite Hlen.
  rewrite <- Forall_is_Some_fmap by done.
  replace (replicate (c - n) None) with (drop n b).
  - rewrite take_drop. do 2 f_equal. lia.
  - rewrite (Forall_None_replicate _ Hr). f_equal. rewrite length_drop. lia.
Qed.

Lemma vector_eq (b b' : buffer T) c c' n n' :
  b = b' -> c = c' -> n = n' ->
  Vector.mk (RawMemory.mk b c) n = Vector.mk (RawMemory.mk b' c') n'.
Proof. by intros -> -> ->. Qed.

Lemma RawMemory_index_run {St} (this : lens St (RawMemory.t T)) i (s : St) w :
  i < RawMemory.capacity_ (view this s) ->
  RawMemory.index this i s w = (Returns i, s, w).
Proof.
  intros Hi. unfold RawMemory.index. rewrite bind_get.
  by rewrite bind_assert by (by apply Nat.ltb_lt).
Qed.

Lemma returns_eq {A} (a a' : A) (b b' : buffer T) c c' n n' w :
  a = a' -> b = b' -> c = c' -> n = n' ->
  (Returns a, Vector.mk (RawMemory.mk b c) n, w)
  = (Returns a', Vector.mk (RawMemory.mk b' c') n', w).
Proof. by intros -> -> -> ->. Qed.

Lemma of_list_snoc l x k :
  Vector.of_list (l ++ [x]) k
  = Vector.mk (RawMemory.mk ((Some <$> l) ++ Some x :: replicate k None)
                 (length l + 1 + k)) (length l + 1).
Proof.
  unfold Vector.of_list. rewrite fmap_app, <- app_assoc, length_app. done.
Qed.

Lemma PopBack_of_list l x k w :
  Vector.PopBack (Vector.of_list (l ++ [x]) k) w
  = (Returns tt, Vector.of_list l (S k), w).
Proof.
  rewrite of_list_snoc. unfold Vector.PopBack.
  rewrite bind_get. lens_simpl.
  rewrite bind_assert by (apply negb_true_iff, Nat.eqb_neq; lia).
  zstep (destroy_at_middle (length l + 1 - 1) (Some <$> l) (replicate k None) x w
           ltac:(len)); [|done].
  zlast (put_run (length l + 1) (length l + 1 - 1) w); [|done].
  lens_simpl. by apply returns_eq; [| |lia..].
Qed.
Lemma Erase_of_list l1 x l2 k w :
  quiet w ->
  Vector.Erase (length l1) (Vector.of_list (l1 ++ x :: l2) k) w
  = (Returns (length l1), Vector.of_list (l1 ++ l2) (S k), w).
Proof.
  intros Hw. unfold Vector.Erase, Vector.of_list.
  rewrite bind_get. lens_simpl.
  rewrite bind_assert by (apply Nat.ltb_lt; len).
  rewrite fmap_app, fmap_cons, <- app_assoc, <- app_comm_cons.
  destruct (std_move_quiet l2 (length l1 + 1) (length (l1 ++ x :: l2) - (length l1 + 1))
              (length l1) x (Some <$> l1) (replicate k None) w) as [z Hz];
    [len|len|len|done|].
  zstep Hz; [|done].
  lens_simpl.
  zstep (destroy_at_middle (length (l1 ++ x :: l2) - 1)
           ((Some <$> l1) ++ (Some <$> l2)) (replicate k None) z w ltac:(len));
    [|by rewrite <- app_assoc].
  lens_simpl.
  zstep (put_run (length (l1 ++ x :: l2)) (length (l1 ++ x :: l2) - 1) w); [|done].
  lens_simpl. unfold ret. apply returns_eq; [done| |len|len].
  by rewrite fmap_app, <- !app_assoc.
Qed.

Lemma slots_unbounded n :
  slots (L := unbounded_layout T) (byte_count (L := unbounded_layout T) n) = n.
Proof.
  unfold slots, byte_count. cbn [sizeof size_t_bits unbounded_layout].
  by rewrite N.mul_1_r, N.div_1_r, Nat2N.id.
Qed.

Lemma RawMemory_ctor_quiet {St} n (s : St) w :
  quiet w ->
  RawMemory.ctor (T := T) n s w
  = (Returns (RawMemory.mk (replicate n None) n), s, w).
Proof.
  intros Hw. unfold RawMemory.ctor, RawMemory.Allocate.
  rewrite slots_unbounded.
  destruct n as [|n]; [done|]. simpl negb. cbv iota.
  unfold bind. by rewrite throw_point_quiet.
Qed.

Lemma with_local_raw {St A} nd (m : M (St * RawMemory.t T) A) s w :
  with_local nd RawMemory.dtor m s w
  = ((m (s, nd) w).1.1, (m (s, nd) w).1.2.1, (m (s, nd) w).2).
Proof.
  unfold with_local.
  by destruct (m (s, nd) w) as [[[a| | |] [s' l]] w'].
Qed.

Lemma transfer_quiet l j n i spre spost pre old post c n0 c' w :
  n = length l -> j = length spre -> i = length pre ->
  length old = length l -> quiet w ->
  exists l',
    length l' = length l /\
    Vector.transfer j n i
      (Vector.mk (RawMemory.mk (spre ++ (Some <$> l) ++ spost) c) n0,
       RawMemory.mk (pre ++ old ++ post) c') w
    = (Returns tt,
       (Vector.mk (RawMemory.mk (spre ++ (Some <$> l') ++ spost) c) n0,
        RawMemory.mk (pre ++ (Some <$> l) ++ post) c'), w).
Proof.
  intros Hn Hj Hi Hold Hw. unfold Vector.transfer.
  destruct (is_nothrow_move_constructible || negb is_copy_constructible).
  - exists (moved_from <$> l). split; [len|].
    by zlast (uninitialized_move_n_run l j n i spre spost pre old post w
             Hn Hj Hi Hold (or_intror Hw)).
  - exists l. split; [done|].
    rewrite bind_get. lens_simpl.
    by zlast (uninitialized_copy_n_quiet l j n i spre spost pre old post w
             Hn Hj Hi Hold Hw).
Qed.

Lemma RawMemory_Swap_local (d nd : RawMemory.t T) n w :
  RawMemory.Swap (lens_comp lens_fst Vector.data_l) lens_snd (Vector.mk d n, nd) w
  = (Returns tt, (Vector.mk nd n, d), w).
Proof. by destruct d, nd. Qed.
Lemma replicate_split {A} (a : A) i c :
  i < c -> replicate c a = replicate i a ++ a :: replicate (c - i - 1) a.
Proof.
  intros Hi. replace c with (i + S (c - i - 1)) at 1 by lia.
  by rewrite replicate_add.
Qed.

(** The reallocation of an append: the new element is constructed at
    its slot of the new block, the old elements are transferred and
    destroyed, and the blocks are swapped. *)
Lemma growth_append l x c w :
  quiet w -> length l < c ->
  with_local (RawMemory.mk (replicate c None) c) RawMemory.dtor
    (zoom (lens_comp lens_snd RawMemory.buffer_l) (construct_at (length l) x);;
     Vector.transfer 0 (length l) 0;;
     zoom (lens_comp lens_fst Vector.block) (destroy_n 0 (length l));;
     RawMemory.Swap (lens_comp lens_fst Vector.data_l) lens_snd)
    (Vector.of_list l 0) w
  = (Returns tt,
     Vector.mk (RawMemory.mk
                  ((Some <$> l) ++ Some x :: replicate (c - length l - 1) None) c)
               (length l), w).
Proof.
  intros Hw Hc. rewrite with_local_raw.
  zstep (construct_at_middle (length l) x (replicate (length l) None)
           (replicate (c - length l - 1) None) None w ltac:(len) Hw);
    [|by apply replicate_split].
  lens_simpl.
  destruct (transfer_quiet l 0 (length l) 0 [] [] [] (replicate (length l) None)
              (Some x :: replicate (c - length l - 1) None)
              (length l + 0) (length l) c w) as (l' & Hl' & Ht); [done..|len|done|].
  step_at Ht; [|done].
  zstep (destroy_n_live 0 (length l) l' [] [] w ltac:(done) ltac:(done)); [|done].
  lens_simpl. by rewrite RawMemory_Swap_local.
Qed.

Lemma PushBack_of_list l x k w :
  quiet w ->
  Vector.PushBack x (Vector.of_list l k) w
  = (Returns tt,
     Vector.of_list (l ++ [x])
       (match k with
        | 0 => (if length l =? 0 then 1 else length l * 2) - length l - 1
        | S k' => k'
        end), w).
Proof.
  intros Hw. unfold Vector.PushBack. rewrite bind_get.
  unfold Vector.Capacity, RawMemory.Capacity.
  cbn [Vector.of_list Vector.data_ Vector.size_ RawMemory.capacity_].
  destruct k as [|k].
  - rewrite (proj2 (Nat.leb_le _ _)) by lia.
    set (c := if length l =? 0 then 1 else length l * 2).
    assert (length l < c) as Hc.
    { unfold c. destruct (Nat.eqb_spec (length l) 0); lia. }
    rewrite bind_bind.
    step (RawMemory_ctor_quiet c (Vector.of_list l 0) w Hw).
    step (growth_append l x c w Hw Hc).
    zlast (put_run (length l) (length l + 1) w); [|done].
    lens_simpl. apply returns_eq; [done| |len|len].
    by rewrite fmap_app, <- app_assoc.
  - rewrite (proj2 (Nat.leb_gt _ _)) by lia.
    zstep (construct_at_middle (length l) x (Some <$> l) (replicate k None) None w
             ltac:(len) Hw); [|done].
    zlast (put_run (length l) (length l + 1) w); [|done].
    lens_simpl. apply returns_eq; [done| |len|len].
    by rewrite fmap_app, <- app_assoc.
Qed.

Lemma EmplaceBack_of_list l x k w :
  quiet w ->
  Vector.EmplaceBack x (Vector.of_list l k) w
  = (Returns (length l),
     Vector.of_list (l ++ [x])
       (match k with
        | 0 => (if length l =? 0 then 1 else length l * 2) - length l - 1
        | S k' => k'
        end), w).
Proof.
  intros Hw. unfold Vector.EmplaceBack. rewrite bind_get.
  unfold Vector.Capacity, RawMemory.Capacity.
  cbn [Vector.of_list Vector.data_ Vector.size_ RawMemory.capacity_].
  destruct k as [|k].
  - rewrite (proj2 (Nat.leb_le _ _)) by lia.
    set (c := if length l =? 0 then 1 else length l * 2).
    assert (length l < c) as Hc.
    { unfold c. destruct (Nat.eqb_spec (length l) 0); lia. }
    rewrite bind_bind.
    step (RawMemory_ctor_quiet c (Vector.of_list l 0) w Hw).
    step (growth_append l x c w Hw Hc).
    zstep (put_run (length l) (length l + 1) w); [|done].
    lens_simpl. rewrite RawMemory_index_run by (simpl; lia).
    apply returns_eq; [done| |len|len].
    by rewrite fmap_app, <- app_assoc.
  - rewrite (proj2 (Nat.leb_gt _ _)) by lia.
    zstep (construct_at_middle (length l) x (Some <$> l) (replicate k None) None w
             ltac:(len) Hw); [|done].
    zstep (put_run (length l) (length l + 1) w); [|done].
    lens_simpl. rewrite RawMemory_index_run by (simpl; lia).
    apply returns_eq; [done| |len|len].
    by rewrite fmap_app, <- app_assoc.
Qed.
Lemma pair_eq_state (b b' nb nb' : buffer T) c n c' :
  b = b' -> nb = nb' ->
  (Vector.mk (RawMemory.mk b c) n, RawMemory.mk nb c')
  = (Vector.mk (RawMemory.mk b' c) n, RawMemory.mk nb' c').
Proof. by intros -> ->. Qed.

(** The reallocation of an insertion before the objects [l2]. *)
Lemma growth_insert l1 l2 x c w :
  quiet w -> length (l1 ++ l2) < c ->
  with_local (RawMemory.mk (replicate c None) c) RawMemory.dtor
    (zoom (lens_comp lens_snd RawMemory.buffer_l) (construct_at (length l1) x);;
     Vector.transfer 0 (length l1) 0;;
     Vector.transfer (length l1) (length (l1 ++ l2) - length l1) (length l1 + 1);;
     zoom (lens_comp lens_fst Vector.block) (destroy_n 0 (length (l1 ++ l2)));;
     RawMemory.Swap (lens_comp lens_fst Vector.data_l) lens_snd)
    (Vector.of_list (l1 ++ l2) 0) w
  = (Returns tt,
     Vector.mk (RawMemory.mk
                  ((Some <$> l1) ++ Some x :: (Some <$> l2)
                     ++ replicate (c - length (l1 ++ l2) - 1) None) c)
               (length (l1 ++ l2)), w).
Proof.
  intros Hw Hc. rewrite length_app in Hc. rewrite with_local_raw.
  zstep (construct_at_middle (length l1) x (replicate (length l1) None)
           (replicate (c - length l1 - 1) None) None w ltac:(len) Hw);
    [|apply replicate_split; lia].
  lens_simpl.
  destruct (transfer_quiet l1 0 (length l1) 0 [] (Some <$> l2) []
              (replicate (length l1) None)
              (Some x :: replicate (c - length l1 - 1) None)
              (length (l1 ++ l2) + 0) (length (l1 ++ l2)) c w)
    as (l1' & Hl1' & Ht1); [done..|len|done|].
  step_at Ht1;
    [|unfold Vector.of_list; apply pair_eq_state;
      [by rewrite fmap_app, app_nil_r|done]].
  destruct (transfer_quiet l2 (length l1) (length (l1 ++ l2) - length l1)
              (length l1 + 1) (Some <$> l1') [] ((Some <$> l1) ++ [Some x])
              (replicate (length l2) None)
              (replicate (c - length (l1 ++ l2) - 1) None)
              (length (l1 ++ l2) + 0) (length (l1 ++ l2)) c w)
    as (l2' & Hl2' & Ht2); [len|len|len|len|done|].
  step_at Ht2.
  2:{ apply pair_eq_state; [by rewrite app_nil_r|].
      rewrite <- app_assoc, <- replicate_add. simpl. do 3 f_equal. len. }
  zstep (destroy_n_live 0 (length (l1 ++ l2)) (l1' ++ l2') [] [] w
           ltac:(len) ltac:(done));
    [|lens_simpl; by rewrite fmap_app, <- app_assoc].
  lens_simpl. rewrite RawMemory_Swap_local.
  cbn [fst snd]. apply returns_eq; [done| |done|done].
  by rewrite <- !app_assoc.
Qed.

Lemma Emplace_of_list l1 l2 x k w :
  quiet w ->
  Vector.Emplace (length l1) x (Vector.of_list (l1 ++ l2) k) w
  = (Returns (length l1),
     Vector.of_list (l1 ++ x :: l2)
       (match k with
        | 0 => (if length (l1 ++ l2) =? 0 then 1 else length (l1 ++ l2) * 2)
               - length (l1 ++ l2) - 1
        | S k' => k'
        end), w).
Proof.
  intros Hw. unfold Vector.Emplace. rewrite bind_get.
  unfold Vector.Capacity, RawMemory.Capacity.
  cbn [Vector.of_list Vector.data_ Vector.size_ RawMemory.capacity_].
  rewrite bind_assert by (apply Nat.leb_le; len).
  destruct k as [|k].
  - rewrite (proj2 (Nat.leb_le _ _)) by lia.
    set (c := if length (l1 ++ l2) =? 0 then 1 else length (l1 ++ l2) * 2).
    assert (length (l1 ++ l2) < c) as Hc.
    { unfold c. destruct (Nat.eqb_spec (length (l1 ++ l2)) 0); lia. }
    rewrite bind_bind.
    step (RawMemory_ctor_quiet c (Vector.of_list (l1 ++ l2) 0) w Hw).
    step (growth_insert l1 l2 x c w Hw Hc).
    zstep (put_run (length (l1 ++ l2)) (length (l1 ++ l2) + 1) w); [|done].
    lens_simpl. apply returns_eq; [done| |len|len].
    by rewrite fmap_app, <- !app_assoc.
  - rewrite (proj2 (Nat.leb_gt _ _)) by lia.
    destruct l2 as [|y l2 _] using rev_ind.
    + rewrite app_nil_r, Nat.eqb_refl. simpl negb. cbv iota.
      step (try_catch_returns _
              (Vector.operator_delete (length l1);; throw) _ _ _ _ _
              (zoom_at Vector.block _ (Vector.of_list l1 (S k)) _ _ _ _ _
                 (construct_at_middle (length l1) x (Some <$> l1) (replicate k None)
                    None w ltac:(len) Hw) ltac:(done))).
      zstep (put_run (length l1) (length l1 + 1) w); [|done].
      lens_simpl. apply returns_eq; [done| |len|len].
      by rewrite fmap_app, <- !app_assoc.
    + rewrite (proj2 (Nat.eqb_neq _ _)) by len. simpl negb. cbv iota.
      destruct (std_move_backward_quiet l2 (length l1)
                  (length (l1 ++ l2 ++ [y]) - 1 - length l1)
                  (length (l1 ++ l2 ++ [y])) (moved_from y) (Some <$> l1)
                  (Some y :: replicate k None) w) as [z Hz]; [len|len|len|done|].
      erewrite bind_returns; last (apply try_catch_returns).
      2:{ step (throw_point_quiet (Vector.of_list (l1 ++ l2 ++ [y]) (S k)) w Hw).
          step (RawMemory_index_run Vector.data_l (length (l1 ++ l2 ++ [y]) - 1)
                  (Vector.of_list (l1 ++ l2 ++ [y]) (S k)) w ltac:(len)).
          zstep (move_construct_within_up (length (l1 ++ l2 ++ [y]) - 1)
                   (length (l1 ++ l2 ++ [y])) y None
                   ((Some <$> l1) ++ (Some <$> l2)) (replicate k None) w
                   ltac:(len) ltac:(len) Hw);
            [|unfold Vector.of_list; lens_simpl;
              by rewrite !fmap_app, <- !app_assoc].
          unfold Vector.of_list. lens_simpl.
          zstep Hz; [|by rewrite <- !app_assoc].
          lens_simpl.
          zlast (move_assign_from_middle (length l1) x z (Some <$> l1)
                   ((Some <$> l2) ++ Some y :: replicate k None) w
                   ltac:(len) Hw); [|done].
          lens_simpl. reflexivity. }
      zstep (put_run (length (l1 ++ l2 ++ [y])) (length (l1 ++ l2 ++ [y]) + 1) w);
        [|done].
      lens_simpl. apply returns_eq; [done| |len|len].
      rewrite !fmap_app, <- !app_assoc. simpl. by rewrite !fmap_app, <- !app_assoc.
Qed.
Lemma Reserve_of_list_fits l k c w :
  c <= length l + k ->
  Vector.Reserve c (Vector.of_list l k) w = (Returns tt, Vector.of_list l k, w).
Proof.
  intros Hc. unfold Vector.Reserve. rewrite bind_get.
  unfold Vector.Capacity, RawMemory.Capacity.
  cbn [Vector.of_list Vector.data_ Vector.size_ RawMemory.capacity_].
  by rewrite (proj2 (Nat.leb_le _ _)) by lia.
Qed.

Lemma Reserve_of_list_grows l k c w :
  quiet w -> length l + k < c ->
  Vector.Reserve c (Vector.of_list l k) w
  = (Returns tt, Vector.of_list l (c - length l), w).
Proof.
  intros Hw Hc. unfold Vector.Reserve. rewrite bind_get.
  unfold Vector.Capacity, RawMemory.Capacity.
  cbn [Vector.of_list Vector.data_ Vector.size_ RawMemory.capacity_].
  rewrite (proj2 (Nat.leb_gt _ _)) by lia.
  step (RawMemory_ctor_quiet c (Vector.of_list l k) w Hw).
  rewrite with_local_raw.
  destruct (transfer_quiet l 0 (length l) 0 [] (replicate k None) []
              (replicate (length l) None) (replicate (c - length l) None)
              (length l + k) (length l) c w) as (l' & Hl' & Ht); [done..|len|done|].
  step_at Ht.
  2:{ apply pair_eq_state; [done|].
      rewrite <- replicate_add. simpl. f_equal. lia. }
  zstep (destroy_n_live 0 (length l) l' [] (replicate k None) w
           ltac:(done) ltac:(done)); [|done].
  lens_simpl. rewrite RawMemory_Swap_local. cbn [fst snd].
  apply returns_eq; [done..|len|done].
Qed.

Lemma Resize_of_list l k n w :
  quiet w ->
  exists k',
    Vector.Resize n (Vector.of_list l k) w
    = (Returns tt,
       Vector.of_list (take n l ++ replicate (n - length l) value_initialized) k', w).
Proof.
  intros Hw. unfold Vector.Resize. rewrite bind_get.
  unfold Vector.Capacity, RawMemory.Capacity.
  cbn [Vector.of_list Vector.data_ Vector.size_ RawMemory.capacity_].
  destruct (Nat.ltb_spec n (length l)) as [Hn|Hn].
  - exists (length l - n + k).
    zstep (destroy_n_live n (length l - n) (drop n l) (Some <$> take n l)
             (replicate k None) w ltac:(len) ltac:(len)).
    2:{ lens_simpl. rewrite app_assoc, <- fmap_app. by rewrite take_drop. }
    lens_simpl.
    zlast (put_run (length l) n w); [|done].
    lens_simpl. apply returns_eq; [done| |len|len].
    rewrite (proj2 (Nat.sub_0_le n (length l))) by lia. simpl.
    by rewrite app_nil_r, <- replicate_add.
  - rewrite take_ge by lia.
    assert (exists k0,
      n <= length l + k0 /\
      (if length l + k <? n
       then Vector.Reserve (Nat.max ((length l + k) * 2) n)
       else ret tt) (Vector.of_list l k) w
      = (Returns tt, Vector.of_list l k0, w)) as (k0 & Hk0 & Hres).
    { destruct (Nat.ltb_spec (length l + k) n) as [Hlt|Hge].
      - exists (Nat.max ((length l + k) * 2) n - length l). split; [lia|].
        apply Reserve_of_list_grows; [done|lia].
      - by exists k. }
    exists (k0 - (n - length l)).
    rewrite bind_bind. step Hres.
    zstep (uninitialized_value_construct_n_quiet (n - length l) (length l)
             (Some <$> l) (replicate (n - length l) None)
             (replicate (k0 - (n - length l)) None) w
             ltac:(len) ltac:(len) Hw).
    2:{ unfold Vector.of_list. lens_simpl. f_equal.
        rewrite <- replicate_add. f_equal. lia. }
    zlast (put_run (length l) n w); [|done].
    unfold Vector.of_list. lens_simpl. apply returns_eq; [done| |len|len].
    by rewrite fmap_app, fmap_replicate, <- app_assoc.
Qed.

Lemma ctor_quiet {St} n (s : St) w :
  quiet w ->
  Vector.ctor n s w
  = (Returns (Vector.of_list (replicate n value_initialized) 0), s, w).
Proof.
  intros Hw. unfold Vector.ctor.
  step (RawMemory_ctor_quiet n s w Hw).
  unfold construct.
  rewrite (zoom_at Vector.block _ _ _ _ _ _ _
             (uninitialized_value_construct_n_quiet n 0 [] (replicate n None) [] w
                ltac:(done) ltac:(len) Hw)); [|lens_simpl; by rewrite app_nil_r].
  lens_simpl. apply (f_equal (fun r => (Returns r, s, w))).
  apply vector_eq; [|len|len].
  by rewrite fmap_replicate.
Qed.

Lemma copy_ctor_quiet {St} l k (s : St) w :
  quiet w ->
  Vector.copy_ctor (Vector.of_list l k) s w
  = (Returns (Vector.of_list l 0), s, w).
Proof.
  intros Hw. unfold Vector.copy_ctor. cbn [Vector.of_list Vector.size_].
  step (RawMemory_ctor_quiet (length l) s w Hw).
  unfold construct.
  rewrite (zoom_at Vector.block _ _ _ _ _ _ _
             (uninitialized_copy_n_quiet l 0 (length l) 0 [] (replicate k None) []
                (replicate (length l) None) [] w
                ltac:(done) ltac:(done) ltac:(done) ltac:(len) Hw));
    [|lens_simpl; by rewrite app_nil_r].
  lens_simpl. apply (f_equal (fun r => (Returns r, s, w))).
  by apply vector_eq; [|len|].
Qed.
End Vector_facts.

(** * Runs that return

    Whatever the schedule, a call that returns did what it does in the
    quiet world. *)

Create HintDb steady.

Section Steady.
Context {S : Type}.

Lemma steady_ret {A} (a : A) : steady (ret (S := S) a).
Proof. unfold steady, ret. by intros s w a' s' w' [= <- <- <-]. Qed.

Lemma steady_get : steady (get (S := S)).
Proof. unfold steady, get. by intros s w a' s' w' [= <- <- <-]. Qed.

Lemma steady_put (s0 : S) : steady (put s0).
Proof. unfold steady, put. by intros s w [] s' w' [= <- <-]. Qed.

Lemma steady_modify (f : S -> S) : steady (modify f).
Proof. unfold steady, modify. by intros s w [] s' w' [= <- <-]. Qed.

Lemma steady_throw {A} : steady (throw (S := S) (A := A)).
Proof. unfold steady, throw. by intros s w a' s' w'. Qed.

Lemma steady_undefined {A} : steady (undefined (S := S) (A := A)).
Proof. unfold steady, undefined. by intros s w a' s' w'. Qed.

Lemma steady_assert (b : bool) : steady (assert (S := S) b).
Proof. intros s w [] s' w'. unfold assert. by destruct b; intros [= <- <-]. Qed.

Lemma steady_throw_point : steady (throw_point (S := S)).
Proof.
  intros s w [] s' w'. unfold throw_point. simpl.
  destruct (sched w) as [|[] rest]; [by intros [= <- <-]|done|by intros [= <- <-]].
Qed.

Lemma steady_bind {A B} (m : M S A) (k : A -> M S B) :
  steady m -> (forall a, steady (k a)) -> steady (bind m k).
Proof.
  intros Hm Hk s w b s' w'. unfold bind.
  destruct (m s w) as [[[a| | |] s1] w1] eqn:E; try done.
  apply Hm in E. rewrite E. apply Hk.
Qed.

Lemma steady_zoom {V A} (l : lens S V) (m : M V A) : steady m -> steady (zoom l m).
Proof.
  intros Hm s w a s' w'. unfold zoom.
  destruct (m (view l s) w) as [[r v'] w1] eqn:E.
  intros [= -> <- <-]. by rewrite (Hm _ _ _ _ _ E).
Qed.

Lemma steady_try_catch {A} (m h : M S A) :
  steady m -> never_returns h -> steady (try_catch m h).
Proof.
  intros Hm Hh s w a s' w'. unfold try_catch.
  destruct (m s w) as [[[a1| | |] s1] w1] eqn:E; try done.
  - intros [= <- <- <-]. by rewrite (Hm _ _ _ _ _ E).
  - intros Hr. by apply Hh in Hr.
Qed.

Lemma steady_with_local {L A} (init : L) (dtor : M L unit) (m : M (S * L) A) :
  steady m -> steady dtor -> steady (with_local init dtor m).
Proof.
  intros Hm Hd s w a s' w'. unfold with_local.
  destruct (m (s, init) w) as [[[a1| | |] [s1 l1]] w1] eqn:E; try done.
  - destruct (dtor l1 w1) as [[[[]| | |] l2] w2] eqn:Ed; try done.
    intros [= <- <- <-]. by rewrite (Hm _ _ _ _ _ E), (Hd _ _ _ _ _ Ed).
  - by destruct (dtor l1 w1) as [[[[]| | |] l2] w2].
Qed.

Lemma steady_construct {V} (init : V) (body : M V unit) :
  steady body -> steady (construct (S := S) init body).
Proof.
  intros Hb s w a s' w'. unfold construct.
  destruct (body init w) as [[[[]| | |] v] w1] eqn:E; try done.
  intros [= <- <- <-]. by rewrite (Hb _ _ _ _ _ E).
Qed.

Lemma steady_std_swap {X} (a b : lens S X) : steady (std_swap a b).
Proof.
  unfold steady, std_swap, bind, get, modify. by intros s w [] s' w' [= <- <-].
Qed.

Lemma steady_std_exchange {X} (obj : lens S X) (x : X) : steady (std_exchange obj x).
Proof.
  unfold steady, std_exchange, bind, get, modify, ret.
  by intros s w a' s' w' [= <- <- <-].
Qed.

Lemma never_returns_rethrow {A B} (m : M S A) :
  never_returns (bind m (fun _ => throw (A := B))).
Proof.
  intros s w b s' w'. unfold bind, throw.
  by destruct (m s w) as [[[a| | |] s1] w1].
Qed.

Lemma hush_quiet w : quiet w -> hush w = w.
Proof. destruct w as [sc r]. unfold quiet, hush. simpl. by intros ->. Qed.

(** What a returning run says in the quiet world decides its result. *)
Lemma returns_as_quiet {A} (m : M S A) s w a s' w' a0 s0 :
  steady m ->
  m s (hush w) = (Returns a0, s0, hush w) ->
  m s w = (Returns a, s', w') ->
  a = a0 /\ s' = s0.
Proof.
  intros Hm Hq Hr. apply Hm in Hr. rewrite Hq in Hr. by injection Hr as -> ->.
Qed.
End Steady.

#[local] Hint Resolve steady_ret steady_get steady_put steady_modify steady_throw
  steady_undefined steady_assert steady_throw_point steady_std_swap
  steady_std_exchange never_returns_rethrow : steady.

Ltac solve_steady :=
  repeat
    match goal with
    | |- steady (bind _ _) => apply steady_bind; [|intros ?]
    | |- steady (zoom _ _) => apply steady_zoom
    | |- steady (try_catch _ _) => apply steady_try_catch
    | |- steady (with_local _ _ _) => apply steady_with_local
    | |- steady (construct _ _) => apply steady_construct
    | |- steady (if ?b then _ else _) => destruct b
    | |- steady (match ?x with _ => _ end) => destruct x
    end;
  eauto with steady.

Section Steady_code.
Context {T : Type} `{Element T}.

Lemma steady_load i : steady (load (T := T) i).
Proof. unfold load. solve_steady. Qed.

Lemma steady_store i (o : option T) : steady (store i o).
Proof. unfold store. solve_steady. Qed.

Lemma steady_construct_at i (x : T) : steady (construct_at i x).
Proof. unfold construct_at. solve_steady. Qed.

Lemma steady_destroy_at i : steady (destroy_at (T := T) i).
Proof. unfold destroy_at. solve_steady; auto using steady_load, steady_store. Qed.

Lemma steady_copy_construct (src : buffer T) j i : steady (copy_construct src j i).
Proof. unfold copy_construct. solve_steady; auto using steady_construct_at. Qed.

Lemma steady_copy_assign (src : buffer T) j i : steady (copy_assign src j i).
Proof. unfold copy_assign. solve_steady; auto using steady_load, steady_store. Qed.

Lemma steady_move_construct j i : steady (move_construct (T := T) j i).
Proof. unfold move_construct. solve_steady; auto using steady_load, steady_store. Qed.

Lemma steady_move_construct_within j i : steady (move_construct_within (T := T) j i).
Proof.
  unfold move_construct_within. solve_steady; auto using steady_load, steady_store.
Qed.

Lemma steady_move_assign j i : steady (move_assign (T := T) j i).
Proof. unfold move_assign. solve_steady; auto using steady_load, steady_store. Qed.

Lemma steady_move_assign_from (x : T) i : steady (move_assign_from x i).
Proof. unfold move_assign_from. solve_steady; auto using steady_load, steady_store. Qed.

Lemma steady_destroy_n i n : steady (destroy_n (T := T) i n).
Proof.
  revert i. induction n as [|n IH]; intros i; simpl; solve_steady.
  apply steady_destroy_at.
Qed.

Lemma steady_uninitialized_copy_n (src : buffer T) j n i :
  steady (uninitialized_copy_n src j n i).
Proof.
  revert j i. induction n as [|n IH]; intros j i; simpl; solve_steady.
  apply steady_copy_construct.
Qed.

Lemma steady_uninitialized_move_n j n i : steady (uninitialized_move_n (T := T) j n i).
Proof.
  revert j i. induction n as [|n IH]; intros j i; simpl; solve_steady.
  apply steady_move_construct.
Qed.

Lemma steady_uninitialized_value_construct_n i n :
  steady (uninitialized_value_construct_n (T := T) i n).
Proof.
  revert i. induction n as [|n IH]; intros i; simpl; solve_steady.
  apply steady_construct_at.
Qed.

Lemma steady_std_copy (src : buffer T) j n i : steady (std_copy src j n i).
Proof.
  revert j i. induction n as [|n IH]; intros j i; simpl; solve_steady.
  apply steady_copy_assign.
Qed.

Lemma steady_std_move j n i : steady (std_move (T := T) j n i).
Proof.
  revert j i. induction n as [|n IH]; intros j i; simpl; solve_steady.
  apply steady_move_assign.
Qed.

Lemma steady_std_move_backward j n i : steady (std_move_backward (T := T) j n i).
Proof.
  revert i. induction n as [|n IH]; intros i; simpl; solve_steady.
  apply steady_move_assign.
Qed.

Lemma steady_RawMemory_ctor {St} n : steady (RawMemory.ctor (T := T) (S := St) n).
Proof. unfold RawMemory.ctor, RawMemory.Allocate. solve_steady. Qed.

Lemma steady_RawMemory_dtor : steady (RawMemory.dtor (T := T)).
Proof. unfold RawMemory.dtor. solve_steady. Qed.

Lemma steady_RawMemory_Swap {St} (a b : lens St (RawMemory.t T)) :
  steady (RawMemory.Swap a b).
Proof. unfold RawMemory.Swap. solve_steady. Qed.

Lemma steady_RawMemory_move_ctor {St} (o : lens St (RawMemory.t T)) :
  steady (RawMemory.move_ctor o).
Proof. unfold RawMemory.move_ctor. solve_steady. Qed.

Lemma steady_RawMemory_index {St} (this : lens St (RawMemory.t T)) i :
  steady (RawMemory.index this i).
Proof. unfold RawMemory.index. solve_steady. Qed.

Lemma steady_transfer j n i : steady (Vector.transfer (T := T) j n i).
Proof.
  unfold Vector.transfer. solve_steady;
    auto using steady_uninitialized_move_n, steady_uninitialized_copy_n.
Qed.
End Steady_code.

#[local] Hint Resolve steady_load steady_store steady_construct_at steady_destroy_at
  steady_copy_construct steady_copy_assign steady_move_construct
  steady_move_construct_within steady_move_assign steady_move_assign_from
  steady_destroy_n steady_uninitialized_copy_n steady_uninitialized_move_n
  steady_uninitialized_value_construct_n steady_std_copy steady_std_move
  steady_std_move_backward steady_RawMemory_ctor steady_RawMemory_dtor
  steady_RawMemory_Swap steady_RawMemory_move_ctor steady_RawMemory_index
  steady_transfer : steady.

Section Steady_methods.
Context {T : Type} `{Element T}.

Lemma steady_Reserve n : steady (Vector.Reserve (T := T) n).
Proof. unfold Vector.Reserve. solve_steady. Qed.

Lemma steady_Resize n : steady (Vector.Resize (T := T) n).
Proof. unfold Vector.Resize. solve_steady. apply steady_Reserve. Qed.

Lemma steady_Swap {St} (a b : lens St (Vector.t T)) : steady (Vector.Swap a b).
Proof. unfold Vector.Swap. solve_steady. Qed.

Lemma steady_Erase pos : steady (Vector.Erase (T := T) pos).
Proof. unfold Vector.Erase. solve_steady. Qed.

Lemma steady_PopBack : steady (Vector.PopBack (T := T)).
Proof. unfold Vector.PopBack. solve_steady. Qed.

Lemma steady_PushBack (x : T) : steady (Vector.PushBack x).
Proof. unfold Vector.PushBack. solve_steady. Qed.

Lemma steady_EmplaceBack (x : T) : steady (Vector.EmplaceBack x).
Proof. unfold Vector.EmplaceBack. solve_steady. Qed.

Lemma steady_operator_delete n : steady (Vector.operator_delete (T := T) n).
Proof.
  unfold Vector.operator_delete. solve_steady.
  by intros s w [] s' w' [= <- <-].
Qed.

Lemma steady_Emplace pos (x : T) : steady (Vector.Emplace pos x).
Proof. unfold Vector.Emplace. solve_steady. Qed.

Lemma steady_Insert pos (x : T) : steady (Vector.Insert pos x).
Proof. apply steady_Emplace. Qed.

Lemma steady_copy_ctor {St} (o : Vector.t T) : steady (Vector.copy_ctor (S := St) o).
Proof. unfold Vector.copy_ctor. solve_steady. Qed.

Lemma steady_move_ctor {St} (o : lens St (Vector.t T)) : steady (Vector.move_ctor o).
Proof. unfold Vector.move_ctor. solve_steady. Qed.

Lemma steady_dtor : steady (Vector.dtor (T := T)).
Proof. unfold Vector.dtor. solve_steady. Qed.

Lemma steady_op_assign a b : steady (Vector.op_assign (T := T) a b).
Proof.
  unfold Vector.op_assign. solve_steady;
    auto using steady_copy_ctor, steady_Swap, steady_dtor.
Qed.

Lemma steady_exec (c : call T) : steady (exec c).
Proof.
  destruct c; cbn [exec]; solve_steady;
    auto using steady_PushBack, steady_EmplaceBack, steady_Insert, steady_Emplace,
      steady_Erase, steady_PopBack, steady_Reserve, steady_Resize, steady_copy_ctor,
      steady_move_ctor, steady_op_assign, steady_Swap.
  apply steady_Swap.
Qed.

Lemma steady_run (cs : list (call T)) : steady (run cs).
Proof. induction cs as [|c cs IH]; simpl; solve_steady. apply steady_exec. Qed.

Lemma steady_push_all (xs : list T) : steady (push_all xs).
Proof. induction xs as [|x xs IH]; simpl; solve_steady. apply steady_PushBack. Qed.
End Steady_methods.

(** * The claims about one vector *)

Section Single_vector.
Context {T : Type} `{Element T}.
Implicit Types (v : Vector.t T) (l : list T) (w : World).

Lemma wf_is_of_list v : Vector.wf v -> exists l k, v = Vector.of_list l k.
Proof. intros [Hv _]%wf_canonical. eauto. Qed.

Lemma snoc_cases l : 0 < length l -> exists l' x, l = l' ++ [x].
Proof.
  destruct l as [|x l _] using rev_ind; [simpl; lia|]. eauto.
Qed.

Lemma split_at l i : i <= length l -> exists l1 l2, l = l1 ++ l2 /\ length l1 = i.
Proof.
  intros Hi. exists (take i l), (drop i l).
  split; [by rewrite take_drop|]. rewrite length_take. lia.
Qed.

(** C10. On a non-empty vector [PopBack] returns, whatever the
    schedule; the size drops by one, the elements before the last keep
    their values, and the capacity is unchanged. *)
Theorem PopBack_frame v w :
  Vector.wf v -> 0 < Vector.Size v ->
  exists v',
    Vector.PopBack v w = (Returns tt, v', w) /\
    Vector.wf v' /\
    Vector.Size v' = Vector.Size v - 1 /\
    (forall i, i < Vector.Size v - 1 ->
               Vector.elements v' !! i = Vector.elements v !! i) /\
    Vector.elements v' = take (Vector.Size v - 1) (Vector.elements v) /\
    Vector.Capacity v' = Vector.Capacity v.
Proof.
  intros (l & k & ->)%wf_is_of_list Hn.
  destruct (snoc_cases l Hn) as (l' & x & ->).
  exists (Vector.of_list l' (S k)).
  rewrite PopBack_of_list, !elements_of_list.
  unfold Vector.Size, Vector.Capacity, RawMemory.Capacity. simpl.
  rewrite length_app. simpl.
  replace (length l' + 1 - 1) with (length l') by lia.
  split_and!; [done|apply wf_of_list|done| |by rewrite take_app_length|lia].
  intros i Hi. by rewrite lookup_app_l.
Qed.
(** C5. [Erase] at a position [i] of the live range: when nothing throws
    it returns, and on every schedule a call that returns has returned
    the iterator of index [i] and left the vector [v'], in which the
    size has dropped by one, the elements before [i] are unchanged,
    every element after [i] sits one index lower (so index [i] holds the
    successor of the erased element, and is [end()] when the last
    element was erased), and the capacity is unchanged. *)
Theorem Erase_shifts_left v i w :
  Vector.wf v -> i < Vector.Size v ->
  exists v',
    (quiet w -> Vector.Erase i v w = (Returns i, v', w)) /\
    (forall r v1 w1, Vector.Erase i v w = (Returns r, v1, w1) -> r = i /\ v1 = v') /\
    Vector.wf v' /\
    Vector.Size v' = Vector.Size v - 1 /\
    (forall j, j < i -> Vector.elements v' !! j = Vector.elements v !! j) /\
    (forall j, i < j -> j < Vector.Size v ->
               Vector.elements v' !! (j - 1) = Vector.elements v !! j) /\
    Vector.elements v' !! i = Vector.elements v !! (i + 1) /\
    (i = Vector.Size v - 1 -> i = Vector.Size v') /\
    Vector.Capacity v' = Vector.Capacity v.
Proof.
  intros (l & k & ->)%wf_is_of_list Hi.
  unfold Vector.Size in Hi. simpl in Hi.
  destruct (split_at l i) as (l1 & l2 & -> & Hl1); [lia|].
  destruct l2 as [|x l2]; [rewrite app_nil_r in Hi; lia|].
  exists (Vector.of_list (l1 ++ l2) (S k)).
  rewrite <- Hl1, !elements_of_list.
  unfold Vector.Size, Vector.Capacity, RawMemory.Capacity. simpl.
  rewrite !length_app. simpl.
  split_and!; [| |apply wf_of_list|lia| | | |lia|lia].
  - intros Hw. by apply Erase_of_list.
  - intros r v1 w1 Hr.
    exact (returns_as_quiet _ _ _ _ _ _ _ _ (steady_Erase _)
             (Erase_of_list l1 x l2 k (hush w) eq_refl) Hr).
  - intros j Hj. by rewrite !lookup_app_l.
  - intros j Hj1 Hj2. rewrite !lookup_app_r by lia.
    replace (j - length l1) with (S (j - 1 - length l1)) by lia. done.
  - rewrite !lookup_app_r by lia.
    by replace (length l1 + 1 - length l1) with 1 by lia; rewrite Nat.sub_diag.
Qed.

(** C2. [PushBack] and [EmplaceBack] append: when nothing throws they
    return, and on every schedule a call that returns has left the
    vector [v'] ([EmplaceBack] returning the reference to the slot of
    the old size), in which the size has grown by one, the new last
    element is the value given, the old elements keep their values and
    order, and the capacity is [max 1 (2 * capacity)] when the vector
    was full and unchanged otherwise. *)
Theorem PushBack_EmplaceBack_append v x w :
  Vector.wf v ->
  exists v',
    (quiet w ->
     Vector.PushBack x v w = (Returns tt, v', w) /\
     Vector.EmplaceBack x v w = (Returns (Vector.Size v), v', w)) /\
    (forall r v1 w1, Vector.PushBack x v w = (Returns r, v1, w1) -> v1 = v') /\
    (forall r v1 w1, Vector.EmplaceBack x v w = (Returns r, v1, w1) ->
                     r = Vector.Size v /\ v1 = v') /\
    Vector.wf v' /\
    Vector.Size v' = Vector.Size v + 1 /\
    Vector.elements v' !! Vector.Size v = Some x /\
    (forall i, i < Vector.Size v ->
               Vector.elements v' !! i = Vector.elements v !! i) /\
    Vector.elements v' = Vector.elements v ++ [x] /\
    Vector.Capacity v' =
      (if Vector.Size v =? Vector.Capacity v
       then Nat.max 1 (2 * Vector.Capacity v)
       else Vector.Capacity v).
Proof.
  intros (l & k & ->)%wf_is_of_list.
  exists (Vector.of_list (l ++ [x])
            (match k with
             | 0 => (if length l =? 0 then 1 else length l * 2) - length l - 1
             | S k' => k'
             end)).
  rewrite !elements_of_list.
  unfold Vector.Size, Vector.Capacity, RawMemory.Capacity. simpl.
  rewrite length_app. simpl.
  split_and!; [| | |apply wf_of_list|done| | |done|].
  - intros Hw. by rewrite PushBack_of_list, EmplaceBack_of_list.
  - intros r v1 w1 Hr.
    exact (proj2 (returns_as_quiet _ _ _ _ _ _ _ _ (steady_PushBack _)
                    (PushBack_of_list l x k (hush w) eq_refl) Hr)).
  - intros r v1 w1 Hr.
    exact (returns_as_quiet _ _ _ _ _ _ _ _ (steady_EmplaceBack _)
             (EmplaceBack_of_list l x k (hush w) eq_refl) Hr).
  - by rewrite lookup_app_r, Nat.sub_diag.
  - intros i Hi. by rewrite lookup_app_l.
  - destruct k as [|k].
    + rewrite Nat.add_0_r, Nat.eqb_refl. simpl length.
      destruct (Nat.max_spec 1 (length l + (length l + 0))) as [[? ->]|[? ->]];
        destruct (Nat.eqb_spec (length l) 0); lia.
    + rewrite (proj2 (Nat.eqb_neq _ _)) by lia. simpl. lia.
Qed.

(** C4. [Emplace] and [Insert] at an index [i] of [0, size]: when
    nothing throws they return, and on every schedule a call that
    returns has returned the iterator of index [i] and left the vector
    [v'], in which the size has grown by one, index [i] holds the value
    given, the elements before [i] are unchanged and every element that
    was at an index [j >= i] is at index [j + 1]. *)
Theorem Emplace_Insert_shifts_right v i x w :
  Vector.wf v -> i <= Vector.Size v ->
  exists v',
    (quiet w ->
     Vector.Emplace i x v w = (Returns i, v', w) /\
     Vector.Insert i x v w = (Returns i, v', w)) /\
    (forall r v1 w1, Vector.Emplace i x v w = (Returns r, v1, w1) ->
                     r = i /\ v1 = v') /\
    (forall r v1 w1, Vector.Insert i x v w = (Returns r, v1, w1) ->
                     r = i /\ v1 = v') /\
    Vector.wf v' /\
    Vector.Size v' = Vector.Size v + 1 /\
    Vector.elements v' !! i = Some x /\
    (forall j, j < i -> Vector.elements v' !! j = Vector.elements v !! j) /\
    (forall j, i <= j -> j < Vector.Size v ->
               Vector.elements v' !! (j + 1) = Vector.elements v !! j).
Proof.
  intros (l & k & ->)%wf_is_of_list Hi.
  unfold Vector.Size in Hi. simpl in Hi.
  destruct (split_at l i) as (l1 & l2 & -> & Hl1); [lia|].
  exists (Vector.of_list (l1 ++ x :: l2)
            (match k with
             | 0 => (if length (l1 ++ l2) =? 0 then 1 else length (l1 ++ l2) * 2)
                    - length (l1 ++ l2) - 1
             | S k' => k'
             end)).
  unfold Vector.Insert.
  rewrite <- Hl1, !elements_of_list.
  assert (forall r v1 w1,
            Vector.Emplace (length l1) x (Vector.of_list (l1 ++ l2) k) w
            = (Returns r, v1, w1) ->
            r = length l1 /\ v1 = Vector.of_list (l1 ++ x :: l2)
              (match k with
               | 0 => (if length (l1 ++ l2) =? 0 then 1 else length (l1 ++ l2) * 2)
                      - length (l1 ++ l2) - 1
               | S k' => k'
               end)) as Hret.
  { intros r v1 w1 Hr.
    exact (returns_as_quiet _ _ _ _ _ _ _ _ (steady_Emplace _ _)
             (Emplace_of_list l1 l2 x k (hush w) eq_refl) Hr). }
  unfold Vector.Size. simpl.
  split_and!; [|done|done|apply wf_of_list|len| | |].
  - intros Hw. by rewrite Emplace_of_list.
  - by rewrite lookup_app_r, Nat.sub_diag.
  - intros j Hj. by rewrite !lookup_app_l.
  - intros j Hj1 Hj2. rewrite length_app in Hj2. rewrite !lookup_app_r by lia.
    by replace (j + 1 - length l1) with (S (j - length l1)) by lia.
Qed.


End Single_vector.

(** * Exceptions during a reallocation *)

Create HintDb nothrow.

Section No_throw.
Context {S : Type}.

Lemma bind_throws_inv {A B} (m : M S A) (k : A -> M S B) s w s' w' :
  bind m k s w = (Throws, s', w') ->
  m s w = (Throws, s', w')
  \/ exists a s1 w1, m s w = (Returns a, s1, w1) /\ k a s1 w1 = (Throws, s', w').
Proof.
  unfold bind. destruct (m s w) as [[[a| | |] s1] w1]; intros Hk.
  - right. by exists a, s1, w1.
  - left. by injection Hk as -> ->.
  - discriminate.
  - discriminate.
Qed.

Lemma never_throws_ret {A} (a : A) : never_throws (ret (S := S) a).
Proof. by intros s w s' w'. Qed.

Lemma never_throws_get : never_throws (get (S := S)).
Proof. by intros s w s' w'. Qed.

Lemma never_throws_put (s0 : S) : never_throws (put s0).
Proof. by intros s w s' w'. Qed.

Lemma never_throws_modify (f : S -> S) : never_throws (modify f).
Proof. by intros s w s' w'. Qed.

Lemma never_throws_undefined {A} : never_throws (undefined (S := S) (A := A)).
Proof. by intros s w s' w'. Qed.

Lemma never_throws_bind {A B} (m : M S A) (k : A -> M S B) :
  never_throws m -> (forall a, never_throws (k a)) -> never_throws (bind m k).
Proof.
  intros Hm Hk s w s' w' [Ht|(a & s1 & w1 & _ & Ht)]%bind_throws_inv.
  - by apply Hm in Ht.
  - by apply Hk in Ht.
Qed.

Lemma never_throws_zoom {V A} (l : lens S V) (m : M V A) :
  never_throws m -> never_throws (zoom l m).
Proof.
  intros Hm s w s' w'. unfold zoom.
  destruct (m (view l s) w) as [[r v'] w1] eqn:E.
  intros [= -> _ _]. by apply Hm in E.
Qed.

Lemma never_throws_try_catch {A} (m h : M S A) :
  never_throws m -> never_throws (try_catch m h).
Proof.
  intros Hm s w s' w'. unfold try_catch.
  destruct (m s w) as [[[a| | |] s1] w1] eqn:E; try done.
  by apply Hm in E.
Qed.

Lemma never_throws_std_swap {X} (a b : lens S X) : never_throws (std_swap a b).
Proof. by intros s w s' w'. Qed.
End No_throw.

#[local] Hint Resolve never_throws_ret never_throws_get never_throws_put
  never_throws_modify never_throws_undefined never_throws_bind
  never_throws_zoom never_throws_try_catch never_throws_std_swap : nothrow.

Section Strong_guarantee.
Context {T : Type} `{Element T}.
Implicit Types (v : Vector.t T) (nd : RawMemory.t T) (w : World).

Lemma never_throws_load i : never_throws (load (T := T) i).
Proof.
  unfold load. apply never_throws_bind; [auto with nothrow|].
  intros b. destruct (b !! i) as [[x|]|]; auto with nothrow.
Qed.

Lemma never_throws_store i (o : option T) : never_throws (store i o).
Proof.
  unfold store. apply never_throws_bind; [auto with nothrow|].
  intros b. case_decide; auto with nothrow.
Qed.

Lemma never_throws_destroy_at i : never_throws (destroy_at (T := T) i).
Proof.
  unfold destroy_at.
  auto using never_throws_load, never_throws_store with nothrow.
Qed.

Lemma never_throws_destroy_n i n : never_throws (destroy_n (T := T) i n).
Proof.
  revert i. induction n as [|n IH]; intros i; simpl;
    auto using never_throws_destroy_at with nothrow.
Qed.

Lemma never_throws_move_construct j i :
  is_nothrow_move_constructible = true -> never_throws (move_construct j i).
Proof.
  intros Hn. unfold move_construct. rewrite Hn.
  apply never_throws_bind; [auto using never_throws_load with nothrow|].
  intros x. apply never_throws_bind; [auto with nothrow|].
  intros d. case_decide; auto 10 using never_throws_store with nothrow.
Qed.

Lemma never_throws_uninitialized_move_n j n i :
  is_nothrow_move_constructible = true ->
  never_throws (uninitialized_move_n j n i).
Proof.
  intros Hn. revert j i. induction n as [|n IH]; intros j i; simpl;
    auto using never_throws_move_construct with nothrow.
Qed.

Lemma never_throws_RawMemory_Swap {St} (a b : lens St (RawMemory.t T)) :
  never_throws (RawMemory.Swap a b).
Proof. unfold RawMemory.Swap. auto with nothrow. Qed.

(** What [RawMemory.ctor] can do: return a block, or throw; the state
    is not touched. *)
Lemma RawMemory_ctor_frame {St} n (s s' : St) w w' (r : outcome (RawMemory.t T)) :
  RawMemory.ctor n s w = (r, s', w') -> s' = s.
Proof.
  unfold RawMemory.ctor, RawMemory.Allocate, bind, throw_point, ret.
  destruct (negb (n =? 0)); [|by intros [= _ <- _]].
  destruct (sched w) as [|[] rest]; by intros [= _ <- _].
Qed.

Lemma construct_at_throws i x (b b' : buffer T) w w' :
  construct_at i x b w = (Throws, b', w') -> b' = b.
Proof.
  unfold construct_at, bind, get, throw_point, put, undefined.
  case_decide; [|done].
  destruct (sched w) as [|[] rest]; by intros [= <- _].
Qed.

Lemma zoom_local_frame {V A} (l : lens (RawMemory.t T) V) (m : M V A)
    v nd w r v' nd' w' :
  zoom (lens_comp lens_snd l) m (v, nd) w = (r, (v', nd'), w') -> v' = v.
Proof.
  unfold zoom. simpl. destruct (m (view l nd) w) as [[r1 x] w1].
  by intros [= _ <- _ _].
Qed.

(** With a [noexcept] move constructor the transfer cannot throw;
    otherwise, for a type that can be copied, it copies and leaves
    [this] as it was. *)
Lemma never_throws_transfer j n i :
  is_nothrow_move_constructible = true -> never_throws (Vector.transfer j n i).
Proof.
  intros Hn. unfold Vector.transfer. rewrite Hn. simpl.
  auto using never_throws_uninitialized_move_n with nothrow.
Qed.

Lemma transfer_frame j n i v nd w r v' nd' w' :
  is_nothrow_move_constructible || is_copy_constructible = true ->
  Vector.transfer j n i (v, nd) w = (r, (v', nd'), w') ->
  is_nothrow_move_constructible = true \/ v' = v.
Proof.
  intros Htraits. unfold Vector.transfer.
  destruct is_nothrow_move_constructible eqn:Hn; simpl; [by left|].
  simpl in Htraits. rewrite Htraits. simpl.
  rewrite bind_get. intros Ht. right.
  by apply zoom_local_frame in Ht.
Qed.

Lemma never_throws_commit n :
  never_throws
    (zoom (lens_comp lens_fst Vector.block) (destroy_n (T := T) 0 n);;
     RawMemory.Swap (lens_comp lens_fst Vector.data_l) lens_snd).
Proof.
  auto using never_throws_destroy_n, never_throws_RawMemory_Swap with nothrow.
Qed.

(** The reallocating part of [PushBack] and [EmplaceBack]. *)
Lemma append_growth_throws x n v nd w v' nd' w' :
  is_nothrow_move_constructible || is_copy_constructible = true ->
  (zoom (lens_comp lens_snd RawMemory.buffer_l) (construct_at n x);;
   Vector.transfer 0 n 0;;
   zoom (lens_comp lens_fst Vector.block) (destroy_n 0 n);;
   RawMemory.Swap (lens_comp lens_fst Vector.data_l) lens_snd) (v, nd) w
  = (Throws, (v', nd'), w') ->
  v' = v.
Proof.
  intros Htraits [H1|(? & [v1 nd1] & w1 & H1 & H2)]%bind_throws_inv.
  { by apply zoom_local_frame in H1. }
  apply zoom_local_frame in H1 as ->.
  apply bind_throws_inv in H2 as [H2|(? & [v2 nd2] & w2 & H2 & H3)].
  - destruct (transfer_frame _ _ _ _ _ _ _ _ _ _ Htraits H2) as [Hn|Hv]; [|done].
    by apply never_throws_transfer in H2.
  - by apply never_throws_commit in H3.
Qed.

(** The reallocating part of [Emplace]. *)
Lemma insert_growth_throws x i n v nd w v' nd' w' :
  is_nothrow_move_constructible || is_copy_constructible = true ->
  (zoom (lens_comp lens_snd RawMemory.buffer_l) (construct_at i x);;
   Vector.transfer 0 i 0;;
   Vector.transfer i (n - i) (i + 1);;
   zoom (lens_comp lens_fst Vector.block) (destroy_n 0 n);;
   RawMemory.Swap (lens_comp lens_fst Vector.data_l) lens_snd) (v, nd) w
  = (Throws, (v', nd'), w') ->
  v' = v.
Proof.
  intros Htraits [H1|(? & [v1 nd1] & w1 & H1 & H2)]%bind_throws_inv.
  { by apply zoom_local_frame in H1. }
  apply zoom_local_frame in H1 as ->.
  apply bind_throws_inv in H2 as [H2|(? & [v2 nd2] & w2 & H2 & H3)].
  { destruct (transfer_frame _ _ _ _ _ _ _ _ _ _ Htraits H2) as [Hn|Hv]; [|done].
    by apply never_throws_transfer in H2. }
  apply bind_throws_inv in H3 as [H3|(? & [v3 nd3] & w3 & H3 & H4)].
  - destruct (transfer_frame _ _ _ _ _ _ _ _ _ _ Htraits H2) as [Hn| ->].
    { by apply never_throws_transfer in H3. }
    destruct (transfer_frame _ _ _ _ _ _ _ _ _ _ Htraits H3) as [Hn|Hv]; [|done].
    by apply never_throws_transfer in H3.
  - by apply never_throws_commit in H4.
Qed.

Lemma with_local_throws {St A} nd (m : M (St * RawMemory.t T) A) s w s' w' :
  with_local nd RawMemory.dtor m s w = (Throws, s', w') ->
  exists nd', m (s, nd) w = (Throws, (s', nd'), w').
Proof.
  rewrite with_local_raw.
  destruct (m (s, nd) w) as [[r [s1 nd1]] w1]. simpl.
  intros [= -> -> ->]. by exists nd1.
Qed.

Lemma put_size_never_throws n : never_throws (zoom (Vector.size_l (T := T)) (put n)).
Proof. auto with nothrow. Qed.

Lemma never_throws_index {St} (this : lens St (RawMemory.t T)) i :
  never_throws (RawMemory.index this i).
Proof.
  unfold RawMemory.index. apply never_throws_bind; [auto with nothrow|].
  intros s. apply never_throws_bind; [|auto with nothrow].
  intros s0 w s' w'. unfold assert. by destruct (i <? _).
Qed.

(** On the in-place path of [Emplace], before [end()], no exception
    gets out: the handler hands [end()], an address inside the block,
    to [operator delete]. *)
Lemma Emplace_in_place_never_throws pos x v w v' w' :
  Vector.Size v < Vector.Capacity v -> pos < Vector.Size v ->
  Vector.Emplace pos x v w <> (Throws, v', w').
Proof.
  intros Hspare Hpos. unfold Vector.Size in *. unfold Vector.Emplace.
  rewrite bind_get.
  rewrite bind_assert by (apply Nat.leb_le; lia).
  rewrite (proj2 (Nat.leb_gt _ _)) by done.
  apply never_throws_bind; [|intros []; auto using never_throws_index with nothrow].
  intros s0 w0 s1 w1. unfold try_catch.
  destruct (_ s0 w0) as [[[[]| | |] s2] w2]; try done.
  unfold Vector.operator_delete, bind, get.
  by rewrite (proj2 (Nat.eqb_neq _ _)) by lia.
Qed.

(** C1, as the code has it.  For an element type that is nothrow-move-
    constructible or copy-constructible, an exception that leaves
    [Reserve], [PushBack], [EmplaceBack], or an [Emplace] that has to
    reallocate, leaves the vector exactly as it was: same block, same
    capacity, same size. *)
Theorem reallocation_strong_guarantee v w v' w' :
  is_nothrow_move_constructible || is_copy_constructible = true ->
  (forall c, Vector.Reserve c v w = (Throws, v', w') -> v' = v) /\
  (forall x, Vector.PushBack x v w = (Throws, v', w') -> v' = v) /\
  (forall x, Vector.EmplaceBack x v w = (Throws, v', w') -> v' = v) /\
  (forall pos x, Vector.Capacity v <= Vector.Size v ->
                 Vector.Emplace pos x v w = (Throws, v', w') -> v' = v).
Proof.
  intros Htraits. split_and!.
  - intros c. unfold Vector.Reserve. rewrite bind_get.
    destruct (c <=? Vector.Capacity v); [done|].
    intros [H1|(nd & v1 & w1 & H1 & H2)]%bind_throws_inv.
    { by apply RawMemory_ctor_frame in H1. }
    apply RawMemory_ctor_frame in H1 as ->.
    apply with_local_throws in H2 as [nd' H2].
    apply bind_throws_inv in H2 as [H2|(? & [v2 nd2] & w2 & H2 & H3)].
    + destruct (transfer_frame _ _ _ _ _ _ _ _ _ _ Htraits H2) as [Hn|Hv]; [|done].
      by apply never_throws_transfer in H2.
    + by apply never_throws_commit in H3.
  - intros x. unfold Vector.PushBack. rewrite bind_get.
    intros [H1|(? & v1 & w1 & _ & H2)]%bind_throws_inv;
      [|by apply put_size_never_throws in H2].
    destruct (Vector.Capacity v <=? Vector.size_ v).
    + apply bind_throws_inv in H1 as [H1|(nd & v1 & w1 & H1 & H2)].
      { by apply RawMemory_ctor_frame in H1. }
      apply RawMemory_ctor_frame in H1 as ->.
      apply with_local_throws in H2 as [nd' H2].
      by apply append_growth_throws in H2.
    + unfold zoom in H1.
      destruct (construct_at _ _ _ _) as [[r b'] w1] eqn:E.
      injection H1 as -> <- ->. apply construct_at_throws in E as ->.
      by destruct v as [[b c] n].
  - intros x. unfold Vector.EmplaceBack. rewrite bind_get.
    intros [H1|(? & v1 & w1 & _ & H2)]%bind_throws_inv.
    2:{ apply bind_throws_inv in H2 as [H2|(? & v2 & w2 & _ & H3)];
          [by apply put_size_never_throws in H2
          |by apply never_throws_index in H3]. }
    destruct (Vector.Capacity v <=? Vector.size_ v).
    + apply bind_throws_inv in H1 as [H1|(nd & v1 & w1 & H1 & H2)].
      { by apply RawMemory_ctor_frame in H1. }
      apply RawMemory_ctor_frame in H1 as ->.
      apply with_local_throws in H2 as [nd' H2].
      by apply append_growth_throws in H2.
    + unfold zoom in H1.
      destruct (construct_at _ _ _ _) as [[r b'] w1] eqn:E.
      injection H1 as -> <- ->. apply construct_at_throws in E as ->.
      by destruct v as [[b c] n].
  - intros pos x Hfull. unfold Vector.Emplace. rewrite bind_get.
    intros [H0|(? & v0 & w0 & H0 & H1)]%bind_throws_inv.
    { unfold assert in H0. by destruct (pos <=? Vector.size_ v). }
    assert (v0 = v) as ->.
    { unfold assert in H0. by injection H0 as _ <- _. }
    apply bind_throws_inv in H1 as [H1|(? & v1 & w1 & _ & H2)].
    2:{ apply bind_throws_inv in H2 as [H2|(? & v2 & w2 & _ & H3)];
          [by apply put_size_never_throws in H2|done]. }
    rewrite (proj2 (Nat.leb_le _ _)) in H1 by done.
    apply bind_throws_inv in H1 as [H1|(nd & v1 & w1' & H1 & H2)].
    { by apply RawMemory_ctor_frame in H1. }
    apply RawMemory_ctor_frame in H1 as ->.
    apply with_local_throws in H2 as [nd' H2].
    by apply insert_growth_throws in H2.
Qed.
End Strong_guarantee.

(** * The claims about several vectors *)

(** * The claims about several vectors *)

Section Stores.
Context {T : Type} `{Element T}.
Implicit Types (v : Vector.t T) (s : Vector.store T) (l : list T) (w : World).

Lemma view_update_eq a v s :
  view (Vector.obj a) (update (Vector.obj a) v s) = v.
Proof. unfold Vector.obj. cbn [view update]. by rewrite lookup_insert_eq. Qed.

Lemma view_update_ne a x v s :
  x <> a -> view (Vector.obj x) (update (Vector.obj a) v s) = view (Vector.obj x) s.
Proof.
  intros Hx. unfold Vector.obj. cbn [view update]. by rewrite lookup_insert_ne.
Qed.

Lemma view_empty a : view (Vector.obj a) (∅ : Vector.store T) = Vector.of_list [] 0.
Proof. unfold Vector.obj. cbn [view]. by rewrite lookup_empty. Qed.

(** [std::swap] of one field of two objects of the store, which may
    be the same object. *)
Lemma std_swap_field {X} (f : lens (Vector.t T) X) a b s w :
  (forall v, update f (view f v) v = v) ->
  exists s',
    std_swap (lens_comp (Vector.obj a) f) (lens_comp (Vector.obj b) f) s w
    = (Returns tt, s', w) /\
    view (Vector.obj b) s'
    = update f (view f (view (Vector.obj a) s)) (view (Vector.obj b) s) /\
    (a <> b ->
     view (Vector.obj a) s'
     = update f (view f (view (Vector.obj b) s)) (view (Vector.obj a) s)) /\
    (forall x, x <> a -> x <> b -> view (Vector.obj x) s' = view (Vector.obj x) s).
Proof.
  intros Hlaw. unfold std_swap, bind, get, modify.
  eexists. split; [reflexivity|].
  cbn [view update lens_comp]. split_and!.
  - rewrite view_update_eq.
    destruct (decide (a = b)) as [->|Hab].
    + by rewrite view_update_eq, Hlaw.
    + by rewrite view_update_ne by done.
  - intros Hab. by rewrite view_update_ne, view_update_eq by done.
  - intros x Hxa Hxb. by rewrite !view_update_ne by done.
Qed.

Lemma buffer_law v :
  update (lens_comp Vector.data_l RawMemory.buffer_l)
    (view (lens_comp Vector.data_l RawMemory.buffer_l) v) v = v.
Proof. by destruct v as [[b c] n]. Qed.

Lemma capacity_law v :
  update (lens_comp Vector.data_l RawMemory.capacity_l)
    (view (lens_comp Vector.data_l RawMemory.capacity_l) v) v = v.
Proof. by destruct v as [[b c] n]. Qed.

Lemma size_law v : update Vector.size_l (view Vector.size_l v) v = v.
Proof. by destruct v as [[b c] n]. Qed.

(** [Swap] exchanges the two objects, and is the identity when both
    are the same object. *)
Lemma Swap_objects a b s w :
  exists s',
    Vector.Swap (Vector.obj a) (Vector.obj b) s w = (Returns tt, s', w) /\
    view (Vector.obj b) s' = view (Vector.obj a) s /\
    (a <> b -> view (Vector.obj a) s' = view (Vector.obj b) s) /\
    (forall x, x <> a -> x <> b -> view (Vector.obj x) s' = view (Vector.obj x) s).
Proof.
  destruct (std_swap_field _ a b s w buffer_law) as (s1 & E1 & Hb1 & Ha1 & Hx1).
  destruct (std_swap_field _ a b s1 w capacity_law) as (s2 & E2 & Hb2 & Ha2 & Hx2).
  destruct (std_swap_field _ a b s2 w size_law) as (s3 & E3 & Hb3 & Ha3 & Hx3).
  exists s3. split_and!.
  - unfold Vector.Swap, RawMemory.Swap. rewrite bind_bind.
    erewrite bind_returns; [|exact E1].
    erewrite bind_returns; [|exact E2].
    exact E3.
  - rewrite Hb3, Hb2, Hb1.
    destruct (decide (a = b)) as [->|Hab].
    + rewrite Hb2, Hb1. by destruct (view (Vector.obj b) s) as [[? ?] ?].
    + rewrite Ha2, Ha1 by done.
      by destruct (view (Vector.obj a) s) as [[? ?] ?],
                  (view (Vector.obj b) s) as [[? ?] ?].
  - intros Hab. rewrite Ha3, Ha2, Ha1, Hb2, Hb1 by done.
    by destruct (view (Vector.obj a) s) as [[? ?] ?],
                (view (Vector.obj b) s) as [[? ?] ?].
  - intros x Hxa Hxb. by rewrite Hx3, Hx2, Hx1.
Qed.
(** C9. Self-assignment is the identity: the copy assignment returns
    at once with the store untouched, and the move assignment swaps
    the object with itself, which leaves every object of the store,
    hence the size, the capacity and the elements of the vector, as
    they were. *)
Theorem self_assignment_identity a s w :
  Vector.op_assign a a s w = (Returns tt, s, w) /\
  exists s',
    Vector.op_assign_move a a s w = (Returns tt, s', w) /\
    (forall x, view (Vector.obj x) s' = view (Vector.obj x) s) /\
    Vector.Size (view (Vector.obj a) s') = Vector.Size (view (Vector.obj a) s) /\
    Vector.Capacity (view (Vector.obj a) s')
    = Vector.Capacity (view (Vector.obj a) s) /\
    Vector.elements (view (Vector.obj a) s')
    = Vector.elements (view (Vector.obj a) s).
Proof.
  split.
  - unfold Vector.op_assign. by rewrite decide_False by (by intros []).
  - destruct (Swap_objects a a s w) as (s' & E & Ha & _ & Hx).
    exists s'. unfold Vector.op_assign_move.
    split_and!; [done| |by rewrite Ha..].
    intros x. destruct (decide (x = a)) as [->|Hxa]; [done|by apply Hx].
Qed.

Lemma zoom_field {X A} (f : lens (Vector.t T) X) (m : M X A) a s x0 w r x' w' :
  m x0 w = (r, x', w') -> view f (view (Vector.obj a) s) = x0 ->
  zoom (lens_comp (Vector.obj a) f) m s w
  = (r, update (Vector.obj a) (update f x' (view (Vector.obj a) s)) s, w').
Proof.
  intros Hm <-.
  exact (zoom_at (lens_comp (Vector.obj a) f) m s _ w r x' w' Hm eq_refl).
Qed.

(** [Swap] of an object of the store with a local vector. *)
Lemma Swap_with_local a s (c : Vector.t T) w :
  exists s',
    Vector.Swap (lens_comp lens_fst (Vector.obj a)) lens_snd (s, c) w
    = (Returns tt, (s', view (Vector.obj a) s), w) /\
    view (Vector.obj a) s' = c /\
    (forall x, x <> a -> view (Vector.obj x) s' = view (Vector.obj x) s).
Proof.
  unfold Vector.Swap, RawMemory.Swap, std_swap, bind, get, modify.
  eexists. split_and!.
  - cbn [view update lens_comp lens_fst lens_snd fst snd
         Vector.data_l Vector.size_l RawMemory.buffer_l RawMemory.capacity_l].
    apply (f_equal (fun p => (Returns tt, p, w))).
    apply (f_equal2 pair); [reflexivity|].
    rewrite !view_update_eq. cbn [Vector.data_ Vector.size_
      RawMemory.buffer_ RawMemory.capacity_].
    by destruct (view (Vector.obj a) s) as [[? ?] ?].
  - rewrite !view_update_eq. cbn [Vector.data_ Vector.size_
      RawMemory.buffer_ RawMemory.capacity_]. by destruct c as [[? ?] ?].
  - intros x Hx. by rewrite !view_update_ne.
Qed.

Lemma dtor_of_list l k w :
  exists v', Vector.dtor (Vector.of_list l k) w = (Returns tt, v', w).
Proof.
  unfold Vector.dtor. rewrite bind_get. eexists.
  zstep (destroy_n_live 0 (length l) l [] (replicate k None) w eq_refl eq_refl);
    [|done].
  reflexivity.
Qed.

Lemma op_assign_quiet this other s la ka lb kb w :
  this <> other ->
  view (Vector.obj this) s = Vector.of_list la ka ->
  view (Vector.obj other) s = Vector.of_list lb kb ->
  quiet w ->
  exists s',
    Vector.op_assign this other s w = (Returns tt, s', w) /\
    view (Vector.obj this) s'
    = Vector.of_list lb (if length lb <=? length la + ka
                         then length la + ka - length lb else 0) /\
    (forall x, x <> this -> view (Vector.obj x) s' = view (Vector.obj x) s).
Proof.
  intros Hne Hthis Hother Hw. unfold Vector.op_assign.
  rewrite decide_True by done. rewrite bind_get. cbv zeta.
  rewrite Hthis, Hother.
  unfold Vector.Capacity, RawMemory.Capacity.
  cbn [Vector.of_list Vector.data_ Vector.size_ RawMemory.capacity_].
  destruct (Nat.leb_spec (length lb) (length la + ka)) as [Hfits|Hgrow].
  - destruct (Nat.leb_spec (length la) (length lb)) as [Hle|Hgt].
    + destruct (split_at lb (length la) Hle) as (lb1 & lb2 & -> & Hlb1).
      replace (view Vector.block (Vector.of_list (lb1 ++ lb2) kb))
        with ((Some <$> lb1) ++ (Some <$> lb2) ++ replicate kb None)
        by (unfold Vector.of_list; lens_simpl; by rewrite fmap_app, <- app_assoc).
      pose proof (std_copy_quiet lb1 0 (length la) 0 []
                    ((Some <$> lb2) ++ replicate kb None) [] la (replicate ka None) w
                    ltac:(lia) eq_refl eq_refl ltac:(lia) Hw) as E1.
      pose proof (uninitialized_copy_n_quiet lb2 (length la)
                    (length (lb1 ++ lb2) - length la) (length la)
                    (Some <$> lb1) (replicate kb None) (Some <$> lb1)
                    (replicate (length lb2) None)
                    (replicate (ka - length lb2) None) w
                    ltac:(len) ltac:(len) ltac:(len) ltac:(len) Hw) as E2.
      eexists. split_and!.
      * rewrite bind_bind.
        erewrite bind_returns;
          [|apply (zoom_field Vector.block _ this s _ w _ _ _ E1); by rewrite Hthis].
        erewrite bind_returns.
        2:{ apply (zoom_field Vector.block _ this _ _ w _ _ _ E2).
            rewrite view_update_eq, Hthis. unfold Vector.of_list. lens_simpl.
            simpl. f_equal. rewrite <- replicate_add. f_equal. len. }
        apply (zoom_field Vector.size_l _ this _ _ w _ _ _
                 (put_run _ (length (lb1 ++ lb2)) w) eq_refl).
      * rewrite !view_update_eq, Hthis. unfold Vector.of_list. lens_simpl.
        apply vector_eq; [|len|done].
        rewrite fmap_app, <- app_assoc. do 3 f_equal. len.
      * intros x Hx. by rewrite !view_update_ne.
    + destruct (split_at la (length lb)) as (la1 & la2 & -> & Hla1); [lia|].
      pose proof (std_copy_quiet lb 0 (length lb) 0 [] (replicate kb None) [] la1
                    ((Some <$> la2) ++ replicate ka None) w
                    eq_refl eq_refl eq_refl Hla1 Hw) as E1.
      pose proof (destroy_n_live (length lb) (length (la1 ++ la2) - length lb) la2
                    (Some <$> lb) (replicate ka None) w
                    ltac:(len) ltac:(len)) as E2.
      eexists. split_and!.
      * rewrite bind_bind.
        erewrite bind_returns.
        2:{ apply (zoom_field Vector.block _ this s _ w _ _ _ E1).
            rewrite Hthis. unfold Vector.of_list. lens_simpl.
            by rewrite fmap_app, <- app_assoc. }
        erewrite bind_returns.
        2:{ apply (zoom_field Vector.block _ this _ _ w _ _ _ E2).
            rewrite view_update_eq, Hthis. by unfold Vector.of_list. }
        apply (zoom_field Vector.size_l _ this _ _ w _ _ _
                 (put_run _ (length lb) w) eq_refl).
      * rewrite !view_update_eq, Hthis. unfold Vector.of_list. lens_simpl.
        apply vector_eq; [|len|done].
        rewrite <- replicate_add. do 2 f_equal. len.
      * intros x Hx. by rewrite !view_update_ne.
  - step (copy_ctor_quiet lb kb s w Hw).
    destruct (Swap_with_local this s (Vector.of_list lb 0) w) as (s' & E & Hv & Hx).
    destruct (dtor_of_list la ka w) as [v' Ed].
    exists s'. split_and!; [|done..].
    rewrite Hthis in E. by rewrite (with_local_returns _ _ _ _ _ _ _ _ _ _ _ E Ed).
Qed.
Lemma copy_ctor_frame {St} (o : Vector.t T) (st st' : St) w w' r :
  Vector.copy_ctor o st w = (r, st', w') -> st' = st.
Proof.
  unfold Vector.copy_ctor, bind.
  destruct (RawMemory.ctor _ st w) as [[r1 st1] w1] eqn:E.
  apply RawMemory_ctor_frame in E as ->.
  destruct r1 as [data| | |]; try by intros [= _ <- _].
  unfold construct.
  destruct (zoom _ _ _ _) as [[[[]| | |] v1] w2]; by intros [= _ <- _].
Qed.

Lemma never_throws_with_local {St L A} (init : L) (dtor : M L unit)
    (m : M (St * L) A) :
  never_throws m -> never_throws dtor -> never_throws (with_local init dtor m).
Proof.
  intros Hm Hd st w st' w'. unfold with_local.
  destruct (m (st, init) w) as [[[a| | |] [st1 l1]] w1] eqn:Em; try done.
  - destruct (dtor l1 w1) as [[[[]| | |] l2] w2] eqn:Ed; try done.
    by apply Hd in Ed.
  - by apply Hm in Em.
Qed.

Lemma never_throws_dtor : never_throws (Vector.dtor (T := T)).
Proof.
  unfold Vector.dtor, RawMemory.dtor.
  apply never_throws_bind; [auto with nothrow|]. intros v.
  auto using never_throws_destroy_n with nothrow.
Qed.

Lemma never_throws_Swap {St} (a b : lens St (Vector.t T)) :
  never_throws (Vector.Swap a b).
Proof.
  unfold Vector.Swap. auto using never_throws_RawMemory_Swap with nothrow.
Qed.

(** C7. The copy assignment [a = b]: when nothing throws it returns,
    and on every schedule a call that returns has left the store [s0],
    in which [a] is well formed and has the size and the elements of
    [b], [b] is as before, and [a] has kept its capacity when [b]'s size
    fitted in it.  When [b]'s size exceeds [a]'s capacity and the copy
    throws, the store is left exactly as it was. *)
Theorem copy_assignment a b s w :
  Vector.wf (view (Vector.obj a) s) ->
  Vector.wf (view (Vector.obj b) s) ->
  (exists s0,
     (quiet w -> Vector.op_assign a b s w = (Returns tt, s0, w)) /\
     (forall r s1 w1, Vector.op_assign a b s w = (Returns r, s1, w1) -> s1 = s0) /\
     Vector.wf (view (Vector.obj a) s0) /\
     Vector.Size (view (Vector.obj a) s0) = Vector.Size (view (Vector.obj b) s) /\
     Vector.elements (view (Vector.obj a) s0)
     = Vector.elements (view (Vector.obj b) s) /\
     view (Vector.obj b) s0 = view (Vector.obj b) s /\
     (Vector.Size (view (Vector.obj b) s) <= Vector.Capacity (view (Vector.obj a) s) ->
      Vector.Capacity (view (Vector.obj a) s0)
      = Vector.Capacity (view (Vector.obj a) s))) /\
  (Vector.Capacity (view (Vector.obj a) s) < Vector.Size (view (Vector.obj b) s) ->
   forall s' w', Vector.op_assign a b s w = (Throws, s', w') -> s' = s).
Proof.
  intros Hwa Hwb.
  destruct (decide (a = b)) as [->|Hab].
  - split.
    + exists s. unfold Vector.op_assign.
      rewrite decide_False by (by intros []).
      split_and!; try done. by intros r s1 w1 [= _ <- _].
    + intros _ s' w'. unfold Vector.op_assign.
      by rewrite decide_False by (by intros []).
  - destruct (wf_is_of_list _ Hwa) as (la & ka & Ea).
    destruct (wf_is_of_list _ Hwb) as (lb & kb & Eb).
    split.
    + destruct (op_assign_quiet a b s la ka lb kb (hush w) Hab Ea Eb eq_refl)
        as (s0 & E & Hv & Hx).
      exists s0. rewrite Hv, (Hx b) by done. rewrite Ea, Eb, !elements_of_list.
      unfold Vector.Size, Vector.Capacity, RawMemory.Capacity. simpl.
      split_and!; [| |apply wf_of_list|done..|].
      * intros Hw. by rewrite <- (hush_quiet w Hw).
      * intros r s1 w1 Hr.
        exact (proj2 (returns_as_quiet _ _ _ _ _ _ _ _ (steady_op_assign _ _) E Hr)).
      * intros Hfits. rewrite (proj2 (Nat.leb_le _ _)) by done. lia.
    + rewrite Ea, Eb. unfold Vector.Size, Vector.Capacity, RawMemory.Capacity.
      simpl. intros Hgrow s' w'. unfold Vector.op_assign.
      rewrite decide_True by done. rewrite bind_get. cbv zeta.
      rewrite Ea, Eb. unfold Vector.Capacity, RawMemory.Capacity.
      cbn [Vector.of_list Vector.data_ Vector.size_ RawMemory.capacity_].
      rewrite (proj2 (Nat.leb_gt _ _)) by done.
      intros [H1|(c & s1 & w1 & _ & H2)]%bind_throws_inv.
      * by apply copy_ctor_frame in H1.
      * exfalso. revert H2.
        apply never_throws_with_local;
          auto using never_throws_Swap, never_throws_dtor.
Qed.
(** *** Sequences of calls *)

Implicit Types (m : contents T).

Lemma represents_lookup s m a :
  represents s m -> exists k, view (Vector.obj a) s = Vector.of_list (m a) k.
Proof.
  intros Hr. destruct (Hr a) as [Hwf <-].
  destruct (wf_canonical _ Hwf) as [Hv _]. eauto.
Qed.

Lemma represents_update s m a l k :
  represents s m ->
  represents (update (Vector.obj a) (Vector.of_list l k) s) (set_contents a l m).
Proof.
  intros Hr x. unfold set_contents.
  destruct (decide (x = a)) as [->|Hx].
  - rewrite view_update_eq, elements_of_list. split; [apply wf_of_list|done].
  - rewrite view_update_ne by done. apply Hr.
Qed.

Lemma represents_empty : represents (T := T) ∅ (fun _ => []).
Proof.
  intros a. rewrite view_empty, elements_of_list. split; [apply wf_of_list|done].
Qed.

(** A call on one object that turns the sequence [m a] into [l']. *)
Lemma exec_on_object {A} (op : M (Vector.t T) A) s m a l' w :
  represents s m ->
  (forall k, exists r k',
      op (Vector.of_list (m a) k) w = (Returns r, Vector.of_list l' k', w)) ->
  exists r s',
    zoom (Vector.obj a) op s w = (Returns r, s', w)
    /\ represents s' (set_contents a l' m).
Proof.
  intros Hr Hop. destruct (represents_lookup s m a Hr) as [k Ek].
  destruct (Hop k) as (r & k' & E).
  exists r, (update (Vector.obj a) (Vector.of_list l' k') s). split.
  - by apply (zoom_at _ _ _ _ _ _ _ _ E).
  - by apply represents_update.
Qed.

Lemma move_ctor_object b s w :
  exists s',
    Vector.move_ctor (Vector.obj b) s w = (Returns (view (Vector.obj b) s), s', w) /\
    view (Vector.obj b) s' = Vector.of_list [] 0 /\
    (forall x, x <> b -> view (Vector.obj x) s' = view (Vector.obj x) s).
Proof.
  unfold Vector.move_ctor, RawMemory.move_ctor, std_exchange, bind, get, modify, ret.
  eexists. split_and!.
  - cbn [view update lens_comp Vector.data_l Vector.size_l
         RawMemory.buffer_l RawMemory.capacity_l].
    apply (f_equal (fun r => (Returns r, _, w))).
    rewrite !view_update_eq.
    cbn [Vector.data_ Vector.size_ RawMemory.buffer_ RawMemory.capacity_].
    by destruct (view (Vector.obj b) s) as [[? ?] ?].
  - by rewrite !view_update_eq.
  - intros x Hx. by rewrite !view_update_ne.
Qed.
Lemma represents_ext s m m' :
  represents s m -> (forall x, m x = m' x) -> represents s m'.
Proof. intros Hr Hm x. rewrite <- Hm. apply Hr. Qed.

Lemma Emplace_at pos x l k w :
  pos <= length l -> quiet w ->
  exists r k',
    Vector.Emplace pos x (Vector.of_list l k) w
    = (Returns r, Vector.of_list (take pos l ++ x :: drop pos l) k', w).
Proof.
  intros Hpos Hw.
  pose proof (Emplace_of_list (take pos l) (drop pos l) x k w Hw) as E.
  rewrite take_drop, length_take, Nat.min_l in E by lia.
  eexists _, _. exact E.
Qed.

Lemma Erase_at pos l k w :
  pos < length l -> quiet w ->
  exists r k',
    Vector.Erase pos (Vector.of_list l k) w
    = (Returns r, Vector.of_list (take pos l ++ drop (S pos) l) k', w).
Proof.
  intros Hpos Hw.
  destruct (drop pos l) as [|x l2] eqn:Hd.
  { apply (f_equal length) in Hd. rewrite length_drop in Hd. simpl in Hd. lia. }
  assert (drop (S pos) l = l2) as ->.
  { replace (S pos) with (pos + 1) by lia. by rewrite <- drop_drop, Hd. }
  pose proof (Erase_of_list (take pos l) x l2 k w Hw) as E.
  rewrite <- Hd, take_drop, length_take, Nat.min_l in E by lia.
  eexists _, _. exact E.
Qed.

Lemma PopBack_at l k w :
  length l <> 0 ->
  exists r k',
    Vector.PopBack (Vector.of_list l k) w
    = (Returns r, Vector.of_list (take (length l - 1) l) k', w).
Proof.
  intros Hl. destruct (snoc_cases l) as (l' & x & ->); [lia|].
  rewrite length_app. simpl.
  replace (length l' + 1 - 1) with (length l') by lia.
  rewrite take_app_length.
  eexists _, _. by apply PopBack_of_list.
Qed.

Lemma Reserve_at n l k w :
  quiet w ->
  exists r k',
    Vector.Reserve n (Vector.of_list l k) w = (Returns r, Vector.of_list l k', w).
Proof.
  intros Hw. destruct (Nat.le_gt_cases n (length l + k)).
  - eexists _, _. by apply Reserve_of_list_fits.
  - eexists _, _. by apply Reserve_of_list_grows.
Qed.

(** Every call whose precondition holds returns, and leaves the store
    well formed with the expected sequences. *)
Lemma exec_expected c s m m' w :
  represents s m -> expect c m = Some m' -> quiet w ->
  exists s', exec c s w = (Returns tt, s', w) /\ represents s' m'.
Proof.
  intros Hr He Hw. destruct c as [a x|a x|a pos x|a pos x|a pos|a|a n|a n
                                  |a b|a b|a b|a b|a b];
    cbn [exec expect] in *.
  - injection He as <-.
    destruct (exec_on_object (Vector.PushBack x) s m a (m a ++ [x]) w Hr)
      as ([] & s' & E & Hr'); [|by exists s'].
    intros k. eexists _, _. by apply PushBack_of_list.
  - injection He as <-.
    destruct (exec_on_object (Vector.EmplaceBack x) s m a (m a ++ [x]) w Hr)
      as (r & s' & E & Hr').
    { intros k. eexists _, _. by apply EmplaceBack_of_list. }
    exists s'. by rewrite (bind_returns _ _ _ _ _ _ _ E).
  - destruct (Nat.leb_spec pos (length (m a))) as [Hpos|]; [|done].
    injection He as <-.
    destruct (exec_on_object (Vector.Insert pos x) s m a
                (take pos (m a) ++ x :: drop pos (m a)) w Hr)
      as (r & s' & E & Hr').
    { intros k. by apply Emplace_at. }
    exists s'. by rewrite (bind_returns _ _ _ _ _ _ _ E).
  - destruct (Nat.leb_spec pos (length (m a))) as [Hpos|]; [|done].
    injection He as <-.
    destruct (exec_on_object (Vector.Emplace pos x) s m a
                (take pos (m a) ++ x :: drop pos (m a)) w Hr)
      as (r & s' & E & Hr').
    { intros k. by apply Emplace_at. }
    exists s'. by rewrite (bind_returns _ _ _ _ _ _ _ E).
  - destruct (Nat.ltb_spec pos (length (m a))) as [Hpos|]; [|done].
    injection He as <-.
    destruct (exec_on_object (Vector.Erase pos) s m a
                (take pos (m a) ++ drop (S pos) (m a)) w Hr)
      as (r & s' & E & Hr').
    { intros k. by apply Erase_at. }
    exists s'. by rewrite (bind_returns _ _ _ _ _ _ _ E).
  - destruct (Nat.eqb_spec (length (m a)) 0) as [|Hlen]; [done|].
    injection He as <-.
    destruct (exec_on_object Vector.PopBack s m a
                (take (length (m a) - 1) (m a)) w Hr)
      as ([] & s' & E & Hr'); [|by exists s'].
    intros k. by apply PopBack_at.
  - injection He as <-.
    destruct (exec_on_object (Vector.Reserve n) s m a (m a) w Hr)
      as ([] & s' & E & Hr').
    { intros k. by apply Reserve_at. }
    exists s'. split; [done|]. apply (represents_ext _ _ _ Hr').
    intros x. unfold set_contents. by destruct (decide (x = a)) as [->|].
  - injection He as <-.
    destruct (exec_on_object (Vector.Resize n) s m a
                (take n (m a) ++ replicate (n - length (m a)) value_initialized)
                w Hr)
      as ([] & s' & E & Hr'); [|by exists s'].
    intros k. destruct (Resize_of_list (m a) k n w Hw) as [k' E]. by exists tt, k'.
  - injection He as <-.
    destruct (represents_lookup s m b Hr) as [k Ek].
    exists (update (Vector.obj a) (Vector.of_list (m b) 0) s). split.
    + rewrite bind_get, Ek.
      step (copy_ctor_quiet (m b) k s w Hw).
      reflexivity.
    + by apply represents_update.
  - injection He as <-.
    destruct (represents_lookup s m b Hr) as [k Ek].
    destruct (move_ctor_object b s w) as (s1 & E & Hb & Hx).
    exists (update (Vector.obj a) (Vector.of_list (m b) k) s1). split.
    + step E. rewrite Ek. reflexivity.
    + apply represents_update. intros x. unfold set_contents.
      destruct (decide (x = b)) as [->|Hxb].
      * rewrite Hb, elements_of_list. split; [apply wf_of_list|done].
      * rewrite Hx by done. apply Hr.
  - injection He as <-.
    destruct (decide (a = b)) as [->|Hab].
    + exists s. split.
      * unfold Vector.op_assign. by rewrite decide_False by (by intros []).
      * apply (represents_ext _ _ _ Hr).
        intros x. unfold set_contents. by destruct (decide (x = b)) as [->|].
    + destruct (represents_lookup s m a Hr) as [ka Ea].
      destruct (represents_lookup s m b Hr) as [kb Eb].
      destruct (op_assign_quiet a b s _ _ _ _ w Hab Ea Eb Hw) as (s' & E & Hv & Hx).
      exists s'. split; [done|]. intros x. unfold set_contents.
      destruct (decide (x = a)) as [->|Hxa].
      * rewrite Hv, elements_of_list. split; [apply wf_of_list|done].
      * rewrite Hx by done. apply Hr.
  - injection He as <-.
    destruct (Swap_objects a b s w) as (s' & E & Hb & Ha & Hx).
    exists s'. split; [done|]. intros x. unfold set_contents.
    destruct (decide (x = b)) as [->|Hxb]; [rewrite Hb; apply Hr|].
    destruct (decide (x = a)) as [->|Hxa]; [rewrite Ha by done; apply Hr|].
    rewrite Hx by done. apply Hr.
  - injection He as <-.
    destruct (Swap_objects a b s w) as (s' & E & Hb & Ha & Hx).
    exists s'. split; [done|]. intros x. unfold set_contents.
    destruct (decide (x = b)) as [->|Hxb]; [rewrite Hb; apply Hr|].
    destruct (decide (x = a)) as [->|Hxa]; [rewrite Ha by done; apply Hr|].
    rewrite Hx by done. apply Hr.
Qed.

Lemma run_expected cs s m m' w :
  represents s m -> expect_all cs m = Some m' -> quiet w ->
  exists s', run cs s w = (Returns tt, s', w) /\ represents s' m'.
Proof.
  revert s m. induction cs as [|c cs IH]; intros s m Hr He Hw; simpl in *.
  - injection He as <-. by exists s.
  - destruct (expect c m) as [m1|] eqn:Hc; [|done].
    destruct (exec_expected c s m m1 w Hr Hc Hw) as (s1 & E1 & Hr1).
    destruct (IH s1 m1 Hr1 He Hw) as (s' & E & Hr').
    exists s'. split; [|done]. by step E1.
Qed.

(** On a [size_t] that never wraps, start from default-constructed
    vectors and make any sequence of calls of the public interface, each
    within its precondition.  When nothing throws every call returns,
    and a run in which every call has returned has left the store [s0],
    in which every vector is well formed and its live range holds
    exactly the expected values in order. *)
Lemma reachable_invariant cs m' w :
  expect_all cs (fun _ => []) = Some m' ->
  exists s0,
    (quiet w -> run cs ∅ w = (Returns tt, s0, w)) /\
    (forall r s1 w1, run cs ∅ w = (Returns r, s1, w1) -> s1 = s0) /\
    forall a,
      Vector.wf (view (Vector.obj a) s0) /\
      Vector.Size (view (Vector.obj a) s0) <= Vector.Capacity (view (Vector.obj a) s0) /\
      Vector.elements (view (Vector.obj a) s0) = m' a.
Proof.
  intros He.
  destruct (run_expected cs ∅ _ m' (hush w) represents_empty He eq_refl)
    as (s0 & E & Hr).
  exists s0. split_and!.
  - intros Hw. by rewrite <- (hush_quiet w Hw).
  - intros r s1 w1 Hret.
    exact (proj2 (returns_as_quiet _ _ _ _ _ _ _ _ (steady_run _) E Hret)).
  - intros a. destruct (Hr a) as [Hwf Hel].
    split_and!; [done| |done]. apply Hwf.
Qed.
End Stores.

(** * The claims on concrete vectors *)

Section Concrete.
Local Existing Instance throwing_copyable.

Lemma at_index_elements {T} `{Element T} (v : Vector.t T) i x w :
  Vector.wf v -> Vector.elements v !! i = Some x ->
  Vector.at_index i v w = (Returns x, v, w).
Proof.
  intros (l & k & ->)%wf_is_of_list. rewrite elements_of_list. intros Hi.
  pose proof (lookup_lt_Some _ _ _ Hi) as Hlt.
  unfold Vector.at_index. rewrite bind_get.
  rewrite bind_assert by (by apply Nat.ltb_lt).
  step (RawMemory_index_run Vector.data_l i (Vector.of_list l k) w ltac:(simpl; lia)).
  unfold zoom, Vector.of_list, load. lens_simpl. rewrite bind_get.
  by rewrite lookup_app_l, list_lookup_fmap, Hi by len.
Qed.

Lemma PopBack_frame_witness :
  exists v',
    Vector.PopBack (Vector.of_list [1; 2; 3] 1) calm = (Returns tt, v', calm) /\
    Vector.wf v' /\
    Vector.Size v' = 2 /\
    (forall i, i < 2 -> Vector.elements v' !! i = [1; 2; 3] !! i) /\
    Vector.elements v' = [1; 2] /\
    Vector.Capacity v' = 4.
Proof.
  apply (PopBack_frame (Vector.of_list [1; 2; 3] 1) calm).
  - apply wf_of_list.
  - simpl. lia.
Defined.
Lemma PushBack_EmplaceBack_append_witness :
  exists v',
    Vector.PushBack 3 (Vector.of_list [1; 2] 0) calm = (Returns tt, v', calm) /\
    Vector.EmplaceBack 3 (Vector.of_list [1; 2] 0) calm = (Returns 2, v', calm) /\
    Vector.elements v' = [1; 2; 3] /\
    Vector.Capacity v' = 4.
Proof.
  destruct (PushBack_EmplaceBack_append (Vector.of_list [1; 2] 0) 3 calm
              (wf_of_list _ _))
    as (v' & Hq & _ & _ & _ & _ & _ & _ & He & Hc).
  destruct (Hq eq_refl) as [E1 E2].
  exists v'. split_and!; [exact E1|exact E2|exact He|exact Hc].
Defined.

Lemma Emplace_Insert_shifts_right_witness :
  exists v',
    Vector.Insert 1 9 (Vector.of_list [1; 2; 3] 1) calm = (Returns 1, v', calm) /\
    Vector.Size v' = 4 /\
    Vector.elements v' !! 1 = Some 9.
Proof.
  destruct (Emplace_Insert_shifts_right (Vector.of_list [1; 2; 3] 1) 1 9 calm
              (wf_of_list _ _) ltac:(simpl; lia))
    as (v' & Hq & _ & _ & _ & Hs & Hx & _).
  destruct (Hq eq_refl) as [_ E].
  exists v'. split_and!; [exact E|exact Hs|exact Hx].
Defined.

Lemma Erase_shifts_left_witness :
  exists v',
    Vector.Erase 0 (Vector.of_list [1; 9; 2; 3] 0) calm = (Returns 0, v', calm) /\
    Vector.Size v' = 3 /\
    Vector.elements v' !! 0 = Some 9 /\
    Vector.Capacity v' = 4.
Proof.
  destruct (Erase_shifts_left (Vector.of_list [1; 9; 2; 3] 0) 0 calm
              (wf_of_list _ _) ltac:(simpl; lia))
    as (v' & Hq & _ & _ & Hs & _ & _ & Hx & _ & Hc).
  exists v'. split_and!; [exact (Hq eq_refl)|exact Hs|exact Hx|exact Hc].
Defined.


(** The copy of the second element throws in the middle of the
    transfer. *)
Lemma reallocation_strong_guarantee_witness :
  (Vector.PushBack 3 (Vector.of_list [1; 2] 0) (throwing_at 3)).1.1 = Throws /\
  (Vector.PushBack 3 (Vector.of_list [1; 2] 0) (throwing_at 3)).1.2
  = Vector.of_list [1; 2] 0.
Proof.
  split; [reflexivity|].
  apply (proj1 (proj2 (@reallocation_strong_guarantee nat throwing_copyable
                         (Vector.of_list [1; 2] 0) (throwing_at 3)
                         (Vector.PushBack 3 (Vector.of_list [1; 2] 0) (throwing_at 3)).1.2
                         (Vector.PushBack 3 (Vector.of_list [1; 2] 0) (throwing_at 3)).2
                         eq_refl)) 3).
  reflexivity.
Defined.

(** C1 as stated fails for a move-only type whose move constructor
    throws: the elements are transferred by move, and when the second
    move throws the first element has already been moved from. *)
Lemma move_only_transfer_throw_changes_vector :
  @Vector.PushBack nat throwing_move_only _ 3 (Vector.of_list [1; 2] 0) (throwing_at 3)
  = (Throws, Vector.mk (RawMemory.mk [Some 0; Some 2] 2) 2, calm)
  /\ @Vector.elements nat (Vector.mk (RawMemory.mk [Some 0; Some 2] 2) 2)
     <> Vector.elements (Vector.of_list [1; 2] 0).
Proof. split; [reflexivity|]. by vm_compute. Qed.

(** C3 fails on the code.  Insert 9 at the front of [1; 2; 3] held in a
    block of four slots, with an element type whose moves are copies:
    when the second assignment of the shift throws, or the final
    assignment into the insertion slot, the old last element 3 sits in
    slot 3, beyond the size, the live range holds a duplicate instead,
    the vector is no longer well formed, and the handler ends in
    [operator delete] on an address inside the block. *)
Theorem Emplace_in_place_throw_loses_element :
  let v := Vector.of_list [1; 2; 3] 1 in
  let v1 := Vector.mk (RawMemory.mk [Some 1; Some 2; Some 2; Some 3] 4) 3 in
  let v2 := Vector.mk (RawMemory.mk [Some 1; Some 1; Some 2; Some 3] 4) 3 in
  Vector.Emplace 0 9 v (throwing_at 3) = (Undefined, v1, calm) /\
  Vector.Emplace 0 9 v (throwing_at 4) = (Undefined, v2, calm) /\
  Vector.elements v = [1; 2; 3] /\
  Vector.elements v1 = [1; 2; 2] /\
  Vector.elements v2 = [1; 1; 2] /\
  ~ Vector.wf v1 /\ ~ Vector.wf v2.
Proof.
  cbv zeta. split_and!; try reflexivity.
  - intros [_ _ _ Hraw]. simpl in Hraw. by apply Forall_cons in Hraw as [? _].
  - intros [_ _ _ Hraw]. simpl in Hraw. by apply Forall_cons in Hraw as [? _].
Qed.
Lemma copy_assignment_witness :
  exists s',
    Vector.op_assign 0 1
      (<[0 := Vector.of_list [1; 2; 3] 0]> (<[1 := Vector.of_list [4; 5] 0]> ∅))
      calm
    = (Returns tt, s', calm) /\
    Vector.elements (view (Vector.obj 0) s') = [4; 5] /\
    Vector.elements (view (Vector.obj 1) s') = [4; 5] /\
    Vector.Capacity (view (Vector.obj 0) s') = 3.
Proof.
  destruct (copy_assignment 0 1
              (<[0 := Vector.of_list [1; 2; 3] 0]>
                 (<[1 := Vector.of_list [4; 5] 0]> ∅)) calm)
    as [(s' & Hq & _ & _ & _ & He & Hb & Hc) _].
  - change (Vector.wf (Vector.of_list [1; 2; 3] 0)). apply wf_of_list.
  - change (Vector.wf (Vector.of_list [4; 5] 0)). apply wf_of_list.
  - exists s'. split_and!; [exact (Hq eq_refl)|exact He| |apply Hc; vm_compute; lia].
    rewrite Hb. reflexivity.
Defined.

(** The example of the specification: three appends, an insertion at
    index 1, a removal at index 0 and a [PopBack]. *)
Lemma reachable_invariant_witness :
  exists s',
    run [PushBack 0 1; PushBack 0 2; PushBack 0 3; Insert 0 1 9; Erase 0 0; PopBack 0]
      ∅ calm
    = (Returns tt, s', calm) /\
    Vector.wf (view (Vector.obj 0) s') /\
    Vector.Size (view (Vector.obj 0) s') <= Vector.Capacity (view (Vector.obj 0) s') /\
    Vector.elements (view (Vector.obj 0) s') = [9; 2].
Proof.
  destruct (reachable_invariant
              [PushBack 0 1; PushBack 0 2; PushBack 0 3; Insert 0 1 9; Erase 0 0;
               PopBack 0]
              (set_contents 0 [9; 2]
                 (set_contents 0 [9; 2; 3]
                    (set_contents 0 [1; 9; 2; 3]
                       (set_contents 0 [1; 2; 3]
                          (set_contents 0 [1; 2]
                             (set_contents 0 [1] (fun _ => [])))))))
              calm eq_refl)
    as (s' & Hq & _ & Hall).
  exists s'. split; [exact (Hq eq_refl)|]. apply (Hall 0).
Defined.
End Concrete.

(** * Construction, destruction, [Resize] and element access *)

Section Lifecycle.
Context {T : Type} `{Element T}.
Implicit Types (v : Vector.t T) (l : list T) (w : World).

Lemma Resize_of_list_shrink l k n w :
  n <= length l ->
  Vector.Resize n (Vector.of_list l k) w
  = (Returns tt, Vector.of_list (take n l) (length l + k - n), w).
Proof.
  intros Hn. unfold Vector.Resize. rewrite bind_get.
  unfold Vector.Capacity, RawMemory.Capacity.
  cbn [Vector.of_list Vector.data_ Vector.size_ RawMemory.capacity_].
  destruct (Nat.ltb_spec n (length l)) as [Hlt|Hge].
  - zstep (destroy_n_live n (length l - n) (drop n l) (Some <$> take n l)
             (replicate k None) w ltac:(len) ltac:(len)).
    2:{ lens_simpl. rewrite app_assoc, <- fmap_app. by rewrite take_drop. }
    lens_simpl.
    zlast (put_run (length l) n w); [|done].
    lens_simpl. apply returns_eq; [done| |len|len].
    rewrite <- replicate_add. do 2 f_equal. lia.
  - assert (n = length l) as -> by lia.
    rewrite (proj2 (Nat.ltb_ge (length l + k) (length l))) by lia.
    rewrite Nat.sub_diag. cbn [uninitialized_value_construct_n].
    rewrite take_ge by lia.
    replace (length l + k - length l) with k by lia.
    reflexivity.
Qed.

Lemma Resize_of_list_grow l k n w :
  quiet w -> length l <= n ->
  Vector.Resize n (Vector.of_list l k) w
  = (Returns tt,
     Vector.of_list (l ++ replicate (n - length l) value_initialized)
       ((if length l + k <? n then Nat.max ((length l + k) * 2) n
         else length l + k) - n), w).
Proof.
  intros Hw Hn. unfold Vector.Resize. rewrite bind_get.
  unfold Vector.Capacity, RawMemory.Capacity.
  cbn [Vector.of_list Vector.data_ Vector.size_ RawMemory.capacity_].
  rewrite (proj2 (Nat.ltb_ge n (length l))) by lia.
  assert (exists k0,
    k0 = (if length l + k <? n then Nat.max ((length l + k) * 2) n
          else length l + k) - length l /\
    n <= length l + k0 /\
    (if length l + k <? n
     then Vector.Reserve (Nat.max ((length l + k) * 2) n)
     else ret tt) (Vector.of_list l k) w
    = (Returns tt, Vector.of_list l k0, w)) as (k0 & Ek0 & Hk0 & Hres).
  { destruct (Nat.ltb_spec (length l + k) n) as [Hlt|Hge].
    - exists (Nat.max ((length l + k) * 2) n - length l). split_and!; [done|lia|].
      apply Reserve_of_list_grows; [done|lia].
    - exists k. split_and!; [lia|lia|done]. }
  replace ((if length l + k <? n then Nat.max ((length l + k) * 2) n
            else length l + k) - n)
    with (k0 - (n - length l)) by lia.
  clear Ek0.
  rewrite bind_bind. step Hres.
  zstep (uninitialized_value_construct_n_quiet (n - length l) (length l)
           (Some <$> l) (replicate (n - length l) None)
           (replicate (k0 - (n - length l)) None) w
           ltac:(len) ltac:(len) Hw).
  2:{ unfold Vector.of_list. lens_simpl. f_equal.
      rewrite <- replicate_add. f_equal. lia. }
  zlast (put_run (length l) n w); [|done].
  unfold Vector.of_list. lens_simpl. apply returns_eq; [done| |len|len].
  by rewrite fmap_app, fmap_replicate, <- app_assoc.
Qed.

(** [Resize(n)] on a [size_t] that never wraps. *)
Lemma Resize_value_initializes_unbounded v n w :
  Vector.wf v ->
  exists v',
    (quiet w -> Vector.Resize n v w = (Returns tt, v', w)) /\
    (forall r v1 w1, Vector.Resize n v w = (Returns r, v1, w1) -> v1 = v') /\
    (n <= Vector.Size v -> Vector.Resize n v w = (Returns tt, v', w)) /\
    Vector.wf v' /\
    Vector.Size v' = n /\
    Vector.elements v'
    = take n (Vector.elements v)
        ++ replicate (n - Vector.Size v) value_initialized /\
    Vector.Capacity v'
    = (if Vector.Capacity v <? n then Nat.max (Vector.Capacity v * 2) n
       else Vector.Capacity v).
Proof.
  intros (l & k & ->)%wf_is_of_list.
  rewrite elements_of_list.
  unfold Vector.Size, Vector.Capacity, RawMemory.Capacity.
  cbn [Vector.of_list Vector.data_ Vector.size_ RawMemory.capacity_].
  destruct (Nat.le_gt_cases n (length l)) as [Hn|Hn].
  - exists (Vector.of_list (take n l) (length l + k - n)).
    rewrite (proj2 (Nat.ltb_ge (length l + k) n)) by lia.
    rewrite (proj2 (Nat.sub_0_le n (length l))) by lia.
    split_and!.
    + intros _. by apply Resize_of_list_shrink.
    + intros r v1 w1 Hr.
      rewrite Resize_of_list_shrink in Hr by done. by injection Hr as _ <- _.
    + intros _. by apply Resize_of_list_shrink.
    + apply wf_of_list.
    + simpl. len.
    + by rewrite elements_of_list, app_nil_r.
    + simpl. len.
  - exists (Vector.of_list (l ++ replicate (n - length l) value_initialized)
              ((if length l + k <? n then Nat.max ((length l + k) * 2) n
                else length l + k) - n)).
    split_and!.
    + intros Hw. apply Resize_of_list_grow; [done|lia].
    + intros r v1 w1 Hr.
      exact (proj2 (returns_as_quiet _ _ _ _ _ _ _ _ (steady_Resize _)
                      (Resize_of_list_grow l k n (hush w) eq_refl ltac:(lia)) Hr)).
    + lia.
    + apply wf_of_list.
    + simpl. len.
    + rewrite elements_of_list. by rewrite take_ge by lia.
    + simpl. destruct (Nat.ltb_spec (length l + k) n); len.
Qed.

Lemma ctor_frame {St} n (st st' : St) w w' r :
  Vector.ctor n st w = (r, st', w') -> st' = st.
Proof.
  unfold Vector.ctor, bind.
  destruct (RawMemory.ctor _ st w) as [[r1 st1] w1] eqn:E.
  apply RawMemory_ctor_frame in E as ->.
  destruct r1 as [data| | |]; try by intros [= _ <- _].
  unfold construct.
  destruct (zoom _ _ _ _) as [[[[]| | |] v1] w2]; by intros [= _ <- _].
Qed.

Lemma steady_ctor {St} n : steady (Vector.ctor (T := T) (S := St) n).
Proof. unfold Vector.ctor. solve_steady. Qed.

(** [Vector(n)] on a [size_t] that never wraps. *)
Lemma ctor_value_initializes_unbounded {St} n (s : St) w :
  exists v',
    (quiet w -> Vector.ctor n s w = (Returns v', s, w)) /\
    (forall r s1 w1, Vector.ctor n s w = (Returns r, s1, w1) -> r = v') /\
    (forall (r : outcome (Vector.t T)) s1 w1, Vector.ctor n s w = (r, s1, w1) -> s1 = s) /\
    (n = 0 -> Vector.ctor n s w = (Returns Vector.default, s, w)) /\
    Vector.wf v' /\
    Vector.Size v' = n /\
    Vector.Capacity v' = n /\
    Vector.elements v' = replicate n value_initialized.
Proof.
  exists (Vector.of_list (replicate n value_initialized) 0). split_and!.
  - apply ctor_quiet.
  - intros r s1 w1 Hr.
    exact (proj1 (returns_as_quiet _ _ _ _ _ _ _ _ (steady_ctor _)
                    (ctor_quiet n s (hush w) eq_refl) Hr)).
  - intros r s1 w1. apply ctor_frame.
  - by intros ->.
  - apply wf_of_list.
  - simpl. len.
  - unfold Vector.Capacity. simpl. len.
  - apply elements_of_list.
Qed.

(** X3.  [Vector(const Vector& other)] yields a vector with the elements
    of [other], in order, in a block of exactly [other.Size()] slots,
    whatever capacity [other] has.  Whatever the outcome, the program
    state, [other] included, is untouched; the copy of an empty vector
    returns on every schedule. *)
Theorem copy_ctor_copies {St} (other : Vector.t T) (s : St) w :
  Vector.wf other ->
  exists v',
    (quiet w -> Vector.copy_ctor other s w = (Returns v', s, w)) /\
    (forall r s1 w1, Vector.copy_ctor other s w = (Returns r, s1, w1) -> r = v') /\
    (forall (r : outcome (Vector.t T)) s1 w1,
        Vector.copy_ctor other s w = (r, s1, w1) -> s1 = s) /\
    (Vector.Size other = 0 ->
     Vector.copy_ctor other s w = (Returns Vector.default, s, w)) /\
    Vector.wf v' /\
    Vector.elements v' = Vector.elements other /\
    Vector.Size v' = Vector.Size other /\
    Vector.Capacity v' = Vector.Size other.
Proof.
  intros (l & k & ->)%wf_is_of_list.
  exists (Vector.of_list l 0). split_and!.
  - apply copy_ctor_quiet.
  - intros r s1 w1 Hr.
    exact (proj1 (returns_as_quiet _ _ _ _ _ _ _ _ (steady_copy_ctor _)
                    (copy_ctor_quiet l k s (hush w) eq_refl) Hr)).
  - intros r s1 w1. apply copy_ctor_frame.
  - unfold Vector.Size. simpl. intros Hl. unfold Vector.copy_ctor.
    cbn [Vector.of_list Vector.size_]. by rewrite Hl.
  - apply wf_of_list.
  - by rewrite !elements_of_list.
  - done.
  - unfold Vector.Capacity, Vector.Size. simpl. len.
Qed.

Lemma dtor_of_list_raw (l : list T) k w :
  Vector.dtor (Vector.of_list l k) w
  = (Returns tt,
     Vector.mk (RawMemory.mk (replicate (length l + k) None) (length l + k))
       (length l), w).
Proof.
  unfold Vector.dtor. rewrite bind_get.
  zstep (destroy_n_live 0 (length l) l [] (replicate k None) w eq_refl eq_refl);
    [|done].
  unfold zoom, RawMemory.dtor, ret. lens_simpl.
  by rewrite <- replicate_add.
Qed.

(** X4.  [~Vector()] on a well-formed vector returns on every schedule
    and destroys exactly the [Size()] live elements: afterwards every
    slot of the block is raw memory, and no slot that was raw has been
    destroyed (that would be undefined). *)
Theorem dtor_destroys_all (v : Vector.t T) w :
  Vector.wf v ->
  exists v',
    Vector.dtor v w = (Returns tt, v', w) /\
    RawMemory.buffer_ (Vector.data_ v') = replicate (Vector.Capacity v) None /\
    Vector.Capacity v' = Vector.Capacity v.
Proof.
  intros (l & k & ->)%wf_is_of_list.
  eexists. split; [apply dtor_of_list_raw|]. done.
Qed.

(** X5.  [operator[]] on a well-formed vector: an index below [Size()]
    yields the element at that index and changes nothing; any other
    index fails the [assert]. *)
Theorem at_index_in_bounds (v : Vector.t T) i w :
  Vector.wf v ->
  (i < Vector.Size v ->
   exists x, Vector.elements v !! i = Some x /\
             Vector.at_index i v w = (Returns x, v, w)) /\
  (Vector.Size v <= i -> Vector.at_index i v w = (AssertFails, v, w)).
Proof.
  intros (l & k & ->)%wf_is_of_list. rewrite elements_of_list.
  unfold Vector.Size. cbn [Vector.of_list Vector.size_]. split.
  - intros Hi. destruct (lookup_lt_is_Some_2 l i Hi) as [x Hx].
    exists x. split; [done|].
    unfold Vector.at_index. rewrite bind_get.
    rewrite bind_assert by (by apply Nat.ltb_lt).
    step (RawMemory_index_run Vector.data_l i (Vector.of_list l k) w
            ltac:(simpl; lia)).
    unfold zoom, Vector.of_list, load. lens_simpl. rewrite bind_get.
    by rewrite lookup_app_l, list_lookup_fmap, Hx by len.
  - intros Hi. unfold Vector.at_index. rewrite bind_get.
    cbn [Vector.of_list Vector.size_].
    by rewrite (proj2 (Nat.ltb_ge i (length l))) by lia.
Qed.

End Lifecycle.

(** * How the operations compose *)

Section Composition.
Context {T : Type} `{Element T}.
Implicit Types (v : Vector.t T) (l xs : list T) (w : World).

Lemma at_index_of_list l1 x l2 k w :
  Vector.at_index (length l1) (Vector.of_list (l1 ++ x :: l2) k) w
  = (Returns x, Vector.of_list (l1 ++ x :: l2) k, w).
Proof.
  unfold Vector.at_index. rewrite bind_get.
  rewrite bind_assert by (apply Nat.ltb_lt; simpl; len).
  step (RawMemory_index_run Vector.data_l (length l1)
          (Vector.of_list (l1 ++ x :: l2) k) w ltac:(simpl; len)).
  unfold zoom, Vector.of_list, load. lens_simpl. rewrite bind_get.
  rewrite lookup_app_l, list_lookup_fmap by len.
  by rewrite list_lookup_middle.
Qed.

Lemma steady_at_index i : steady (Vector.at_index (T := T) i).
Proof. unfold Vector.at_index. solve_steady. Qed.

(** The spare slots after an append to a vector with [k] spare slots. *)
Local Abbreviation spare_after l k :=
  (match k with
   | 0 => (if length l =? 0 then 1 else length l * 2) - length l - 1
   | S k' => k'
   end).

Lemma PushBack_PopBack_of_list l x k w :
  quiet w ->
  (Vector.PushBack x;; Vector.PopBack) (Vector.of_list l k) w
  = (Returns tt, Vector.of_list l (S (spare_after l k)), w).
Proof.
  intros Hw. step (PushBack_of_list l x k w Hw). apply PopBack_of_list.
Qed.

(** X7.  [PushBack(x)] followed by [PopBack()] gives back the elements
    and the size the vector had; the capacity may have grown, it never
    shrinks. *)
Theorem PushBack_PopBack_round_trip v x w :
  Vector.wf v ->
  exists v',
    (quiet w -> (Vector.PushBack x;; Vector.PopBack) v w = (Returns tt, v', w)) /\
    (forall r v1 w1,
        (Vector.PushBack x;; Vector.PopBack) v w = (Returns r, v1, w1) -> v1 = v') /\
    Vector.wf v' /\
    Vector.elements v' = Vector.elements v /\
    Vector.Size v' = Vector.Size v /\
    Vector.Capacity v <= Vector.Capacity v'.
Proof.
  intros (l & k & ->)%wf_is_of_list.
  exists (Vector.of_list l (S (spare_after l k))). split_and!.
  - apply PushBack_PopBack_of_list.
  - intros r v1 w1 Hr.
    refine (proj2 (returns_as_quiet _ _ _ _ _ _ _ _ _
                     (PushBack_PopBack_of_list l x k (hush w) eq_refl) Hr)).
    apply steady_bind; [apply steady_PushBack|intros _; apply steady_PopBack].
  - apply wf_of_list.
  - by rewrite !elements_of_list.
  - done.
  - unfold Vector.Capacity. simpl. destruct k; [|lia].
    destruct (length l); simpl; lia.
Qed.

Lemma Insert_Erase_of_list l1 l2 x k w :
  quiet w ->
  (let* p := Vector.Insert (length l1) x in Vector.Erase p)
    (Vector.of_list (l1 ++ l2) k) w
  = (Returns (length l1),
     Vector.of_list (l1 ++ l2) (S (spare_after (l1 ++ l2) k)), w).
Proof.
  intros Hw. unfold Vector.Insert.
  step (Emplace_of_list l1 l2 x k w Hw). by apply Erase_of_list.
Qed.

Lemma Erase_Insert_of_list l1 x l2 k w :
  quiet w ->
  (let* y := Vector.at_index (length l1) in
   let* p := Vector.Erase (length l1) in
   Vector.Insert p y) (Vector.of_list (l1 ++ x :: l2) k) w
  = (Returns (length l1), Vector.of_list (l1 ++ x :: l2) k, w).
Proof.
  intros Hw. step (at_index_of_list l1 x l2 k w).
  step (Erase_of_list l1 x l2 k w Hw).
  unfold Vector.Insert. by rewrite (Emplace_of_list l1 l2 x (S k) w Hw).
Qed.

(** X8.  [Insert] and [Erase] at one position undo each other.  Erasing
    at the iterator [Insert(pos, x)] returned gives back the elements the
    vector had (the capacity may have grown); inserting the value read
    at [pos] at the iterator [Erase(pos)] returned gives back the very
    vector, capacity included. *)
Theorem Insert_Erase_round_trip v i x w :
  Vector.wf v ->
  (i <= Vector.Size v ->
   exists v',
     (quiet w ->
      (let* p := Vector.Insert i x in Vector.Erase p) v w = (Returns i, v', w)) /\
     (forall r v1 w1,
         (let* p := Vector.Insert i x in Vector.Erase p) v w = (Returns r, v1, w1) ->
         r = i /\ v1 = v') /\
     Vector.wf v' /\
     Vector.elements v' = Vector.elements v /\
     Vector.Size v' = Vector.Size v /\
     Vector.Capacity v <= Vector.Capacity v') /\
  (i < Vector.Size v ->
   (quiet w ->
    (let* y := Vector.at_index i in
     let* p := Vector.Erase i in
     Vector.Insert p y) v w = (Returns i, v, w)) /\
   (forall r v1 w1,
       (let* y := Vector.at_index i in
        let* p := Vector.Erase i in
        Vector.Insert p y) v w = (Returns r, v1, w1) ->
       r = i /\ v1 = v)).
Proof.
  intros (l & k & ->)%wf_is_of_list. unfold Vector.Size.
  cbn [Vector.of_list Vector.size_]. split.
  - intros Hi. destruct (split_at l i Hi) as (l1 & l2 & -> & <-).
    exists (Vector.of_list (l1 ++ l2) (S (spare_after (l1 ++ l2) k))). split_and!.
    + apply Insert_Erase_of_list.
    + intros r v1 w1 Hr.
      refine (returns_as_quiet _ _ _ _ _ _ _ _ _
                (Insert_Erase_of_list l1 l2 x k (hush w) eq_refl) Hr).
      apply steady_bind; [apply steady_Insert|intros p; apply steady_Erase].
    + apply wf_of_list.
    + by rewrite !elements_of_list.
    + done.
    + unfold Vector.Capacity. simpl. destruct k; [|lia].
      destruct (length (l1 ++ l2)); simpl; lia.
  - intros Hi. destruct (split_at l i) as (l1 & l2 & -> & <-); [lia|].
    destruct l2 as [|y l2]; [rewrite app_nil_r in Hi; lia|]. split.
    + apply Erase_Insert_of_list.
    + intros r v1 w1 Hr.
      refine (returns_as_quiet _ _ _ _ _ _ _ _ _
                (Erase_Insert_of_list l1 y l2 k (hush w) eq_refl) Hr).
      apply steady_bind; [apply steady_at_index|intros y'].
      apply steady_bind; [apply steady_Erase|intros p; apply steady_Insert].
Qed.

Lemma Emplace_at_index_of_list l1 l2 x k w :
  quiet w ->
  (let* p := Vector.Emplace (length l1) x in Vector.at_index p)
    (Vector.of_list (l1 ++ l2) k) w
  = (Returns x, Vector.of_list (l1 ++ x :: l2) (spare_after (l1 ++ l2) k), w).
Proof.
  intros Hw. step (Emplace_of_list l1 l2 x k w Hw). apply at_index_of_list.
Qed.

Lemma EmplaceBack_at_index_of_list l x k w :
  quiet w ->
  (let* p := Vector.EmplaceBack x in Vector.at_index p) (Vector.of_list l k) w
  = (Returns x, Vector.of_list (l ++ [x]) (spare_after l k), w).
Proof.
  intros Hw. step (EmplaceBack_of_list l x k w Hw). apply at_index_of_list.
Qed.

(** X9.  What was put in is what is read: [operator[]] at the iterator
    returned by [Emplace(pos, x)], and at the reference returned by
    [EmplaceBack(x)], yields [x]. *)
Theorem emplaced_value_is_read v i x w :
  Vector.wf v -> i <= Vector.Size v ->
  (quiet w ->
   (exists v',
     (let* p := Vector.Emplace i x in Vector.at_index p) v w = (Returns x, v', w)) /\
   (exists v',
     (let* p := Vector.EmplaceBack x in Vector.at_index p) v w
     = (Returns x, v', w))) /\
  (forall r v1 w1,
      (let* p := Vector.Emplace i x in Vector.at_index p) v w = (Returns r, v1, w1) ->
      r = x) /\
  (forall r v1 w1,
      (let* p := Vector.EmplaceBack x in Vector.at_index p) v w
      = (Returns r, v1, w1) ->
      r = x).
Proof.
  intros (l & k & ->)%wf_is_of_list. unfold Vector.Size.
  cbn [Vector.of_list Vector.size_]. intros Hi.
  destruct (split_at l i Hi) as (l1 & l2 & -> & <-). split_and!.
  - intros Hw. split; eexists.
    + by apply Emplace_at_index_of_list.
    + by apply EmplaceBack_at_index_of_list.
  - intros r v1 w1 Hr.
    refine (proj1 (returns_as_quiet _ _ _ _ _ _ _ _ _
                     (Emplace_at_index_of_list l1 l2 x k (hush w) eq_refl) Hr)).
    apply steady_bind; [apply steady_Emplace|intros p; apply steady_at_index].
  - intros r v1 w1 Hr.
    refine (proj1 (returns_as_quiet _ _ _ _ _ _ _ _ _
                     (EmplaceBack_at_index_of_list (l1 ++ l2) x k (hush w) eq_refl)
                     Hr)).
    apply steady_bind; [apply steady_EmplaceBack|intros p; apply steady_at_index].
Qed.

(** X10.  [Emplace] and [Insert] at [end()] are [EmplaceBack]: the same
    index is returned and the same vector is left, block and capacity
    included. *)
Theorem Emplace_at_end_is_EmplaceBack v x w :
  Vector.wf v ->
  (quiet w ->
   Vector.Emplace (Vector.Size v) x v w = Vector.EmplaceBack x v w /\
   Vector.Insert (Vector.Size v) x v w = Vector.EmplaceBack x v w) /\
  (forall r1 v1 w1 r2 v2 w2,
      Vector.Emplace (Vector.Size v) x v w = (Returns r1, v1, w1) ->
      Vector.EmplaceBack x v w = (Returns r2, v2, w2) ->
      r1 = r2 /\ v1 = v2).
Proof.
  intros (l & k & ->)%wf_is_of_list. unfold Vector.Size, Vector.Insert.
  cbn [Vector.of_list Vector.size_].
  assert (forall w0, quiet w0 ->
            Vector.Emplace (length l) x (Vector.of_list l k) w0
            = (Returns (length l), Vector.of_list (l ++ [x]) (spare_after l k), w0))
    as Hemp.
  { intros w0 Hw0. pose proof (Emplace_of_list l [] x k w0 Hw0) as E.
    by rewrite !app_nil_r in E. }
  split.
  - intros Hw. rewrite Hemp, EmplaceBack_of_list by done. done.
  - intros r1 v1 w1 r2 v2 w2 H1 H2.
    destruct (returns_as_quiet _ _ _ _ _ _ _ _ (steady_Emplace _ _)
                (Hemp (hush w) eq_refl) H1) as [-> ->].
    destruct (returns_as_quiet _ _ _ _ _ _ _ _ (steady_EmplaceBack _)
                (EmplaceBack_of_list l x k (hush w) eq_refl) H2) as [-> ->].
    done.
Qed.

Lemma push_all_doubles xs :
  forall l k w,
    quiet w ->
    (l = [] /\ k = 0)
    \/ (exists e, length l + k = 2 ^ e) /\ length l + k < 2 * length l ->
    exists k',
      push_all xs (Vector.of_list l k) w
      = (Returns tt, Vector.of_list (l ++ xs) k', w) /\
      ((l ++ xs = [] /\ k' = 0)
       \/ (exists e, length (l ++ xs) + k' = 2 ^ e)
          /\ length (l ++ xs) + k' < 2 * length (l ++ xs)).
Proof.
  induction xs as [|x xs IH]; intros l k w Hw Hinv.
  - exists k. rewrite app_nil_r. by split.
  - cbn [push_all]. step (PushBack_of_list l x k w Hw).
    destruct (IH (l ++ [x]) (spare_after l k) w Hw) as (k' & E & Hinv').
    { right. rewrite length_app. simpl.
      destruct Hinv as [[-> ->]|[[e He] Hlt]].
      - split; [by exists 0|simpl; lia].
      - destruct k as [|k0].
        + destruct (Nat.eqb_spec (length l) 0) as [H0|H0]; [lia|].
          split; [|lia]. exists (S e). rewrite Nat.pow_succ_r'. lia.
        + split; [|lia]. exists e. lia. }
    exists k'. rewrite <- app_assoc in E, Hinv'. by split.
Qed.

(** X11.  A vector filled by [PushBack] alone, from the default
    constructed one, holds the values appended, in order, in a block
    whose capacity is a power of two, at least the size and below twice
    the size. *)
Theorem append_only_capacity xs w :
  exists v',
    (quiet w -> push_all xs Vector.default w = (Returns tt, v', w)) /\
    (forall r v1 w1, push_all xs Vector.default w = (Returns r, v1, w1) -> v1 = v') /\
    Vector.wf v' /\
    Vector.elements v' = xs /\
    Vector.Size v' = length xs /\
    Vector.Size v' <= Vector.Capacity v' /\
    (xs = [] -> Vector.Capacity v' = 0) /\
    (xs <> [] ->
     (exists e, Vector.Capacity v' = 2 ^ e) /\
     Vector.Capacity v' < 2 * Vector.Size v').
Proof.
  destruct (push_all_doubles xs [] 0 (hush w) eq_refl) as (k' & E & Hinv);
    [by left|].
  rewrite app_nil_l in E, Hinv.
  exists (Vector.of_list xs k'). split_and!.
  - intros Hw. by rewrite (hush_quiet w Hw) in E.
  - intros r v1 w1 Hr.
    exact (proj2 (returns_as_quiet _ _ _ _ _ _ _ _ (steady_push_all _) E Hr)).
  - apply wf_of_list.
  - apply elements_of_list.
  - done.
  - unfold Vector.Size, Vector.Capacity. simpl. lia.
  - intros ->. destruct Hinv as [[_ ->]|[_ Hlt]]; [done|simpl in Hlt; lia].
  - intros Hne. unfold Vector.Size, Vector.Capacity. simpl.
    destruct Hinv as [[-> _]|Hinv]; done.
Qed.
End Composition.

(** * Moving and swapping objects *)

Section Objects.
Context {T : Type} `{Element T}.
Implicit Types (s : Vector.store T) (w : World).

(** X12.  [a.Swap(b)] and the move assignment [a = std::move(b)] do the
    same thing on every schedule: [a] ends as [b] was and [b] as [a]
    was, block, size and capacity, and no other object changes; so the
    moved-from vector of a move assignment holds the former elements of
    the target, and swapping twice restores both objects. *)
Theorem Swap_exchanges a b s w :
  exists s',
    Vector.Swap (Vector.obj a) (Vector.obj b) s w = (Returns tt, s', w) /\
    Vector.op_assign_move a b s w = (Returns tt, s', w) /\
    view (Vector.obj a) s' = view (Vector.obj b) s /\
    view (Vector.obj b) s' = view (Vector.obj a) s /\
    (forall x, x <> a -> x <> b -> view (Vector.obj x) s' = view (Vector.obj x) s) /\
    exists s'',
      Vector.Swap (Vector.obj a) (Vector.obj b) s' w = (Returns tt, s'', w) /\
      forall x, view (Vector.obj x) s'' = view (Vector.obj x) s.
Proof.
  destruct (Swap_objects a b s w) as (s' & E & Hb & Ha & Hx).
  assert (view (Vector.obj a) s' = view (Vector.obj b) s) as Ha'.
  { destruct (decide (a = b)) as [->|Hab]; [by rewrite Hb|by apply Ha]. }
  destruct (Swap_objects a b s' w) as (s'' & E' & Hb' & _ & Hx').
  assert (view (Vector.obj a) s'' = view (Vector.obj b) s') as Ha''.
  { destruct (decide (a = b)) as [->|Hab]; [by rewrite Hb'|].
    destruct (Swap_objects a b s' w) as (s0 & E0 & _ & Ha0 & _).
    rewrite E' in E0. injection E0 as <-. by apply Ha0. }
  exists s'. split_and!; [done|done|done|done|done|].
  exists s''. split; [done|]. intros x.
  destruct (decide (x = a)) as [->|Hxa]; [by rewrite Ha'', Hb|].
  destruct (decide (x = b)) as [->|Hxb]; [by rewrite Hb', Ha'|].
  by rewrite Hx', Hx.
Qed.

(** X13.  Move construction of the object at [a] from the object at [b]
    returns on every schedule: [a] is what [b] was, block, size and
    capacity, [b] is left as a default-constructed vector (no block, size
    0), and no other object changes. *)
Theorem move_construction a b s w :
  a <> b ->
  exists s',
    exec (MoveConstruct a b) s w = (Returns tt, s', w) /\
    view (Vector.obj a) s' = view (Vector.obj b) s /\
    view (Vector.obj b) s' = Vector.default /\
    Vector.wf (view (Vector.obj b) s') /\
    (forall x, x <> a -> x <> b -> view (Vector.obj x) s' = view (Vector.obj x) s).
Proof.
  intros Hab. destruct (move_ctor_object b s w) as (s1 & E & Hb & Hx).
  exists (update (Vector.obj a) (view (Vector.obj b) s) s1). split_and!.
  - cbn [exec]. step E. reflexivity.
  - apply view_update_eq.
  - rewrite view_update_ne by done. exact Hb.
  - rewrite view_update_ne by done. rewrite Hb. apply wf_of_list.
  - intros x Hxa Hxb. rewrite view_update_ne by done. by apply Hx.
Qed.

Lemma raw_view_update_eq a r (m : gmap nat (RawMemory.t T)) :
  view (RawMemory.obj a) (update (RawMemory.obj a) r m) = r.
Proof. unfold RawMemory.obj. cbn [view update]. by rewrite lookup_insert_eq. Qed.

Lemma raw_view_update_ne a x r (m : gmap nat (RawMemory.t T)) :
  x <> a ->
  view (RawMemory.obj x) (update (RawMemory.obj a) r m) = view (RawMemory.obj x) m.
Proof.
  intros Hx. unfold RawMemory.obj. cbn [view update]. by rewrite lookup_insert_ne.
Qed.

(** X14.  The move assignment of [RawMemory] returns on every schedule.
    Between two objects, [this] takes the block and the capacity of
    [rhs], and [rhs] is left as the move constructor leaves its
    argument: without a block, with capacity 0.  On one object it does
    nothing. *)
Theorem RawMemory_move_assignment this rhs (m : gmap nat (RawMemory.t T)) w :
  exists m',
    RawMemory.op_assign_move this rhs m w = (Returns tt, m', w) /\
    (this = rhs -> m' = m) /\
    (this <> rhs ->
     view (RawMemory.obj this) m' = view (RawMemory.obj rhs) m /\
     view (RawMemory.obj rhs) m' = RawMemory.default /\
     exists m0,
       RawMemory.move_ctor (RawMemory.obj rhs) m w
       = (Returns (view (RawMemory.obj this) m'), m0, w) /\
       view (RawMemory.obj rhs) m0 = view (RawMemory.obj rhs) m') /\
    (forall x, x <> this -> x <> rhs ->
               view (RawMemory.obj x) m' = view (RawMemory.obj x) m).
Proof.
  unfold RawMemory.op_assign_move.
  destruct (decide (this <> rhs)) as [Hne|Heq].
  - unfold bind, get, zoom, put. eexists. split; [reflexivity|].
    cbn [view update lens_comp RawMemory.buffer_l RawMemory.capacity_l].
    split_and!.
    + done.
    + intros _.
      repeat first [rewrite raw_view_update_eq
                   |rewrite raw_view_update_ne by done].
      cbn [RawMemory.buffer_ RawMemory.capacity_].
      split_and!; [by destruct (view (RawMemory.obj rhs) m)|done|].
      unfold RawMemory.move_ctor, std_exchange, bind, get, modify, ret.
      eexists. split.
      * cbn [view update lens_comp RawMemory.buffer_l RawMemory.capacity_l].
        repeat first [rewrite raw_view_update_eq
                     |rewrite raw_view_update_ne by done].
        cbn [RawMemory.buffer_ RawMemory.capacity_]. reflexivity.
      * cbn [view update lens_comp RawMemory.buffer_l RawMemory.capacity_l].
        by rewrite !raw_view_update_eq.
    + intros x Hxa Hxb. by rewrite !raw_view_update_ne by done.
  - exists m. split_and!; [done|done|intros Hne; by destruct Heq|done].
Qed.
End Objects.

(** * Exceptions outside a reallocation *)

Section Basic_guarantee.
Context {T : Type} `{Element T}.
Implicit Types (b : buffer T) (v : Vector.t T) (l : list T) (w : World).

Lemma live_slots_lookup b i :
  live_slots b !! i = Some true <-> exists x, b !! i = Some (Some x).
Proof.
  unfold live_slots. rewrite list_lookup_fmap.
  destruct (b !! i) as [[x|]|]; simpl; split; try done; eauto.
  - by intros [x [=]].
  - by intros [x [=]].
Qed.

Lemma live_slots_length b b' : live_slots b' = live_slots b -> length b' = length b.
Proof.
  intros Hl. apply (f_equal length) in Hl. unfold live_slots in Hl.
  by rewrite !length_fmap in Hl.
Qed.

Lemma same_live_from_refl d b : same_live_from d b b.
Proof. by split. Qed.

Lemma same_live_from_trans d b1 b2 b3 :
  same_live_from d b1 b2 -> same_live_from d b2 b3 -> same_live_from d b1 b3.
Proof. intros [L1 T1] [L2 T2]. split; congruence. Qed.

Lemma same_live_from_insert d i b x y :
  d <= i -> b !! i = Some (Some y) -> same_live_from d b (<[i := Some x]> b).
Proof.
  intros Hd Hi. split; [|by apply take_insert_ge].
  unfold live_slots. rewrite list_fmap_insert. apply list_insert_id.
  by rewrite list_lookup_fmap, Hi.
Qed.

Lemma keeps_bind {St A B} (R : St -> St -> Prop) (m : M St A) (k : A -> M St B) :
  (forall s1 s2 s3, R s1 s2 -> R s2 s3 -> R s1 s3) ->
  keeps R m -> (forall a, keeps R (k a)) -> keeps R (bind m k).
Proof.
  intros Ht Hm Hk s w r s' w'. unfold bind.
  destruct (m s w) as [[r1 s1] w1] eqn:E. pose proof (Hm _ _ _ _ _ E) as H1.
  destruct r1 as [a| | |]; [|by intros [= <- <- <-]..].
  intros Hk'. eapply Ht; [exact H1|]. by eapply Hk.
Qed.

Lemma keeps_ret {St A} (R : St -> St -> Prop) (a : A) :
  (forall s, R s s) -> keeps R (ret a).
Proof. intros Hr s w r s' w' [= <- <- <-]. apply Hr. Qed.

Lemma move_assign_keeps d j i :
  d <= j -> d <= i -> keeps (same_live_from d) (move_assign (T := T) j i).
Proof.
  intros Hj Hi b w r b' w'.
  cbv beta iota delta
    [move_assign bind load get ret undefined throw_point store put].
  destruct (b !! j) as [[x|]|] eqn:Ej;
    [|intros [= <- <- <-]; apply same_live_from_refl..].
  destruct (b !! i) as [[y|]|] eqn:Ei;
    [|intros [= <- <- <-]; apply same_live_from_refl..].
  assert (exists z, <[i := Some x]> b !! j = Some (Some z)) as [z Hz].
  { destruct (decide (i = j)) as [->|Hij].
    - exists x. apply list_lookup_insert_eq. by eapply lookup_lt_Some.
    - exists x. by rewrite list_lookup_insert_ne. }
  pose proof (same_live_from_insert d i b x y Hi Ei) as S1.
  pose proof (same_live_from_insert d j _ (moved_from x) z Hj Hz) as S2.
  destruct (sched w) as [|[] rest];
    try (intros [= <- <- <-]; apply same_live_from_refl);
    (destruct (decide (i < length b));
     [|intros [= <- <- <-]; apply same_live_from_refl]);
    (destruct (decide (j < length (<[i := Some x]> b)));
     [|intros [= <- <- <-]; exact S1]);
    intros [= <- <- <-]; by eapply same_live_from_trans.
Qed.

Lemma copy_assign_keeps d (src : buffer T) j i :
  d <= i -> keeps (same_live_from d) (copy_assign src j i).
Proof.
  intros Hi b w r b' w'.
  cbv beta iota delta
    [copy_assign bind load get ret undefined throw_point store put].
  destruct (src !! j) as [[x|]|];
    [|intros [= <- <- <-]; apply same_live_from_refl..].
  cbv beta iota.
  destruct (b !! i) as [[y|]|] eqn:Ei;
    [|intros [= <- <- <-]; apply same_live_from_refl..].
  pose proof (same_live_from_insert d i b x y Hi Ei) as S1.
  destruct (sched w) as [|[] rest];
    try (intros [= <- <- <-]; apply same_live_from_refl);
    (destruct (decide (i < length b));
     [|intros [= <- <- <-]; apply same_live_from_refl]);
    intros [= <- <- <-]; exact S1.
Qed.

Lemma std_move_keeps d n :
  forall j i, d <= j -> d <= i -> keeps (same_live_from d) (std_move (T := T) j n i).
Proof.
  induction n as [|n IH]; intros j i Hj Hi; cbn [std_move].
  - apply keeps_ret, same_live_from_refl.
  - apply keeps_bind; [apply same_live_from_trans|by apply move_assign_keeps|].
    intros _. apply IH; lia.
Qed.

Lemma std_copy_keeps d (src : buffer T) n :
  forall j i, d <= i -> keeps (same_live_from d) (std_copy src j n i).
Proof.
  induction n as [|n IH]; intros j i Hi; cbn [std_copy].
  - apply keeps_ret, same_live_from_refl.
  - apply keeps_bind; [apply same_live_from_trans|by apply copy_assign_keeps|].
    intros _. apply IH; lia.
Qed.

Lemma move_assign_defined j i b w :
  live_slots b !! j = Some true -> live_slots b !! i = Some true ->
  defined (move_assign j i b w).1.1.
Proof.
  intros [x Hj]%live_slots_lookup [y Hi]%live_slots_lookup.
  pose proof (lookup_lt_Some _ _ _ Hj) as Hjl.
  pose proof (lookup_lt_Some _ _ _ Hi) as Hil.
  cbv beta iota delta
    [move_assign bind load get ret undefined throw_point store put].
  rewrite Hj, Hi. cbv beta iota.
  destruct (sched w) as [|[] rest]; [|done|];
    (rewrite decide_True by done; cbv beta iota;
     by rewrite decide_True by (by rewrite length_insert)).
Qed.

Lemma std_move_defined n :
  forall j i b w,
    (forall x, j <= x < j + n -> live_slots b !! x = Some true) ->
    (forall x, i <= x < i + n -> live_slots b !! x = Some true) ->
    defined (std_move j n i b w).1.1.
Proof.
  induction n as [|n IH]; intros j i b w Hj Hi; cbn [std_move]; [done|].
  unfold bind.
  pose proof (move_assign_defined j i b w (Hj j ltac:(lia)) (Hi i ltac:(lia)))
    as Hd.
  destruct (move_assign j i b w) as [[r1 b1] w1] eqn:E.
  destruct r1 as [[]| | |]; try done.
  destruct (move_assign_keeps 0 j i ltac:(lia) ltac:(lia) _ _ _ _ _ E) as [Hl _].
  apply IH; intros x Hx; rewrite Hl; [apply Hj|apply Hi]; lia.
Qed.

Lemma destroy_at_live i b x w :
  b !! i = Some (Some x) -> destroy_at i b w = (Returns tt, <[i := None]> b, w).
Proof.
  intros Hi. pose proof (lookup_lt_Some _ _ _ Hi) as Hil.
  cbv beta iota delta [destroy_at bind load get ret undefined store put].
  rewrite Hi. cbv beta iota. by rewrite decide_True by done.
Qed.

Lemma live_slots_Forall_live b b' :
  live_slots b' = live_slots b -> Forall is_Some b -> Forall is_Some b'.
Proof.
  revert b'. induction b as [|o b IH]; intros [|o' b'] Hl Hb; try done.
  unfold live_slots in Hl. simpl in Hl. injection Hl as Ho Hl.
  apply Forall_cons in Hb as [[y ->] Hb].
  apply Forall_cons. split; [by destruct o'|by apply IH].
Qed.

Lemma live_slots_Forall_raw b b' :
  live_slots b' = live_slots b ->
  Forall (fun s => s = None) b -> Forall (fun s => s = None) b'.
Proof.
  revert b'. induction b as [|o b IH]; intros [|o' b'] Hl Hb; try done.
  unfold live_slots in Hl. simpl in Hl. injection Hl as Ho Hl.
  apply Forall_cons in Hb as [-> Hb].
  apply Forall_cons. split; [by destruct o'|by apply IH].
Qed.

Lemma wf_same_live v b' :
  Vector.wf v ->
  live_slots b' = live_slots (RawMemory.buffer_ (Vector.data_ v)) ->
  Vector.wf (update Vector.block b' v).
Proof.
  intros [Hb Hs Hlive Hraw] Hl. split; lens_simpl.
  - by rewrite (live_slots_length _ _ Hl).
  - done.
  - eapply live_slots_Forall_live; [|exact Hlive].
    unfold live_slots in *. by rewrite !fmap_take, Hl.
  - eapply live_slots_Forall_raw; [|exact Hraw].
    unfold live_slots in *. by rewrite !fmap_drop, Hl.
Qed.

Lemma zoom_inv {St V A} (f : lens St V) (m : M V A) s w r s' w' :
  zoom f m s w = (r, s', w') ->
  exists x', m (view f s) w = (r, x', w') /\ s' = update f x' s.
Proof.
  unfold zoom. destruct (m (view f s) w) as [[r1 x1] w1].
  intros [= <- <- <-]. by exists x1.
Qed.

Lemma uninitialized_copy_n_throws (src : buffer T) n :
  forall j d b w b' w',
    (forall i, d <= i < d + n -> b !! i = Some None) ->
    uninitialized_copy_n src j n d b w = (Throws, b', w') -> b' = b.
Proof.
  induction n as [|n IH]; intros j d b w b' w' Hraw; cbn [uninitialized_copy_n];
    [done|].
  intros [H1|([] & b1 & w1 & H1 & H2)]%bind_throws_inv.
  - unfold copy_construct in H1. destruct (src !! j) as [[x|]|]; try done.
    by apply construct_at_throws in H1.
  - unfold copy_construct in H1. destruct (src !! j) as [[x|]|]; try done.
    assert (b1 = <[d := Some x]> b /\ d < length b) as [-> Hd].
    { revert H1. cbv beta iota delta [construct_at bind get throw_point put].
      destruct (decide (d < length b)); [|done].
      destruct (sched w) as [|[] rest]; intros [= E _]; (split; [by symmetry|done]). }
    unfold try_catch in H2.
    destruct (uninitialized_copy_n src (S j) n (S d) _ w1) as [[r2 b2] w2] eqn:E2.
    destruct r2; try done.
    apply IH in E2 as ->.
    2:{ intros i Hi. rewrite list_lookup_insert_ne by lia. apply Hraw. lia. }
    apply bind_throws_inv in H2 as [H2|([] & b3 & w3 & H2 & [= <- <-])].
    { by apply never_throws_destroy_at in H2. }
    rewrite (destroy_at_live d _ x) in H2 by (by apply list_lookup_insert_eq).
    injection H2 as <- _. rewrite list_insert_insert_eq.
    apply list_insert_id, Hraw. lia.
Qed.

Lemma uninitialized_value_construct_n_throws n :
  forall d b w b' w',
    (forall i, d <= i < d + n -> b !! i = Some None) ->
    uninitialized_value_construct_n d n b w = (Throws, b', w') -> b' = b.
Proof.
  induction n as [|n IH]; intros d b w b' w' Hraw;
    cbn [uninitialized_value_construct_n]; [done|].
  intros [H1|([] & b1 & w1 & H1 & H2)]%bind_throws_inv.
  - by apply construct_at_throws in H1.
  - assert (b1 = <[d := Some value_initialized]> b /\ d < length b) as [-> Hd].
    { revert H1. cbv beta iota delta [construct_at bind get throw_point put].
      destruct (decide (d < length b)); [|done].
      destruct (sched w) as [|[] rest]; intros [= E _]; (split; [by symmetry|done]). }
    unfold try_catch in H2.
    destruct (uninitialized_value_construct_n (S d) n _ w1) as [[r2 b2] w2] eqn:E2.
    destruct r2; try done.
    apply IH in E2 as ->.
    2:{ intros i Hi. rewrite list_lookup_insert_ne by lia. apply Hraw. lia. }
    apply bind_throws_inv in H2 as [H2|([] & b3 & w3 & H2 & [= <- <-])].
    { by apply never_throws_destroy_at in H2. }
    rewrite (destroy_at_live d _ value_initialized) in H2
      by (by apply list_lookup_insert_eq).
    injection H2 as <- _. rewrite list_insert_insert_eq.
    apply list_insert_id, Hraw. lia.
Qed.


Lemma live_slots_of_list l k x :
  x < length l -> live_slots ((Some <$> l) ++ replicate k None) !! x = Some true.
Proof.
  intros Hx. apply live_slots_lookup.
  destruct (lookup_lt_is_Some_2 l x Hx) as [y Hy].
  exists y. by rewrite lookup_app_l, list_lookup_fmap, Hy by len.
Qed.

Lemma elements_prefix v v' d :
  Vector.wf v -> Vector.wf v' ->
  Vector.Size v' = Vector.Size v -> d <= Vector.Size v ->
  take d (RawMemory.buffer_ (Vector.data_ v'))
  = take d (RawMemory.buffer_ (Vector.data_ v)) ->
  forall j, j < d -> Vector.elements v' !! j = Vector.elements v !! j.
Proof.
  intros (l & k & ->)%wf_is_of_list (l' & k' & ->)%wf_is_of_list.
  rewrite !elements_of_list. unfold Vector.Size.
  cbn [Vector.of_list Vector.data_ Vector.size_ RawMemory.buffer_].
  intros Hs Hd Ht j Hj.
  rewrite !take_app_le, <- !fmap_take in Ht by len.
  apply (inj (fmap Some)) in Ht.
  by rewrite <- (lookup_take_lt l' d j), <- (lookup_take_lt l d j), Ht by done.
Qed.

(** X15.  [Erase(pos)] within its precondition either returns [pos] or
    lets an exception of a move assignment through; nothing undefined
    happens and no [assert] fails.  Whichever it is, the vector is left
    well formed with its capacity, and the elements before [pos] are
    untouched; when the exception escapes the size is kept too, so every
    slot below [Size()] still holds an object. *)
Theorem Erase_basic_guarantee v pos w r v' w' :
  Vector.wf v -> pos < Vector.Size v ->
  Vector.Erase pos v w = (r, v', w') ->
  (r = Returns pos \/ r = Throws) /\
  Vector.wf v' /\
  Vector.Capacity v' = Vector.Capacity v /\
  (r = Throws -> Vector.Size v' = Vector.Size v) /\
  (forall j, j < pos -> Vector.elements v' !! j = Vector.elements v !! j).
Proof.
  intros Hwf Hpos HE.
  assert ((exists b1, r = Throws /\ v' = update Vector.block b1 v /\
                      same_live_from pos (RawMemory.buffer_ (Vector.data_ v)) b1)
          \/ exists a, r = Returns a) as [(b1 & -> & -> & Hl & Ht)|[a ->]].
  { destruct (wf_is_of_list _ Hwf) as (l & k & ->).
    unfold Vector.Size in Hpos. cbn [Vector.of_list Vector.size_] in Hpos.
    revert HE. unfold Vector.Erase. rewrite bind_get.
    rewrite bind_assert by (by apply Nat.ltb_lt).
    cbn [Vector.of_list Vector.size_]. unfold bind at 1.
    destruct (zoom Vector.block _ _ w) as [[r1 v1] w1] eqn:E1.
    apply zoom_inv in E1 as (b1 & E1 & ->).
    pose proof (std_move_keeps pos (length l - (pos + 1)) (pos + 1) pos
                  ltac:(lia) ltac:(lia) _ _ _ _ _ E1) as Hk.
    pose proof (std_move_defined (length l - (pos + 1)) (pos + 1) pos
                  (view Vector.block (Vector.of_list l k)) w) as Hd.
    rewrite E1 in Hd. simpl in Hd.
    destruct r1 as [[]| | |].
    - assert (exists z, b1 !! (length l - 1) = Some (Some z)) as [z Hz].
      { apply live_slots_lookup. rewrite (proj1 Hk).
        apply live_slots_of_list. lia. }
      zstep (destroy_at_live (length l - 1) b1 z w1 Hz); [|done].
      intros [= <- _ _]. right. by eexists.
    - intros [= <- <- <-]. left. by exists b1.
    - exfalso. apply Hd; intros x Hx; apply live_slots_of_list; lia.
    - exfalso. apply Hd; intros x Hx; apply live_slots_of_list; lia. }
  - assert (Vector.wf (update Vector.block b1 v)) as Hwf'
      by (by apply wf_same_live).
    split_and!; [by right|done|done|done|].
    apply elements_prefix; [done|done|done|unfold Vector.Size in *; lia|done].
  - destruct (wf_is_of_list _ Hwf) as (l & k & ->).
    unfold Vector.Size in Hpos. cbn [Vector.of_list Vector.size_] in Hpos.
    destruct (split_at l pos) as (l1 & l2 & -> & <-); [lia|].
    destruct l2 as [|x l2]; [rewrite app_nil_r in Hpos; lia|].
    destruct (returns_as_quiet _ _ _ _ _ _ _ _ (steady_Erase _)
                (Erase_of_list l1 x l2 k (hush w) eq_refl) HE) as [-> ->].
    split_and!; [by left|apply wf_of_list| |done|].
    + unfold Vector.Capacity. simpl. len.
    + intros j Hj. rewrite !elements_of_list.
      by rewrite !lookup_app_l by done.
Qed.


Lemma wf_raw_lookup v i :
  Vector.wf v -> Vector.size_ v <= i < Vector.Capacity v ->
  RawMemory.buffer_ (Vector.data_ v) !! i = Some None.
Proof.
  intros (l & k & ->)%wf_is_of_list. unfold Vector.Capacity, RawMemory.Capacity.
  cbn [Vector.of_list Vector.data_ Vector.size_ RawMemory.buffer_
       RawMemory.capacity_].
  intros Hi. rewrite lookup_app_r by len. rewrite length_fmap.
  apply lookup_replicate_2. lia.
Qed.

Lemma block_update_twice v b1 b2 :
  update Vector.block b2 (update Vector.block b1 v) = update Vector.block b2 v.
Proof. by destruct v as [[? ?] ?]. Qed.

(** X16.  A copy assignment that throws leaves the target usable: it
    is well formed, with the size and the capacity it had, so every slot
    below [Size()] still holds an object (of the old or of the new
    value) and nothing beyond it does; no other object has changed. *)
Theorem copy_assignment_basic_guarantee a c (s : Vector.store T) w s' w' :
  Vector.wf (view (Vector.obj a) s) ->
  Vector.op_assign a c s w = (Throws, s', w') ->
  Vector.wf (view (Vector.obj a) s') /\
  Vector.Size (view (Vector.obj a) s') = Vector.Size (view (Vector.obj a) s) /\
  Vector.Capacity (view (Vector.obj a) s')
  = Vector.Capacity (view (Vector.obj a) s) /\
  (forall x, x <> a -> view (Vector.obj x) s' = view (Vector.obj x) s).
Proof.
  intros Hwf. unfold Vector.op_assign.
  destruct (decide (a <> c)) as [Hab|_]; [|done].
  rewrite bind_get. cbv zeta.
  set (va := view (Vector.obj a) s) in *. set (vb := view (Vector.obj c) s).
  assert (forall b1,
    live_slots b1 = live_slots (RawMemory.buffer_ (Vector.data_ va)) ->
    s' = update (lens_comp (Vector.obj a) Vector.block) b1 s ->
    Vector.wf (view (Vector.obj a) s') /\
    Vector.Size (view (Vector.obj a) s') = Vector.Size va /\
    Vector.Capacity (view (Vector.obj a) s') = Vector.Capacity va /\
    (forall x, x <> a -> view (Vector.obj x) s' = view (Vector.obj x) s)) as Hdone.
  { intros b1 Hl ->. cbn [update lens_comp]. rewrite view_update_eq.
    fold va. split_and!; [by apply wf_same_live|done|done|].
    intros x Hx. by rewrite view_update_ne. }
  destruct (Vector.size_ vb <=? Vector.Capacity va) eqn:Hfits.
  - apply Nat.leb_le in Hfits.
    intros [H1|([] & s1 & w1 & _ & H2)]%bind_throws_inv.
    2:{ apply zoom_inv in H2 as (? & H2 & _). done. }
    destruct (Vector.size_ va <=? Vector.size_ vb) eqn:Hle.
    + apply Nat.leb_le in Hle.
      apply bind_throws_inv in H1 as [H1|([] & s1 & w1 & H1 & H2)].
      * apply zoom_inv in H1 as (b1 & H1 & ->).
        destruct (std_copy_keeps 0 _ _ _ _ (Nat.le_0_l _) _ _ _ _ _ H1) as [Hl _].
        by apply (Hdone b1).
      * apply zoom_inv in H1 as (b1 & H1 & ->).
        destruct (std_copy_keeps 0 _ _ _ _ (Nat.le_0_l _) _ _ _ _ _ H1) as [Hl _].
        apply zoom_inv in H2 as (b2 & H2 & ->).
        cbn [view update lens_comp] in H2. rewrite view_update_eq in H2.
        fold va in H2.
        cbn [view update lens_comp Vector.block Vector.data_l Vector.data_
             RawMemory.buffer_l RawMemory.buffer_] in H2.
        apply uninitialized_copy_n_throws in H2 as ->.
        2:{ intros i Hi.
            apply (wf_raw_lookup (update Vector.block b1 va));
              [by apply wf_same_live|].
            unfold Vector.Capacity, RawMemory.Capacity in *. lens_simpl. lia. }
        apply (Hdone b1); [done|].
        cbn [view update lens_comp]. rewrite view_update_eq. fold va.
        rewrite block_update_twice.
        unfold Vector.obj. cbn [update]. by rewrite insert_insert_eq.
    + apply bind_throws_inv in H1 as [H1|([] & s1 & w1 & H1 & H2)].
      * apply zoom_inv in H1 as (b1 & H1 & ->).
        destruct (std_copy_keeps 0 _ _ _ _ (Nat.le_0_l _) _ _ _ _ _ H1) as [Hl _].
        by apply (Hdone b1).
      * apply zoom_inv in H2 as (b2 & H2 & _).
        by apply never_throws_destroy_n in H2.
  - intros [H1|(cp & s1 & w1 & _ & H2)]%bind_throws_inv.
    + apply copy_ctor_frame in H1 as ->. by split_and!.
    + exfalso. revert H2.
      apply never_throws_with_local;
        auto using never_throws_Swap, never_throws_dtor.
Qed.


Lemma Reserve_throws_frame c v w v' w' :
  is_nothrow_move_constructible || is_copy_constructible = true ->
  Vector.Reserve c v w = (Throws, v', w') -> v' = v.
Proof.
  intros Htraits. unfold Vector.Reserve. rewrite bind_get.
  destruct (c <=? Vector.Capacity v); [done|].
  intros [H1|(nd & v1 & w1 & H1 & H2)]%bind_throws_inv.
  { by apply RawMemory_ctor_frame in H1. }
  apply RawMemory_ctor_frame in H1 as ->.
  apply with_local_throws in H2 as [nd' H2].
  apply bind_throws_inv in H2 as [H2|(? & [v2 nd2] & w2 & H2 & H3)].
  - destruct (transfer_frame _ _ _ _ _ _ _ _ _ _ Htraits H2) as [Hn|Hv]; [|done].
    by apply never_throws_transfer in H2.
  - by apply never_throws_commit in H3.
Qed.

(** A [Resize] that throws, on a [size_t] that never wraps. *)
Lemma Resize_basic_guarantee_unbounded v n w v' w' :
  is_nothrow_move_constructible || is_copy_constructible = true ->
  Vector.wf v ->
  Vector.Resize n v w = (Throws, v', w') ->
  Vector.wf v' /\
  Vector.elements v' = Vector.elements v /\
  Vector.Size v' = Vector.Size v /\
  Vector.Capacity v <= Vector.Capacity v' /\
  (n <= Vector.Capacity v -> v' = v) /\
  Vector.Size v < n.
Proof.
  intros Htraits (l & k & ->)%wf_is_of_list. unfold Vector.Resize.
  rewrite bind_get.
  unfold Vector.Size, Vector.Capacity, RawMemory.Capacity.
  cbn [Vector.of_list Vector.data_ Vector.size_ RawMemory.capacity_].
  intros [H1|([] & v1 & w1 & _ & H2)]%bind_throws_inv;
    [|by apply put_size_never_throws in H2].
  destruct (Nat.ltb_spec n (length l)) as [Hn|Hn].
  { apply zoom_inv in H1 as (? & H1 & _). by apply never_throws_destroy_n in H1. }
  apply bind_throws_inv in H1 as [H1|([] & v1 & w1 & H1 & H2)].
  - destruct (Nat.ltb_spec (length l + k) n) as [Hlt|Hge]; [|done].
    apply Reserve_throws_frame in H1 as ->; [|done].
    split_and!; [apply wf_of_list|done|done|done|done|lia].
  - assert (length l < n) as Hlt.
    { destruct (decide (n = length l)) as [->|]; [|lia].
      rewrite Nat.sub_diag in H2. by apply zoom_inv in H2 as (? & [=] & _). }
    assert (exists k0, v1 = Vector.of_list l k0 /\ n <= length l + k0 /\ k <= k0
                       /\ (n <= length l + k -> k0 = k))
      as (k0 & -> & Hk0 & Hkk & Hsame).
    { destruct (Nat.ltb_spec (length l + k) n) as [Hgrow|Hfit].
      - exists (Nat.max ((length l + k) * 2) n - length l).
        split_and!; [|lia|lia|lia].
        exact (proj2 (returns_as_quiet _ _ _ _ _ _ _ _ (steady_Reserve _)
                        (Reserve_of_list_grows l k
                           (Nat.max ((length l + k) * 2) n) (hush w) eq_refl
                           ltac:(lia))
                        H1)).
      - injection H1 as <- _. exists k. by split_and!. }
    apply zoom_inv in H2 as (b2 & H2 & ->).
    apply uninitialized_value_construct_n_throws in H2 as ->.
    2:{ intros i Hi. apply (wf_raw_lookup (Vector.of_list l k0));
          [apply wf_of_list|].
        unfold Vector.Capacity. simpl. lia. }
    replace (update Vector.block (view Vector.block (Vector.of_list l k0))
               (Vector.of_list l k0)) with (Vector.of_list l k0) by done.
    split_and!; [apply wf_of_list|by rewrite !elements_of_list|done| |
                 |done].
    + simpl. lia.
    + intros Hfit. by rewrite Hsame.
Qed.

(** X18.  What the handler of the in-place path of [Emplace] does when
    the first operation of that path throws (the copy of the argument,
    or the construction at [end()]): on a vector that is not empty,
    [operator delete] is applied to [end()], a pointer [operator new]
    never returned, which is undefined, so that no exception ever leaves
    that path; on an empty vector with a block, the block is handed to
    [operator delete] while [data_] keeps pointing to it, and the
    exception is rethrown with the vector looking unchanged. *)
Theorem Emplace_in_place_exception v pos x w rest :
  Vector.wf v ->
  Vector.Size v < Vector.Capacity v -> pos <= Vector.Size v ->
  sched w = true :: rest ->
  (0 < Vector.Size v ->
   Vector.Emplace pos x v w = (Undefined, v, mkWorld rest (released_live w)) /\
   forall w0 v' w', Vector.Emplace pos x v w0 <> (Throws, v', w')) /\
  (Vector.Size v = 0 ->
   Vector.Emplace pos x v w
   = (Throws, v, mkWorld rest (S (released_live w)))).
Proof.
  intros (l & k & ->)%wf_is_of_list.
  unfold Vector.Size, Vector.Capacity, RawMemory.Capacity.
  cbn [Vector.of_list Vector.data_ Vector.size_ RawMemory.capacity_].
  intros Hspare Hpos Hw.
  assert (Vector.Emplace pos x (Vector.of_list l k) w
          = ((Vector.operator_delete (length l);; throw (A := unit));;
             zoom Vector.size_l (put (length l + 1));; ret pos)
              (Vector.of_list l k) (mkWorld rest (released_live w))) as E.
  { unfold Vector.Emplace. rewrite bind_get.
    rewrite bind_assert by (by apply Nat.leb_le).
    unfold Vector.Capacity, RawMemory.Capacity.
    cbn [Vector.of_list Vector.data_ Vector.size_ RawMemory.capacity_].
    rewrite (proj2 (Nat.leb_gt _ _)) by lia.
    unfold bind at 1. unfold try_catch.
    destruct (Nat.eqb_spec pos (length l)) as [->|Hne]; cbn [negb].
    - unfold zoom at 1, construct_at. rewrite bind_get. lens_simpl.
      rewrite decide_True by len.
      unfold bind at 1, throw_point. rewrite Hw. cbv beta iota.
      unfold bind at 1. by destruct l.
    - unfold bind at 1, throw_point. rewrite Hw. cbv beta iota.
      reflexivity. }
  split.
  - intros Hl. split.
    + rewrite E. unfold Vector.operator_delete. rewrite !bind_bind, bind_get.
      by rewrite (proj2 (Nat.eqb_neq _ _)) by lia.
    + intros w0 v' w'. unfold Vector.Emplace. rewrite bind_get.
      rewrite bind_assert by (by apply Nat.leb_le).
      unfold Vector.Capacity, RawMemory.Capacity.
      cbn [Vector.of_list Vector.data_ Vector.size_ RawMemory.capacity_].
      rewrite (proj2 (Nat.leb_gt _ _)) by lia.
      apply never_throws_bind;
        [|intros []; auto using never_throws_index with nothrow].
      intros s0 w1 s1 w2. unfold try_catch.
      destruct (_ s0 w1) as [[[[]| | |] s2] w3]; try done.
      unfold Vector.operator_delete, bind, get.
      by rewrite (proj2 (Nat.eqb_neq _ _)) by lia.
  - intros Hl. rewrite E. destruct l; [|done]. destruct k; [simpl in *; lia|].
    reflexivity.
Qed.


Lemma defined_bind {St A B} (m : M St A) (k : A -> M St B) s w :
  defined (m s w).1.1 ->
  (forall a s1 w1, m s w = (Returns a, s1, w1) -> defined (k a s1 w1).1.1) ->
  defined (bind m k s w).1.1.
Proof.
  unfold bind. destruct (m s w) as [[[a| | |] s1] w1]; simpl; try done.
  intros _ Hk. by apply Hk.
Qed.

Lemma construct_at_cases i x b w r b' w' :
  i < length b -> construct_at i x b w = (r, b', w') ->
  (r = Returns tt /\ b' = <[i := Some x]> b) \/ (r = Throws /\ b' = b).
Proof.
  intros Hi. cbv beta iota delta [construct_at bind get throw_point put].
  rewrite decide_True by done.
  destruct (sched w) as [|[] rest]; intros [= <- <- _]; auto.
Qed.

Lemma uninitialized_copy_n_defined (src : buffer T) n :
  forall j d b w,
    (forall i, j <= i < j + n -> live_slots src !! i = Some true) ->
    (forall i, d <= i < d + n -> b !! i = Some None) ->
    defined (uninitialized_copy_n src j n d b w).1.1.
Proof.
  induction n as [|n IH]; intros j d b w Hsrc Hraw;
    cbn [uninitialized_copy_n]; [done|].
  destruct (proj1 (live_slots_lookup src j) (Hsrc j ltac:(lia))) as [x Hx].
  pose proof (lookup_lt_Some _ _ _ (Hraw d ltac:(lia))) as Hd.
  unfold copy_construct. rewrite Hx. unfold bind.
  destruct (construct_at d x b w) as [[r1 b1] w1] eqn:E1.
  destruct (construct_at_cases _ _ _ _ _ _ _ Hd E1) as [[-> ->]|[-> ->]]; [|done].
  unfold try_catch.
  assert (forall i, S d <= i < S d + n -> <[d := Some x]> b !! i = Some None)
    as Hraw'.
  { intros i Hi. rewrite list_lookup_insert_ne by lia. apply Hraw. lia. }
  pose proof (IH (S j) (S d) (<[d := Some x]> b) w1
                ltac:(intros i Hi; apply Hsrc; lia) Hraw') as Hdef.
  destruct (uninitialized_copy_n src (S j) n (S d) _ w1) as [[r2 b2] w2] eqn:E2.
  destruct r2 as [[]| | |]; try done.
  apply uninitialized_copy_n_throws in E2 as ->; [|done].
  by rewrite (destroy_at_live d _ x) by (by apply list_lookup_insert_eq).
Qed.

Lemma transfer_defined l k nb c' w :
  is_nothrow_move_constructible || is_copy_constructible = true ->
  (forall i, i < length l -> nb !! i = Some None) ->
  defined (Vector.transfer 0 (length l) 0
             (Vector.of_list l k, RawMemory.mk nb c') w).1.1.
Proof.
  intros Htraits Hraw.
  assert (length l <= length nb) as Hlen.
  { destruct l as [|y l]; [simpl; lia|].
    pose proof (lookup_lt_Some _ _ _ (Hraw (length l) ltac:(simpl; lia))).
    simpl. lia. }
  unfold Vector.transfer.
  destruct is_nothrow_move_constructible eqn:Hn; cbn [orb].
  - rewrite (zoom_at _ _ _ _ _ _ _ _
               (uninitialized_move_n_run l 0 (length l) 0 [] (replicate k None) []
                  (take (length l) nb) (drop (length l) nb) w
                  eq_refl eq_refl eq_refl ltac:(len) (or_introl Hn))).
    + done.
    + unfold Vector.of_list. lens_simpl. by rewrite take_drop.
  - simpl in Htraits. rewrite Htraits. cbn [negb].
    rewrite bind_get. unfold zoom. lens_simpl.
    pose proof (uninitialized_copy_n_defined
                  ((Some <$> l) ++ replicate k None) (length l) 0 0 nb w) as Hd.
    destruct (uninitialized_copy_n _ 0 (length l) 0 nb w) as [[r b'] w'].
    apply Hd.
    + intros i Hi. apply live_slots_of_list. lia.
    + intros i Hi. apply Hraw. lia.
Qed.

Lemma commit_returns l' k n nd w :
  n = length l' ->
  (zoom (lens_comp lens_fst Vector.block) (destroy_n 0 n);;
   RawMemory.Swap (lens_comp lens_fst Vector.data_l) lens_snd)
    (Vector.mk (RawMemory.mk ((Some <$> l') ++ replicate k None) (n + k)) n, nd) w
  = (Returns tt,
     (Vector.mk nd n, RawMemory.mk (replicate n None ++ replicate k None) (n + k)),
     w).
Proof.
  intros ->.
  zstep (destroy_n_live 0 (length l') l' [] (replicate k None) w
           ltac:(done) ltac:(done)); [|done].
  lens_simpl. by rewrite RawMemory_Swap_local.
Qed.

Lemma reallocation_defined l k nb c' w :
  is_nothrow_move_constructible || is_copy_constructible = true ->
  (forall i, i < length l -> nb !! i = Some None) ->
  defined
    ((Vector.transfer 0 (length l) 0;;
      zoom (lens_comp lens_fst Vector.block) (destroy_n 0 (length l));;
      RawMemory.Swap (lens_comp lens_fst Vector.data_l) lens_snd)
       (Vector.of_list l k, RawMemory.mk nb c') w).1.1.
Proof.
  intros Htraits Hraw.
  assert (length l <= length nb) as Hlen.
  { destruct l as [|y l]; [simpl; lia|].
    pose proof (lookup_lt_Some _ _ _ (Hraw (length l) ltac:(simpl; lia))).
    simpl. lia. }
  apply defined_bind; [by apply transfer_defined|].
  intros [] s1 w1 Ht.
  destruct (transfer_quiet l 0 (length l) 0 [] (replicate k None) []
              (take (length l) nb) (drop (length l) nb)
              (length l + k) (length l) c' (hush w)) as (l' & Hl' & Hq);
    [done|done|done|len|done|].
  rewrite !app_nil_l, take_drop in Hq.
  destruct (returns_as_quiet _ _ _ _ _ _ _ _ (steady_transfer _ _ _) Hq Ht)
    as [_ ->].
  rewrite <- Hl'. by rewrite commit_returns.
Qed.


Lemma RawMemory_ctor_cases {St} n (s : St) w r s' w' :
  RawMemory.ctor (T := T) n s w = (r, s', w') ->
  s' = s /\ (r = Throws \/ r = Returns (RawMemory.mk (replicate n None) n)).
Proof.
  unfold RawMemory.ctor, RawMemory.Allocate. rewrite slots_unbounded.
  unfold bind, throw_point, ret.
  destruct n as [|n]; cbn [Nat.eqb negb]; [intros [= <- <- _]; auto|].
  destruct (sched w) as [|[] rest]; intros [= <- <- _]; auto.
Qed.

Lemma zoom_construct_at_defined {St} (f : lens St (buffer T)) i x s w :
  i < length (view f s) -> defined (zoom f (construct_at i x) s w).1.1.
Proof.
  intros Hi. unfold zoom.
  destruct (construct_at i x (view f s) w) as [[r b1] w1] eqn:E.
  by destruct (construct_at_cases _ _ _ _ _ _ _ Hi E) as [[-> _]|[-> _]].
Qed.

Lemma uninitialized_value_construct_n_defined n :
  forall d b w,
    (forall i, d <= i < d + n -> b !! i = Some None) ->
    defined (uninitialized_value_construct_n d n b w).1.1.
Proof.
  induction n as [|n IH]; intros d b w Hraw;
    cbn [uninitialized_value_construct_n]; [done|].
  pose proof (lookup_lt_Some _ _ _ (Hraw d ltac:(lia))) as Hd.
  unfold bind.
  destruct (construct_at d value_initialized b w) as [[r1 b1] w1] eqn:E1.
  destruct (construct_at_cases _ _ _ _ _ _ _ Hd E1) as [[-> ->]|[-> ->]]; [|done].
  unfold try_catch.
  assert (forall i, S d <= i < S d + n ->
                    <[d := Some value_initialized]> b !! i = Some None) as Hraw'.
  { intros i Hi. rewrite list_lookup_insert_ne by lia. apply Hraw. lia. }
  pose proof (IH (S d) (<[d := Some value_initialized]> b) w1 Hraw') as Hdef.
  destruct (uninitialized_value_construct_n (S d) n _ w1) as [[r2 b2] w2] eqn:E2.
  destruct r2 as [[]| | |]; try done.
  apply uninitialized_value_construct_n_throws in E2 as ->; [|done].
  by rewrite (destroy_at_live d _ value_initialized)
    by (by apply list_lookup_insert_eq).
Qed.

Lemma Reserve_defined l k c w :
  is_nothrow_move_constructible || is_copy_constructible = true ->
  defined (Vector.Reserve c (Vector.of_list l k) w).1.1.
Proof.
  intros Htraits. unfold Vector.Reserve. rewrite bind_get.
  unfold Vector.Capacity, RawMemory.Capacity.
  cbn [Vector.of_list Vector.data_ Vector.size_ RawMemory.capacity_].
  destruct (Nat.leb_spec c (length l + k)) as [Hc|Hc]; [done|].
  unfold bind at 1.
  destruct (RawMemory.ctor c _ w) as [[r1 s1] w1] eqn:E.
  apply RawMemory_ctor_cases in E as [-> [->| ->]]; [done|].
  rewrite with_local_raw. cbn [fst].
  apply reallocation_defined; [done|].
  intros i Hi. apply lookup_replicate_2. lia.
Qed.

Lemma PushBack_defined l k x w :
  is_nothrow_move_constructible || is_copy_constructible = true ->
  defined (Vector.PushBack x (Vector.of_list l k) w).1.1.
Proof.
  intros Htraits. unfold Vector.PushBack. rewrite bind_get.
  unfold Vector.Capacity, RawMemory.Capacity.
  cbn [Vector.of_list Vector.data_ Vector.size_ RawMemory.capacity_].
  apply defined_bind; [|done].
  destruct k as [|k].
  - rewrite (proj2 (Nat.leb_le _ _)) by lia.
    change (size_t_wrap (length l * 2)) with (length l * 2).
    set (c := if length l =? 0 then 1 else length l * 2).
    assert (length l < c) as Hc.
    { unfold c. destruct (Nat.eqb_spec (length l) 0); lia. }
    unfold bind at 1.
    destruct (RawMemory.ctor c _ w) as [[r1 s1] w1] eqn:E.
    apply RawMemory_ctor_cases in E as [-> [->| ->]]; [done|].
    rewrite with_local_raw. cbn [fst].
    apply defined_bind.
    { apply zoom_construct_at_defined. lens_simpl. len. }
    intros [] s1 w2 (b1 & Hb1 & ->)%zoom_inv.
    cbn [view lens_comp lens_snd snd RawMemory.buffer_l RawMemory.buffer_] in Hb1.
    apply construct_at_cases in Hb1 as [[_ ->]|[[=] _]];
      [|by rewrite length_replicate].
    apply (reallocation_defined l 0); [done|].
    intros i Hi. lens_simpl. rewrite list_lookup_insert_ne by lia.
    apply lookup_replicate_2. lia.
  - rewrite (proj2 (Nat.leb_gt _ _)) by lia.
    apply zoom_construct_at_defined. lens_simpl. len.
Qed.

Lemma EmplaceBack_as_PushBack (x : T) v w :
  Vector.EmplaceBack x v w
  = (Vector.PushBack x;; RawMemory.index Vector.data_l (Vector.size_ v)) v w.
Proof.
  unfold Vector.EmplaceBack, Vector.PushBack.
  by rewrite !bind_bind, !bind_get, !bind_bind.
Qed.

Lemma copy_ctor_defined {St} l k (s : St) w :
  defined (Vector.copy_ctor (Vector.of_list l k) s w).1.1.
Proof.
  unfold Vector.copy_ctor. cbn [Vector.of_list Vector.size_].
  unfold bind at 1.
  destruct (RawMemory.ctor (length l) s w) as [[r1 s1] w1] eqn:E.
  apply RawMemory_ctor_cases in E as [-> [->| ->]]; [done|].
  unfold construct, zoom. lens_simpl.
  pose proof (uninitialized_copy_n_defined ((Some <$> l) ++ replicate k None)
                (length l) 0 0 (replicate (length l) None) w1) as Hd.
  destruct (uninitialized_copy_n _ 0 (length l) 0 _ w1) as [[[[]| | |] b'] w'];
    try done; exfalso; apply Hd;
    (intros i Hi; first [apply live_slots_of_list; lia
                        |apply lookup_replicate_2; lia]).
Qed.

Lemma Resize_defined l k n w :
  is_nothrow_move_constructible || is_copy_constructible = true ->
  defined (Vector.Resize n (Vector.of_list l k) w).1.1.
Proof.
  intros Htraits.
  destruct (Nat.le_gt_cases n (length l)) as [Hn|Hn].
  { by rewrite Resize_of_list_shrink. }
  unfold Vector.Resize. rewrite bind_get.
  unfold Vector.Capacity, RawMemory.Capacity.
  cbn [Vector.of_list Vector.data_ Vector.size_ RawMemory.capacity_].
  rewrite (proj2 (Nat.ltb_ge n (length l))) by lia.
  apply defined_bind; [|done].
  apply defined_bind.
  { destruct (length l + k <? n); [by apply Reserve_defined|done]. }
  intros [] v1 w1 H1.
  assert (exists k0, v1 = Vector.of_list l k0 /\ n <= length l + k0)
    as (k0 & -> & Hk0).
  { destruct (Nat.ltb_spec (length l + k) n) as [Hgrow|Hfit].
    - exists (Nat.max ((length l + k) * 2) n - length l). split; [|lia].
      exact (proj2 (returns_as_quiet _ _ _ _ _ _ _ _ (steady_Reserve _)
                      (Reserve_of_list_grows l k
                         (Nat.max ((length l + k) * 2) n) (hush w) eq_refl
                         ltac:(lia))
                      H1)).
    - injection H1 as <- _. by exists k. }
  unfold zoom.
  pose proof (uninitialized_value_construct_n_defined (n - length l) (length l)
                (view Vector.block (Vector.of_list l k0)) w1) as Hd.
  destruct (uninitialized_value_construct_n _ _ _ w1) as [[r b'] w'].
  apply Hd. intros i Hi.
  apply (wf_raw_lookup (Vector.of_list l k0)); [apply wf_of_list|].
  unfold Vector.Capacity. simpl. lia.
Qed.

(** The outcomes of the growing calls on a [size_t] that never wraps. *)
Lemma growth_is_defined_unbounded v w :
  is_nothrow_move_constructible || is_copy_constructible = true ->
  Vector.wf v ->
  (forall c, defined (Vector.Reserve c v w).1.1) /\
  (forall x, defined (Vector.PushBack x v w).1.1) /\
  (forall x, defined (Vector.EmplaceBack x v w).1.1) /\
  (forall n, defined (Vector.Resize n v w).1.1) /\
  (forall p : nat, defined (Vector.copy_ctor v p w).1.1).
Proof.
  intros Htraits (l & k & ->)%wf_is_of_list. split_and!.
  - intros c. by apply Reserve_defined.
  - intros x. by apply PushBack_defined.
  - intros x. rewrite EmplaceBack_as_PushBack.
    apply defined_bind; [by apply PushBack_defined|].
    intros [] v1 w1 Hp.
    destruct (returns_as_quiet _ _ _ _ _ _ _ _ (steady_PushBack _)
                (PushBack_of_list l x k (hush w) eq_refl) Hp) as [_ ->].
    rewrite RawMemory_index_run; [done|]. simpl. len.
  - intros n. by apply Resize_defined.
  - intros p. apply copy_ctor_defined.
Qed.

End Basic_guarantee.

(** * The capacity along a program *)

Section Capacity.
Context {T : Type} `{Element T}.
Implicit Types (s : Vector.store T) (l : list T) (w : World) (m : contents T).

Lemma object_step {A} (op : M (Vector.t T) A) a s w r v' :
  op (view (Vector.obj a) s) w = (Returns r, v', w) ->
  Vector.Capacity (view (Vector.obj a) s) <= Vector.Capacity v' ->
  exists s',
    zoom (Vector.obj a) op s w = (Returns r, s', w) /\
    forall x, Vector.Capacity (view (Vector.obj x) s)
              <= Vector.Capacity (view (Vector.obj x) s').
Proof.
  intros E Hc. exists (update (Vector.obj a) v' s). split.
  - exact (zoom_at _ _ _ _ _ _ _ _ E eq_refl).
  - intros x. destruct (decide (x = a)) as [->|Hx].
    + by rewrite view_update_eq.
    + by rewrite view_update_ne.
Qed.

Lemma capacity_of_list l k :
  Vector.Capacity (Vector.of_list l k) = length l + k.
Proof. done. Qed.

Lemma exec_capacity c s m m' w :
  represents s m -> expect c m = Some m' -> keeps_block c = true -> quiet w ->
  exists s',
    exec c s w = (Returns tt, s', w) /\
    forall x, Vector.Capacity (view (Vector.obj x) s)
              <= Vector.Capacity (view (Vector.obj x) s').
Proof.
  intros Hr He Hk Hw.
  destruct c as [a x|a x|a pos x|a pos x|a pos|a|a n|a n|a b|a b|a b|a b|a b];
    try done; cbn [exec expect] in *;
    try (destruct (represents_lookup s m a Hr) as [k Ek]).
  - destruct (object_step (Vector.PushBack x) a s w tt _
                ltac:(rewrite Ek; by apply PushBack_of_list)) as (s' & E & C);
      [|by exists s'].
    rewrite Ek, !capacity_of_list, length_app. simpl. destruct k; [|lia].
    destruct (Nat.eqb_spec (length (m a)) 0); lia.
  - destruct (object_step (Vector.EmplaceBack x) a s w _ _
                ltac:(rewrite Ek; by apply EmplaceBack_of_list)) as (s' & E & C).
    { rewrite Ek, !capacity_of_list, length_app. simpl. destruct k; [|lia].
      destruct (Nat.eqb_spec (length (m a)) 0); lia. }
    exists s'. by rewrite (bind_returns _ _ _ _ _ _ _ E).
  - destruct (Nat.leb_spec pos (length (m a))) as [Hpos|]; [|done].
    destruct (split_at (m a) pos Hpos) as (l1 & l2 & El & <-).
    rewrite El in Ek.
    destruct (object_step (Vector.Insert (length l1) x) a s w _ _
                ltac:(rewrite Ek; by apply Emplace_of_list)) as (s' & E & C).
    { rewrite Ek, !capacity_of_list, !length_app. simpl. destruct k; [|lia].
      destruct (Nat.eqb_spec (length l1 + length l2) 0); lia. }
    exists s'. by rewrite (bind_returns _ _ _ _ _ _ _ E).
  - destruct (Nat.leb_spec pos (length (m a))) as [Hpos|]; [|done].
    destruct (split_at (m a) pos Hpos) as (l1 & l2 & El & <-).
    rewrite El in Ek.
    destruct (object_step (Vector.Emplace (length l1) x) a s w _ _
                ltac:(rewrite Ek; by apply Emplace_of_list)) as (s' & E & C).
    { rewrite Ek, !capacity_of_list, !length_app. simpl. destruct k; [|lia].
      destruct (Nat.eqb_spec (length l1 + length l2) 0); lia. }
    exists s'. by rewrite (bind_returns _ _ _ _ _ _ _ E).
  - destruct (Nat.ltb_spec pos (length (m a))) as [Hpos|]; [|done].
    destruct (split_at (m a) pos) as (l1 & l2 & El & <-); [lia|].
    rewrite El in Ek, Hpos.
    destruct l2 as [|y l2]; [rewrite app_nil_r in Hpos; lia|].
    destruct (object_step (Vector.Erase (length l1)) a s w _ _
                ltac:(rewrite Ek; by apply Erase_of_list)) as (s' & E & C).
    { rewrite Ek, !capacity_of_list, !length_app. simpl. lia. }
    exists s'. by rewrite (bind_returns _ _ _ _ _ _ _ E).
  - destruct (Nat.eqb_spec (length (m a)) 0) as [|Hlen]; [done|].
    destruct (snoc_cases (m a)) as (l' & y & El); [lia|].
    rewrite El in Ek.
    destruct (object_step Vector.PopBack a s w tt _
                ltac:(rewrite Ek; by apply PopBack_of_list)) as (s' & E & C);
      [|by exists s'].
    rewrite Ek, !capacity_of_list, !length_app. simpl. lia.
  - destruct (Nat.le_gt_cases n (length (m a) + k)) as [Hn|Hn].
    + destruct (object_step (Vector.Reserve n) a s w tt _
                  ltac:(rewrite Ek; by apply Reserve_of_list_fits))
        as (s' & E & C); [|by exists s'].
      by rewrite Ek.
    + destruct (object_step (Vector.Reserve n) a s w tt _
                  ltac:(rewrite Ek; by apply Reserve_of_list_grows))
        as (s' & E & C); [|by exists s'].
      rewrite Ek, !capacity_of_list. lia.
  - destruct (Nat.le_gt_cases n (length (m a))) as [Hn|Hn].
    + destruct (object_step (Vector.Resize n) a s w tt _
                  ltac:(rewrite Ek; by apply Resize_of_list_shrink))
        as (s' & E & C); [|by exists s'].
      rewrite Ek, !capacity_of_list, length_take. lia.
    + destruct (object_step (Vector.Resize n) a s w tt _
                  ltac:(rewrite Ek; apply Resize_of_list_grow; [done|lia]))
        as (s' & E & C); [|by exists s'].
      rewrite Ek, !capacity_of_list, length_app, length_replicate.
      destruct (Nat.ltb_spec (length (m a) + k) n); lia.
  - destruct (decide (a = b)) as [->|Hab].
    + exists s. split; [|done].
      unfold Vector.op_assign. by rewrite decide_False by (by intros []).
    + destruct (represents_lookup s m b Hr) as [kb Eb].
      destruct (op_assign_quiet a b s _ _ _ _ w Hab Ek Eb Hw) as (s' & E & Hv & Hx).
      exists s'. split; [done|]. intros x.
      destruct (decide (x = a)) as [->|Hxa]; [|by rewrite Hx].
      rewrite Hv, Ek, !capacity_of_list.
      destruct (Nat.leb_spec (length (m b)) (length (m a) + k)); lia.
Qed.

Lemma run_capacity cs :
  forall s m m' w,
    represents s m -> expect_all cs m = Some m' ->
    forallb keeps_block cs = true -> quiet w ->
    exists s',
      run cs s w = (Returns tt, s', w) /\
      forall x, Vector.Capacity (view (Vector.obj x) s)
                <= Vector.Capacity (view (Vector.obj x) s').
Proof.
  induction cs as [|c cs IH]; intros s m m' w Hr He Hk Hw.
  - by exists s.
  - cbn [expect_all] in He. destruct (expect c m) as [m1|] eqn:E1; [|done].
    cbn [forallb] in Hk. apply andb_true_iff in Hk as [Hc Hcs].
    destruct (exec_expected c s m m1 w Hr E1 Hw) as (s1 & X1 & Hr1).
    destruct (exec_capacity c s m m1 w Hr E1 Hc Hw) as (s1' & X1' & C1).
    rewrite X1 in X1'. injection X1' as <-.
    destruct (IH s1 m1 m' w Hr1 He Hcs Hw) as (s' & X & C).
    exists s'. split.
    + cbn [run]. by rewrite (bind_returns _ _ _ _ _ _ _ X1).
    + intros x. etrans; [apply C1|apply C].
Qed.

(** X20.  The capacity of no vector ever goes down along a program of
    [PushBack], [EmplaceBack], [Insert], [Emplace], [Erase], [PopBack],
    [Reserve], [Resize] and copy assignments made within their
    preconditions on well-formed vectors: whenever such a program
    returns, every object has at least the capacity it started with. *)
Theorem capacity_never_shrinks cs s m m' w r s' w' :
  represents s m -> expect_all cs m = Some m' ->
  forallb keeps_block cs = true ->
  run cs s w = (Returns r, s', w') ->
  forall x, Vector.Capacity (view (Vector.obj x) s)
            <= Vector.Capacity (view (Vector.obj x) s').
Proof.
  intros Hr He Hk Hrun.
  destruct (run_capacity cs s m m' (hush w) Hr He Hk eq_refl) as (s0 & E & C).
  by destruct (returns_as_quiet _ _ _ _ _ _ _ _ (steady_run _) E Hrun) as [_ ->].
Qed.
End Capacity.

(** * Sizes given by the caller

    [Reserve], [Resize] and [Vector(n)] allocate for a size the caller
    chooses; the properties below hold on every layout, for the sizes
    whose byte count does not wrap in [size_t]. *)

Section Caller_sizes.
Context {T : Type} `{Element T} {L : Layout T}.
Implicit Types (v : Vector.t T) (l xs : list T) (w : World).

Lemma representable_le n m : representable n -> m <= n -> representable m.
Proof.
  unfold representable. destruct size_t_bits as [b|]; [|done].
  intros Hn Hm. eapply N.le_lt_trans; [|exact Hn].
  apply N.mul_le_mono_r. lia.
Qed.

Lemma slots_representable n : representable n -> slots (byte_count n) = n.
Proof.
  unfold representable, slots, byte_count. destruct size_t_bits as [b|].
  - intros Hn. rewrite N.mod_small by done.
    rewrite N.div_mul by done. apply Nat2N.id.
  - intros _. rewrite N.div_mul by done. apply Nat2N.id.
Qed.

Lemma size_t_wrap_representable n : representable n -> size_t_wrap n = n.
Proof.
  unfold representable, size_t_wrap. destruct size_t_bits as [b|]; [|done].
  intros Hn. rewrite N.mod_small; [apply Nat2N.id|].
  eapply N.le_lt_trans; [|exact Hn].
  rewrite <- (N.mul_1_r (N.of_nat n)) at 1. apply N.mul_le_mono_l. lia.
Qed.

(** Within the representable sizes the code runs as on a [size_t] that
    never wraps. *)
Lemma RawMemory_ctor_representable {St} n (s : St) w :
  representable n ->
  RawMemory.ctor (L := L) n s w
  = RawMemory.ctor (L := unbounded_layout T) n s w.
Proof.
  intros Hn. unfold RawMemory.ctor, RawMemory.Allocate.
  by rewrite (slots_representable n Hn), slots_unbounded.
Qed.

Lemma Reserve_representable c v w :
  (Vector.Capacity v < c -> representable c) ->
  Vector.Reserve (L := L) c v w
  = Vector.Reserve (L := unbounded_layout T) c v w.
Proof.
  intros Hc. unfold Vector.Reserve. rewrite !bind_get.
  destruct (Nat.leb_spec c (Vector.Capacity v)) as [|Hlt]; [done|].
  unfold bind. by rewrite (RawMemory_ctor_representable c v w (Hc Hlt)).
Qed.

Lemma Resize_representable n v w :
  (Vector.Capacity v < n -> representable (Nat.max (Vector.Capacity v * 2) n)) ->
  Vector.Resize (L := L) n v w
  = Vector.Resize (L := unbounded_layout T) n v w.
Proof.
  intros Hn. unfold Vector.Resize. rewrite !bind_get.
  destruct (n <? Vector.size_ v); [done|].
  destruct (Nat.ltb_spec (Vector.Capacity v) n) as [Hlt|]; [|done].
  specialize (Hn Hlt).
  rewrite (size_t_wrap_representable (Vector.Capacity v * 2))
    by (eapply representable_le; [exact Hn|lia]).
  unfold bind. by rewrite (Reserve_representable _ v w (fun _ => Hn)).
Qed.

Lemma ctor_representable {St} n (s : St) w :
  representable n ->
  Vector.ctor (L := L) n s w = Vector.ctor (L := unbounded_layout T) n s w.
Proof.
  intros Hn. unfold Vector.ctor, bind.
  by rewrite (RawMemory_ctor_representable n s w Hn).
Qed.

Lemma copy_ctor_representable {St} (o : Vector.t T) (s : St) w :
  representable (Vector.Size o) ->
  Vector.copy_ctor (L := L) o s w
  = Vector.copy_ctor (L := unbounded_layout T) o s w.
Proof.
  intros Hn. unfold Vector.Size in Hn. unfold Vector.copy_ctor, bind.
  by rewrite (RawMemory_ctor_representable _ s w Hn).
Qed.

Lemma growth_request_representable v :
  representable (if Vector.Size v =? 0 then 1 else Vector.Size v * 2) ->
  (if Vector.size_ v =? 0 then 1 else size_t_wrap (L := L) (Vector.size_ v * 2))
  = (if Vector.size_ v =? 0 then 1 else Vector.size_ v * 2).
Proof.
  unfold Vector.Size. destruct (Vector.size_ v =? 0); [done|].
  apply size_t_wrap_representable.
Qed.

Lemma PushBack_representable x v w :
  (Vector.Capacity v <= Vector.Size v ->
   representable (if Vector.Size v =? 0 then 1 else Vector.Size v * 2)) ->
  Vector.PushBack (L := L) x v w
  = Vector.PushBack (L := unbounded_layout T) x v w.
Proof.
  intros Hn. unfold Vector.PushBack. rewrite !bind_get.
  destruct (Nat.leb_spec (Vector.Capacity v) (Vector.size_ v)) as [Hfull|];
    [|done].
  specialize (Hn Hfull). rewrite (growth_request_representable v Hn).
  unfold Vector.Size in Hn.
  unfold bind. by rewrite (RawMemory_ctor_representable _ v w Hn).
Qed.

Lemma EmplaceBack_representable x v w :
  (Vector.Capacity v <= Vector.Size v ->
   representable (if Vector.Size v =? 0 then 1 else Vector.Size v * 2)) ->
  Vector.EmplaceBack (L := L) x v w
  = Vector.EmplaceBack (L := unbounded_layout T) x v w.
Proof.
  intros Hn. unfold Vector.EmplaceBack. rewrite !bind_get.
  destruct (Nat.leb_spec (Vector.Capacity v) (Vector.size_ v)) as [Hfull|];
    [|done].
  specialize (Hn Hfull). rewrite (growth_request_representable v Hn).
  unfold Vector.Size in Hn.
  unfold bind. by rewrite (RawMemory_ctor_representable _ v w Hn).
Qed.



(** X1.  For every [n] whose reallocation request, if one is needed, is
    representable in [size_t]: [Resize(n)] leaves a vector of size [n],
    whose first [min n size] elements are the old ones, in order, and
    whose elements from the old size on are value-initialised.  The
    capacity stays when [n] fits in it and becomes [max (2 * capacity) n]
    otherwise.  A call with [n] at most the size returns whatever the
    schedule: it only destroys. *)
Theorem Resize_value_initializes v n w :
  Vector.wf v ->
  (Vector.Capacity v < n -> representable (Nat.max (Vector.Capacity v * 2) n)) ->
  exists v',
    (quiet w -> Vector.Resize n v w = (Returns tt, v', w)) /\
    (forall r v1 w1, Vector.Resize n v w = (Returns r, v1, w1) -> v1 = v') /\
    (n <= Vector.Size v -> Vector.Resize n v w = (Returns tt, v', w)) /\
    Vector.wf v' /\
    Vector.Size v' = n /\
    Vector.elements v'
    = take n (Vector.elements v)
        ++ replicate (n - Vector.Size v) value_initialized /\
    Vector.Capacity v'
    = (if Vector.Capacity v <? n then Nat.max (Vector.Capacity v * 2) n
       else Vector.Capacity v).
Proof.
  intros Hwf Hn. rewrite (Resize_representable n v w Hn).
  by apply Resize_value_initializes_unbounded.
Qed.

(** X2.  For every [n] whose byte count is representable in [size_t]:
    [Vector(n)] constructs [n] value-initialised elements in a block of
    exactly [n] slots.  Whatever the outcome, the rest of the program
    state is untouched, and [Vector(0)] returns the empty vector on
    every schedule: it allocates nothing and constructs nothing. *)
Theorem ctor_value_initializes {St} n (s : St) w :
  representable n ->
  exists v',
    (quiet w -> Vector.ctor n s w = (Returns v', s, w)) /\
    (forall r s1 w1, Vector.ctor n s w = (Returns r, s1, w1) -> r = v') /\
    (forall (r : outcome (Vector.t T)) s1 w1,
        Vector.ctor n s w = (r, s1, w1) -> s1 = s) /\
    (n = 0 -> Vector.ctor n s w = (Returns Vector.default, s, w)) /\
    Vector.wf v' /\
    Vector.Size v' = n /\
    Vector.Capacity v' = n /\
    Vector.elements v' = replicate n value_initialized.
Proof.
  intros Hn. rewrite (ctor_representable n s w Hn).
  apply ctor_value_initializes_unbounded.
Qed.

(** X17.  For an element type that is copyable or whose move cannot
    throw, and a new size whose reallocation request, if one is needed,
    is representable in [size_t]: a [Resize] that throws loses nothing.
    The vector is well formed and holds the elements it held, in order,
    at the size it had.  Only the capacity may have grown, and not when
    the new size fitted in it, in which case the vector is exactly what
    it was.  A [Resize] to a size not above the current one never
    throws. *)
Theorem Resize_basic_guarantee v n w v' w' :
  is_nothrow_move_constructible || is_copy_constructible = true ->
  Vector.wf v ->
  (Vector.Capacity v < n -> representable (Nat.max (Vector.Capacity v * 2) n)) ->
  Vector.Resize n v w = (Throws, v', w') ->
  Vector.wf v' /\
  Vector.elements v' = Vector.elements v /\
  Vector.Size v' = Vector.Size v /\
  Vector.Capacity v <= Vector.Capacity v' /\
  (n <= Vector.Capacity v -> v' = v) /\
  Vector.Size v < n.
Proof.
  intros Htraits Hwf Hn. rewrite (Resize_representable n v w Hn).
  by apply Resize_basic_guarantee_unbounded.
Qed.

(** X19.  For an element type that is copyable or whose move cannot
    throw, on every schedule and on every layout, [Reserve], [PushBack],
    [EmplaceBack], [Resize] and the copy constructor applied to a
    well-formed vector end by returning or by throwing, provided the
    byte count of the block they ask for, if they ask for one, is
    representable in [size_t]: no [assert] fails, no raw slot is read or
    destroyed, no live slot is constructed over and nothing is written
    outside a block. *)
Theorem growth_is_defined v w :
  is_nothrow_move_constructible || is_copy_constructible = true ->
  Vector.wf v ->
  (forall c, (Vector.Capacity v < c -> representable c) ->
             defined (Vector.Reserve c v w).1.1) /\
  (forall x,
      (Vector.Capacity v <= Vector.Size v ->
       representable (if Vector.Size v =? 0 then 1 else Vector.Size v * 2)) ->
      defined (Vector.PushBack x v w).1.1) /\
  (forall x,
      (Vector.Capacity v <= Vector.Size v ->
       representable (if Vector.Size v =? 0 then 1 else Vector.Size v * 2)) ->
      defined (Vector.EmplaceBack x v w).1.1) /\
  (forall n,
      (Vector.Capacity v < n ->
       representable (Nat.max (Vector.Capacity v * 2) n)) ->
      defined (Vector.Resize n v w).1.1) /\
  (forall p : nat, representable (Vector.Size v) ->
                   defined (Vector.copy_ctor v p w).1.1).
Proof.
  intros Htraits Hwf.
  destruct (growth_is_defined_unbounded v w Htraits Hwf)
    as (Hr & Hp & He & Hs & Hc).
  split_and!.
  - intros c Hn. rewrite (Reserve_representable c v w Hn). apply Hr.
  - intros x Hn. rewrite (PushBack_representable x v w Hn). apply Hp.
  - intros x Hn. rewrite (EmplaceBack_representable x v w Hn). apply He.
  - intros n Hn. rewrite (Resize_representable n v w Hn). apply Hs.
  - intros p Hn. rewrite (copy_ctor_representable v p w Hn). apply Hc.
Qed.
End Caller_sizes.

(** * The further properties on concrete vectors *)

Section Concrete_further.
Local Existing Instance throwing_copyable.

(** Objects of 4 bytes on a 64-bit [size_t]. *)
Local Abbreviation L64 := (size_t_64 4 nat).

Lemma wrapping_count_above n : n <= 2 -> n < wrapping_count.
Proof. unfold wrapping_count. lia. Qed.

Lemma slots_wrapping_count :
  slots (L := L64) (byte_count (L := L64) wrapping_count) = 1.
Proof.
  unfold slots, byte_count, wrapping_count.
  cbn [sizeof size_t_bits size_t_64]. rewrite N2Nat.id. reflexivity.
Qed.


(** What follows from a request for [c] objects answered by a block of
    one slot. *)
Lemma RawMemory_ctor_one_slot {St} c (s : St) :
  0 < c -> slots (L := L64) (byte_count (L := L64) c) = 1 ->
  RawMemory.ctor (L := L64) c s calm = (Returns (RawMemory.mk [None] c), s, calm).
Proof.
  intros Hc Hs. unfold RawMemory.ctor, RawMemory.Allocate. rewrite Hs.
  rewrite (proj2 (Nat.eqb_neq c 0)) by lia.
  reflexivity.
Qed.

Lemma Reserve_one_slot_empty c :
  0 < c -> slots (L := L64) (byte_count (L := L64) c) = 1 ->
  Vector.Reserve (L := L64) c Vector.default calm
  = (Returns tt, Vector.mk (RawMemory.mk [None] c) 0, calm).
Proof.
  intros Hc Hs. unfold Vector.Reserve. rewrite bind_get.
  rewrite (proj2 (Nat.leb_gt c _)) by (vm_compute; lia).
  step (RawMemory_ctor_one_slot c (Vector.default (T := nat)) Hc Hs).
  reflexivity.
Qed.


Lemma PushBack_one_slot_first c :
  0 < c ->
  Vector.PushBack (L := L64) 1 (Vector.mk (RawMemory.mk [None] c) 0) calm
  = (Returns tt, Vector.mk (RawMemory.mk [Some 1] c) 1, calm).
Proof.
  intros Hc. unfold Vector.PushBack. rewrite bind_get.
  rewrite (proj2 (Nat.leb_gt c _)) by (vm_compute; lia).
  reflexivity.
Qed.

Lemma PushBack_one_slot_second c :
  1 < c ->
  Vector.PushBack (L := L64) 2 (Vector.mk (RawMemory.mk [Some 1] c) 1) calm
  = (Undefined, Vector.mk (RawMemory.mk [Some 1] c) 1, calm).
Proof.
  intros Hc. unfold Vector.PushBack. rewrite bind_get.
  rewrite (proj2 (Nat.leb_gt c _)) by (vm_compute; lia).
  reflexivity.
Qed.



Lemma PushBack_in_wrapped_block_first :
  Vector.PushBack (L := L64) 1 (Vector.mk (RawMemory.mk [None] wrapping_count) 0) calm
  = (Returns tt, Vector.mk (RawMemory.mk [Some 1] wrapping_count) 1, calm).
Proof. apply PushBack_one_slot_first, wrapping_count_above. lia. Qed.

Lemma PushBack_in_wrapped_block_second :
  Vector.PushBack (L := L64) 2 (Vector.mk (RawMemory.mk [Some 1] wrapping_count) 1) calm
  = (Undefined, Vector.mk (RawMemory.mk [Some 1] wrapping_count) 1, calm).
Proof. apply PushBack_one_slot_second, wrapping_count_above. lia. Qed.


Lemma one_slot_block c :
  2 < c ->
  Vector.Capacity (Vector.mk (RawMemory.mk [None] c) 0 : Vector.t nat) = c /\
  length (RawMemory.buffer_
            (Vector.data_ (Vector.mk (RawMemory.mk [None] c) 0 : Vector.t nat)))
  = 1 /\
  ~ Vector.wf (Vector.mk (RawMemory.mk [None] c) 0 : Vector.t nat) /\
  Vector.Size (Vector.mk (RawMemory.mk [None] c) 0 : Vector.t nat)
  + length [1; 2] <= c /\
  (push_all (L := L64) [1; 2] (Vector.mk (RawMemory.mk [None] c) 0) calm).1.1
  = Undefined.
Proof.
  intros Hc. split_and!; [done|done| |simpl; lia|].
  - intros [Hb _ _ _]. simpl in Hb. lia.
  - cbn [push_all]. step (PushBack_one_slot_first c ltac:(lia)).
    unfold bind. by rewrite (PushBack_one_slot_second c ltac:(lia)).
Qed.

Lemma run_one_slot c :
  2 < c -> slots (L := L64) (byte_count (L := L64) c) = 1 ->
  is_Some (expect_all [Reserve 0 c; PushBack 0 1; PushBack 0 2] (fun _ => [])) /\
  (exists s1,
     run (L := L64) [Reserve 0 c] ∅ calm = (Returns tt, s1, calm) /\
     Vector.Capacity (view (Vector.obj 0) s1) = c /\
     length (RawMemory.buffer_ (Vector.data_ (view (Vector.obj 0) s1))) = 1 /\
     ~ Vector.wf (view (Vector.obj 0) s1)) /\
  (run (L := L64) [Reserve 0 c; PushBack 0 1; PushBack 0 2] ∅ calm).1.1
  = Undefined.
Proof.
  intros Hc Hs.
  pose proof (Reserve_one_slot_empty c ltac:(lia) Hs) as E.
  destruct (one_slot_block c Hc) as (Hcap & Hlen & Hwf & _ & _).
  split_and!.
  - by eexists.
  - exists (update (Vector.obj 0) (Vector.mk (RawMemory.mk [None] c) 0) ∅).
    rewrite !view_update_eq. split_and!; [|done..].
    cbn [run exec]. by zstep E.
  - cbn [run exec].
    zstep E; [|done].
    zstep (PushBack_one_slot_first c ltac:(lia)); [|by rewrite view_update_eq].
    unfold bind.
    by rewrite (zoom_at _ _ _ _ _ _ _ _ (PushBack_one_slot_second c ltac:(lia))
                  (view_update_eq _ _ _)).
Qed.


(** C8.  Two sequences of calls from the default-constructed vector,
    each call within its precondition, after which the invariant is
    lost.  Three appends give 1, 2, 3 in a block of 4 slots; in
    [Insert(begin(), 9)] the second assignment of the shift throws, and
    the call leaves size 3 over the slots 1, 2, 2, 3: the live range is
    not the expected sequence and slot [size] holds an object, before
    the handler hands [end()] to [operator delete].  With objects of 4
    bytes on a 64-bit [size_t], [Reserve(2^62 + 1)] returns with
    [Capacity()] at [2^62 + 1] over a block of one slot, and the second
    append that follows writes past it. *)
Theorem reachable_invariant_lost :
  (is_Some (expect_all [PushBack 0 1; PushBack 0 2; PushBack 0 3; Insert 0 0 9]
              (fun _ => [])) /\
   exists s',
     run [PushBack 0 1; PushBack 0 2; PushBack 0 3; Insert 0 0 9] ∅
       (throwing_at 12)
     = (Undefined, s', calm) /\
     Vector.Size (view (Vector.obj 0) s') = 3 /\
     Vector.Capacity (view (Vector.obj 0) s') = 4 /\
     Vector.elements (view (Vector.obj 0) s') = [1; 2; 2] /\
     RawMemory.buffer_ (Vector.data_ (view (Vector.obj 0) s')) !! 3
     = Some (Some 3) /\
     ~ Vector.wf (view (Vector.obj 0) s')) /\
  (is_Some (expect_all [Reserve 0 wrapping_count; PushBack 0 1; PushBack 0 2]
              (fun _ => [])) /\
   (exists s1,
      run (L := L64) [Reserve 0 wrapping_count] ∅ calm = (Returns tt, s1, calm) /\
      Vector.Capacity (view (Vector.obj 0) s1) = wrapping_count /\
      length (RawMemory.buffer_ (Vector.data_ (view (Vector.obj 0) s1))) = 1 /\
      ~ Vector.wf (view (Vector.obj 0) s1)) /\
   (run (L := L64) [Reserve 0 wrapping_count; PushBack 0 1; PushBack 0 2] ∅ calm).1.1
   = Undefined).
Proof.
  split.
  - split; [by eexists|].
    eexists. split; [vm_compute; reflexivity|].
    split_and!; try (vm_compute; reflexivity).
    intros [_ _ _ Hraw]. vm_compute in Hraw.
    by apply Forall_cons in Hraw as [? _].
  - exact (run_one_slot wrapping_count (wrapping_count_above 2 (le_n 2))
             slots_wrapping_count).
Qed.

(** [resize(6)] of the vector 1, 2, 3 with capacity 4, with objects of
    4 bytes on a 64-bit [size_t]. *)
Lemma Resize_value_initializes_witness :
  exists v',
    Vector.Resize (L := L64) 6 (Vector.of_list [1; 2; 3] 1) calm
    = (Returns tt, v', calm) /\
    Vector.Size v' = 6 /\
    Vector.elements v' = [1; 2; 3; 0; 0; 0] /\
    Vector.Capacity v' = 8.
Proof.
  destruct (Resize_value_initializes (L := L64)
              (Vector.of_list [1; 2; 3] 1) 6 calm (wf_of_list _ _)
              ltac:(intros _; by vm_compute))
    as (v' & Hq & _ & _ & _ & Hs & He & Hc).
  exists v'. split_and!; [exact (Hq eq_refl)|exact Hs|exact He|exact Hc].
Defined.

Lemma ctor_value_initializes_witness :
  exists v',
    Vector.ctor (L := L64) 3 tt calm = (Returns v', tt, calm) /\
    Vector.elements v' = [0; 0; 0] /\
    Vector.Capacity v' = 3.
Proof.
  destruct (ctor_value_initializes (L := L64) (St := unit) 3 tt calm
              ltac:(by vm_compute))
    as (v' & Hq & _ & _ & _ & _ & _ & Hc & He).
  exists v'. split_and!; [exact (Hq eq_refl)|exact He|exact Hc].
Defined.

(** [Resize(5)] of 1, 2 with capacity 3: the reallocation to capacity 6
    succeeds and the second value construction throws. *)
Lemma Resize_basic_guarantee_witness :
  let v' := Vector.of_list [1; 2] 4 in
  Vector.Resize (L := L64) 5 (Vector.of_list [1; 2] 1) (throwing_at 4)
  = (Throws, v', calm) /\
  Vector.wf v' /\
  Vector.elements v' = [1; 2] /\
  3 <= Vector.Capacity v'.
Proof.
  cbv zeta.
  destruct (Resize_basic_guarantee (H := throwing_copyable) (L := L64)
              (Vector.of_list [1; 2] 1) 5 (throwing_at 4)
              (Vector.of_list [1; 2] 4) calm ltac:(reflexivity) (wf_of_list _ _)
              ltac:(intros _; by vm_compute) ltac:(vm_compute; reflexivity))
    as (Hwf & He & _ & Hc & _).
  split_and!; [vm_compute; reflexivity|exact Hwf|exact He|exact Hc].
Defined.

Lemma growth_is_defined_witness :
  defined (Vector.Reserve (L := L64) 5 (Vector.of_list [1; 2] 0) (throwing_at 2)).1.1 /\
  defined (Vector.PushBack (L := L64) 3 (Vector.of_list [1; 2] 0) (throwing_at 2)).1.1.
Proof.
  destruct (growth_is_defined (H := throwing_copyable) (L := L64)
              (Vector.of_list [1; 2] 0) (throwing_at 2) ltac:(reflexivity)
              (wf_of_list _ _))
    as (Hr & Hp & _).
  split; [exact (Hr 5 ltac:(intros _; by vm_compute))
         |exact (Hp 3 ltac:(intros _; by vm_compute))].
Defined.

Lemma copy_ctor_copies_witness :
  exists v',
    Vector.copy_ctor (Vector.of_list [1; 2] 3) tt calm = (Returns v', tt, calm) /\
    Vector.elements v' = [1; 2] /\
    Vector.Capacity v' = 2.
Proof.
  destruct (copy_ctor_copies (T := nat) (St := unit)
              (Vector.of_list [1; 2] 3) tt calm (wf_of_list _ _))
    as (v' & Hq & _ & _ & _ & _ & He & _ & Hc).
  exists v'. split_and!; [exact (Hq eq_refl)|exact He|exact Hc].
Defined.

Lemma dtor_destroys_all_witness :
  exists v',
    Vector.dtor (Vector.of_list [1; 2] 1) calm = (Returns tt, v', calm) /\
    RawMemory.buffer_ (Vector.data_ v') = [None; None; None].
Proof.
  destruct (dtor_destroys_all (T := nat)
              (Vector.of_list [1; 2] 1) calm (wf_of_list _ _))
    as (v' & E & Hb & _).
  exists v'. split; [exact E|exact Hb].
Defined.

Lemma at_index_in_bounds_witness :
  (exists x, [7; 8; 9] !! 1 = Some x /\
             Vector.at_index 1 (Vector.of_list [7; 8; 9] 0) calm
             = (Returns x, Vector.of_list [7; 8; 9] 0, calm)) /\
  Vector.at_index 3 (Vector.of_list [7; 8; 9] 0) calm
  = (AssertFails, Vector.of_list [7; 8; 9] 0, calm).
Proof.
  destruct (at_index_in_bounds (T := nat)
              (Vector.of_list [7; 8; 9] 0) 1 calm (wf_of_list _ _)) as [Hin _].
  destruct (at_index_in_bounds (T := nat)
              (Vector.of_list [7; 8; 9] 0) 3 calm (wf_of_list _ _)) as [_ Hout].
  split; [apply Hin; simpl; lia|apply Hout; simpl; lia].
Defined.

Lemma PushBack_PopBack_round_trip_witness :
  exists v',
    (Vector.PushBack 3;; Vector.PopBack) (Vector.of_list [1; 2] 0) calm
    = (Returns tt, v', calm) /\
    Vector.elements v' = [1; 2] /\
    2 <= Vector.Capacity v'.
Proof.
  destruct (PushBack_PopBack_round_trip (T := nat)
              (Vector.of_list [1; 2] 0) 3 calm (wf_of_list _ _))
    as (v' & Hq & _ & _ & He & _ & Hc).
  exists v'. split_and!; [exact (Hq eq_refl)|exact He|exact Hc].
Defined.

Lemma Insert_Erase_round_trip_witness :
  (exists v',
     (let* p := Vector.Insert 1 9 in Vector.Erase p) (Vector.of_list [1; 2; 3] 0) calm
     = (Returns 1, v', calm) /\
     Vector.elements v' = [1; 2; 3]) /\
  (let* y := Vector.at_index 1 in
   let* p := Vector.Erase 1 in
   Vector.Insert p y) (Vector.of_list [1; 2; 3] 0) calm
  = (Returns 1, Vector.of_list [1; 2; 3] 0, calm).
Proof.
  destruct (Insert_Erase_round_trip (T := nat)
              (Vector.of_list [1; 2; 3] 0) 1 9 calm (wf_of_list _ _))
    as [Hie Hei].
  split.
  - destruct Hie as (v' & Hq & _ & _ & He & _); [simpl; lia|].
    exists v'. split; [exact (Hq eq_refl)|exact He].
  - destruct Hei as [Hq _]; [simpl; lia|]. exact (Hq eq_refl).
Defined.

Lemma emplaced_value_is_read_witness :
  (exists v',
     (let* p := Vector.Emplace 1 9 in Vector.at_index p)
       (Vector.of_list [1; 2; 3] 1) calm
     = (Returns 9, v', calm)) /\
  (exists v',
     (let* p := Vector.EmplaceBack 9 in Vector.at_index p)
       (Vector.of_list [1; 2; 3] 1) calm
     = (Returns 9, v', calm)).
Proof.
  destruct (emplaced_value_is_read (T := nat)
              (Vector.of_list [1; 2; 3] 1) 1 9 calm (wf_of_list _ _))
    as [Hq _]; [simpl; lia|].
  exact (Hq eq_refl).
Defined.

Lemma Emplace_at_end_is_EmplaceBack_witness :
  Vector.Emplace 2 3 (Vector.of_list [1; 2] 0) calm
  = Vector.EmplaceBack 3 (Vector.of_list [1; 2] 0) calm.
Proof.
  destruct (Emplace_at_end_is_EmplaceBack (T := nat)
              (Vector.of_list [1; 2] 0) 3 calm (wf_of_list _ _)) as [Hq _].
  exact (proj1 (Hq eq_refl)).
Defined.

Lemma move_construction_witness :
  exists s',
    exec (MoveConstruct 0 1) (<[1 := Vector.of_list [4; 5] 1]> ∅) calm
    = (Returns tt, s', calm) /\
    view (Vector.obj 0) s' = Vector.of_list [4; 5] 1 /\
    view (Vector.obj 1) s' = Vector.default.
Proof.
  destruct (move_construction (T := nat) 0 1
              (<[1 := Vector.of_list [4; 5] 1]> ∅) calm)
    as (s' & E & Ha & Hb & _); [lia|].
  exists s'. split_and!; [exact E|exact Ha|exact Hb].
Defined.

(** The second move assignment of [Erase(begin())] on 1, 2, 3 throws:
    the vector is left as 2, 2, 3. *)
Lemma Erase_basic_guarantee_witness :
  let v' := Vector.mk (RawMemory.mk [Some 2; Some 2; Some 3] 3) 3 in
  Vector.Erase 0 (Vector.of_list [1; 2; 3] 0) (throwing_at 1) = (Throws, v', calm) /\
  Vector.wf v' /\
  Vector.Size v' = 3.
Proof.
  cbv zeta.
  destruct (Erase_basic_guarantee (T := nat)
              (Vector.of_list [1; 2; 3] 0) 0 (throwing_at 1) Throws
              (Vector.mk (RawMemory.mk [Some 2; Some 2; Some 3] 3) 3) calm
              (wf_of_list _ _) ltac:(simpl; lia) eq_refl)
    as (_ & Hwf & _ & Hs & _).
  split_and!; [reflexivity|exact Hwf|exact (Hs eq_refl)].
Defined.

(** The second copy assignment of [a = b] throws, for [a] holding 1, 2,
    3 and [b] holding 4, 5: [a] is left as 4, 2, 3. *)
Lemma copy_assignment_basic_guarantee_witness :
  exists s' w',
    Vector.op_assign 0 1
      (<[0 := Vector.of_list [1; 2; 3] 0]> (<[1 := Vector.of_list [4; 5] 0]> ∅))
      (throwing_at 1)
    = (Throws, s', w') /\
    Vector.wf (view (Vector.obj 0) s') /\
    Vector.Size (view (Vector.obj 0) s') = 3 /\
    Vector.Capacity (view (Vector.obj 0) s') = 3 /\
    view (Vector.obj 1) s' = Vector.of_list [4; 5] 0.
Proof.
  set (s := <[0 := Vector.of_list [1; 2; 3] 0]>
              (<[1 := Vector.of_list [4; 5] 0]> (∅ : Vector.store nat))).
  assert (Vector.op_assign 0 1 s (throwing_at 1)
          = (Throws, (Vector.op_assign 0 1 s (throwing_at 1)).1.2,
             (Vector.op_assign 0 1 s (throwing_at 1)).2)) as E
    by (vm_compute; reflexivity).
  destruct (copy_assignment_basic_guarantee (T := nat) 0 1 s
              (throwing_at 1) _ _ (wf_of_list [1; 2; 3] 0) E)
    as (Hwf & Hs & Hc & Hx).
  eexists _, _. split_and!; [exact E|exact Hwf|exact Hs|exact Hc|].
  exact (Hx 1 ltac:(lia)).
Defined.

Lemma Emplace_in_place_exception_witness :
  Vector.Emplace 0 9 (Vector.of_list [1; 2; 3] 1) (throwing_at 0)
  = (Undefined, Vector.of_list [1; 2; 3] 1, calm) /\
  Vector.Emplace 0 9 (Vector.of_list [] 2) (throwing_at 0)
  = (Throws, Vector.of_list [] 2, mkWorld [] 1).
Proof.
  destruct (Emplace_in_place_exception (T := nat)
              (Vector.of_list [1; 2; 3] 1) 0 9 (throwing_at 0) []
              (wf_of_list _ _) ltac:(vm_compute; lia) ltac:(simpl; lia) eq_refl)
    as [Hne _].
  destruct (Emplace_in_place_exception (T := nat)
              (Vector.of_list [] 2) 0 9 (throwing_at 0) []
              (wf_of_list _ _) ltac:(vm_compute; lia) ltac:(simpl; lia) eq_refl)
    as [_ He].
  split; [exact (proj1 (Hne ltac:(simpl; lia)))|exact (He eq_refl)].
Defined.

Lemma capacity_never_shrinks_witness :
  exists s',
    run [PushBack 0 4; Erase 0 0; Resize 0 1; Reserve 0 2]
      (update (Vector.obj 0) (Vector.of_list [1; 2; 3] 0) ∅) calm
    = (Returns tt, s', calm) /\
    3 <= Vector.Capacity (view (Vector.obj 0) s').
Proof.
  pose proof (represents_update (T := nat) ∅ (fun _ => []) 0
                [1; 2; 3] 0 represents_empty) as Hr.
  destruct (run_expected
              [PushBack 0 4; Erase 0 0; Resize 0 1; Reserve 0 2]
              _ _ (set_contents 0 [2]
                     (set_contents 0 [2; 3; 4]
                        (set_contents 0 [1; 2; 3; 4]
                           (set_contents 0 [1; 2; 3] (fun _ => [])))))
              calm Hr eq_refl eq_refl) as (s' & E & _).
  exists s'. split; [exact E|].
  exact (capacity_never_shrinks (T := nat)
           [PushBack 0 4; Erase 0 0; Resize 0 1; Reserve 0 2] _ _
           (set_contents 0 [2]
              (set_contents 0 [2; 3; 4]
                 (set_contents 0 [1; 2; 3; 4]
                    (set_contents 0 [1; 2; 3] (fun _ => [])))))
           calm tt s' calm Hr eq_refl eq_refl E 0).
Defined.
End Concrete_further.
